(** * xmlschema_codegen: the abstract generator

  A shallow embedding of [AbstractGenerator] from
  [xmlschema_codegen/abstract_generator.py]: the dependency sorter
  [sorted_types] and [sorted_complex_types], the type-name mapper
  [map_type] with the types map that [GeneratorMeta.__new__] and
  [__init__] build for it, the rendering loop [render_to_files] and the
  name filters [local_name], [qname], [tag_name] and [namespace], with
  the properties stated about them.

  XSD components are Python objects compared and hashed by identity.  They
  are modelled as references into a heap of records holding the fields the
  generator observes; two occurrences of the same reference are the same
  object. *)

From Stdlib Require Import Ascii String List Bool Arith Lia Permutation
  Relations.
Import ListNotations.

Set Implicit Arguments.

(** ** Data model *)

(** The identity of an XSD component. *)
Definition ref := nat.

(** A particle yielded by [content_type.iter_elements()]: an element
  declaration with its [type], or an [xs:any] wildcard, an object that has
  no attribute [type]. *)
Inductive particle :=
| XsdElement (type : ref)
| XsdAnyElement.

(** [e.type]; [None] stands for the AttributeError of a wildcard. *)
Definition particle_type (e : particle) : option ref :=
  match e with
  | XsdElement type => Some type
  | XsdAnyElement => None
  end.

(** What the generator reads from an [XsdType]: [name], the results of
  [is_simple()], [is_complex()] and [has_simple_content()], [base_type]
  ([None] is Python's None) and the particles yielded by
  [content_type.iter_elements()], in their order. *)
Record XsdType := mkXsdType {
  name : option string;
  is_simple : bool;
  is_complex : bool;
  has_simple_content : bool;
  base_type : option ref;
  iter_elements : list particle
}.

(** The types of the child elements of a type, in the order of the
  particles. *)
Fixpoint types_of (es : list particle) : list ref :=
  match es with
  | [] => []
  | XsdElement type :: es' => type :: types_of es'
  | XsdAnyElement :: es' => types_of es'
  end.

Definition element_types (t : XsdType) : list ref :=
  types_of (iter_elements t).

(** One of the particles of a type is a wildcard. *)
Definition has_wildcard (t : XsdType) : bool :=
  existsb (fun e => match e with
                    | XsdAnyElement => true
                    | XsdElement _ => false
                    end) (iter_elements t).

Definition heap := ref -> XsdType.

(** The argument [xsd_types] of [sorted_types]: a sequence, or a mapping
  whose [values()] are taken. *)
Inductive collection :=
| Sequence (l : list ref)
| Mapping (m : list (string * ref)).

(** [try: xsd_types = list(xsd_types.values()) except AttributeError: pass] *)
Definition values (c : collection) : list ref :=
  match c with
  | Sequence l => l
  | Mapping m => map snd m
  end.

(** How a call of [sorted_types] ends: with the list it returns, with the
  ValueError of a circularity, with the AssertionError of the last
  statement but one, or with the AttributeError of [e.type] on a
  wildcard. *)
Inductive outcome :=
| Return (ordered_types : list ref)
| RaiseValueError (stuck : list ref)
| RaiseAssertionError
| RaiseAttributeError.

(** ** The working dictionary [unordered]

  A Python dict from type objects to lists of type objects.  Iteration
  follows insertion order, so it is an association list with distinct
  keys. *)
Module Dict.

Definition t := list (ref * list ref).

(** [list(d)] *)
Definition keys (d : t) : list ref := map fst d.

(** [d[x]], [None] standing for KeyError. *)
Fixpoint find (x : ref) (d : t) : option (list ref) :=
  match d with
  | [] => None
  | (k, v) :: d' => if k =? x then Some v else find x d'
  end.

(** [x in d] *)
Definition mem (x : ref) (d : t) : bool :=
  match find x d with
  | Some _ => true
  | None => false
  end.

(** [d[x] = v]: overwrites in place, or inserts at the end. *)
Fixpoint set (x : ref) (v : list ref) (d : t) : t :=
  match d with
  | [] => [(x, v)]
  | (k, w) :: d' => if k =? x then (k, v) :: d' else (k, w) :: set x v d'
  end.

(** [d[x] = f(d[x])] for a key [x] of [d] (also [d[x].append(e)]). *)
Definition update (x : ref) (f : list ref -> list ref) (d : t) : t :=
  map (fun p => if fst p =? x then (fst p, f (snd p)) else p) d.

(** [del d[x]] *)
Definition del (x : ref) (d : t) : t :=
  filter (fun p => negb (fst p =? x)) d.

End Dict.

(** ** [sorted_types] *)

Section Sorter.

Variable h : heap.

(** The three buckets. *)
Definition simple (x : ref) : bool := is_simple (h x).
Definition simple_content (x : ref) : bool :=
  is_complex (h x) && has_simple_content (h x).
Definition structured (x : ref) : bool :=
  is_complex (h x) && negb (has_simple_content (h x)).

(** [{x: [] for x in xsd_types if x.is_complex() and not x.has_simple_content()}] *)
Definition init_unordered (xsd_types : list ref) : Dict.t :=
  fold_left (fun d x => if structured x then Dict.set x [] d else d)
            xsd_types [].

(** [for e in ...: if e.type in unordered: unordered[xsd_type].append(e.type)]
    over the particles [es]; [None] stands for the AttributeError raised
    at [e.type] when [e] is a wildcard. *)
Fixpoint collect_particles (es : list particle) (unordered : Dict.t)
         (xsd_type : ref) : option Dict.t :=
  match es with
  | [] => Some unordered
  | e :: es' =>
      match particle_type e with
      | None => None
      | Some type =>
          collect_particles es'
            (if Dict.mem type unordered
             then Dict.update xsd_type (fun l => l ++ [type]) unordered
             else unordered)
            xsd_type
      end
  end.

(** [for e in xsd_type.content_type.iter_elements(): ...] *)
Definition collect_elements (unordered : Dict.t) (xsd_type : ref)
  : option Dict.t :=
  collect_particles (iter_elements (h xsd_type)) unordered xsd_type.

(** [for xsd_type in unordered: ...] over the keys [keys]. *)
Fixpoint collect_keys (keys : list ref) (unordered : Dict.t)
  : option Dict.t :=
  match keys with
  | [] => Some unordered
  | xsd_type :: keys' =>
      match collect_elements unordered xsd_type with
      | None => None
      | Some unordered' => collect_keys keys' unordered'
      end
  end.

Definition collect_dependencies (unordered : Dict.t) : option Dict.t :=
  collect_keys (Dict.keys unordered) unordered.

(** The state of one pass of the [while] loop. *)
Record pass_state := mkPass {
  unordered : Dict.t;
  ordered_types : list ref;
  deleted : nat
}.

(** [if xsd_type in unordered:
       if not unordered[xsd_type]:
          del unordered[xsd_type]
          ordered_types.append(xsd_type)
          deleted += 1] *)
Definition visit (st : pass_state) (xsd_type : ref) : pass_state :=
  match Dict.find xsd_type (unordered st) with
  | Some [] =>
      mkPass (Dict.del xsd_type (unordered st))
             (ordered_types st ++ [xsd_type])
             (S (deleted st))
  | _ => st
  end.

(** [for xsd_type in unordered:
       unordered[xsd_type] = [x for x in unordered[xsd_type] if x in unordered]] *)
Definition prune (unordered : Dict.t) : Dict.t :=
  fold_left
    (fun d x => Dict.update x (filter (fun y => Dict.mem y d)) d)
    (Dict.keys unordered) unordered.

(** The body of [while unordered:], once. *)
Definition pass (xsd_types : list ref) (u : Dict.t) (o : list ref)
  : pass_state :=
  let st := fold_left visit xsd_types (mkPass u o 0) in
  mkPass (prune (unordered st)) (ordered_types st) (deleted st).

(** The [while] loop.  [None] means that [fuel] passes were not enough;
    [Return o] that the loop was left with [ordered_types = o]. *)
Fixpoint resolve (fuel : nat) (accept_circularity : bool)
         (xsd_types : list ref) (u : Dict.t) (o : list ref)
  : option outcome :=
  match u with
  | [] => Some (Return o)
  | _ :: _ =>
      match fuel with
      | 0 => None
      | S fuel' =>
          let st := pass xsd_types u o in
          if deleted st =? 0 then
            if negb accept_circularity
            then Some (RaiseValueError (Dict.keys (unordered st)))
            else Some (Return (ordered_types st ++ Dict.keys (unordered st)))
          else resolve fuel' accept_circularity xsd_types
                       (unordered st) (ordered_types st)
      end
  end.

(** [assert len(xsd_types) == len(ordered_types); return ordered_types] *)
Definition check_length (xsd_types o : list ref) : outcome :=
  if length xsd_types =? length o then Return o else RaiseAssertionError.

(** The body of [sorted_types].  Every object of the heap is an [XsdType],
    so the assertion [all(isinstance(x, XsdType) for x in xsd_types)]
    holds. *)
Definition sorted_types_fuel (fuel : nat) (c : collection)
           (accept_circularity : bool) : option outcome :=
  let xsd_types := values c in
  let ordered := filter simple xsd_types ++ filter simple_content xsd_types in
  match collect_dependencies (init_unordered xsd_types) with
  | None => Some RaiseAttributeError
  | Some u =>
      match resolve fuel accept_circularity xsd_types u ordered with
      | Some (Return o) => Some (check_length xsd_types o)
      | r => r
      end
  end.

(** [sorted_types]: the fuel is one more than the number of input types,
    which is more than the loop ever takes. *)
Definition sorted_types (c : collection) (accept_circularity : bool)
  : option outcome :=
  sorted_types_fuel (S (length (values c))) c accept_circularity.

End Sorter.

(** ** Key lists

    The working dictionary is determined by its list of keys: every value
    is the list of the key's element types that are keys themselves.  The
    loop is therefore studied on key lists ([layers]), and the dictionary
    code is shown to compute the same thing ([resolve_layers]). *)

(** [x in l] on a list of objects. *)
Definition memb (x : ref) (l : list ref) : bool := existsb (Nat.eqb x) l.

(** The first occurrences of a list, in order: the keys a dict
    comprehension over it inserts. *)
Fixpoint dedup (l : list ref) : list ref :=
  match l with
  | [] => []
  | x :: l' => x :: filter (fun y => negb (y =? x)) (dedup l')
  end.

(** [a] occurs in [l] somewhere before an occurrence of [b]. *)
Definition precedes (a b : ref) (l : list ref) : Prop :=
  exists l1 l2 l3, l = l1 ++ a :: l2 ++ b :: l3.

Section KeyLists.

Variable h : heap.
Variable xsd_types : list ref.

(** The dependency list of [x] relative to the key list [K]. *)
Definition deps_in (K : list ref) (x : ref) : list ref :=
  filter (fun e => memb e K) (element_types (h x)).

(** [not unordered[x]] *)
Definition ready (K : list ref) (x : ref) : bool :=
  match deps_in K x with
  | [] => true
  | _ :: _ => false
  end.

(** The dictionary with keys [K] and dependency lists relative to [D]. *)
Definition dict_of (D K : list ref) : Dict.t :=
  map (fun x => (x, deps_in D x)) K.

(** What one pass appends to [ordered_types], and what it leaves. *)
Definition layer (K : list ref) : list ref :=
  filter (fun x => memb x K && ready K x) (dedup xsd_types).

Definition rest (K : list ref) : list ref :=
  filter (fun x => negb (ready K x)) K.

(** The [while] loop on key lists. *)
Fixpoint layers (fuel : nat) (accept_circularity : bool)
         (K o : list ref) : option outcome :=
  match K with
  | [] => Some (Return o)
  | _ :: _ =>
      match fuel with
      | 0 => None
      | S fuel' =>
          if length (layer K) =? 0 then
            if negb accept_circularity
            then Some (RaiseValueError (rest K))
            else Some (Return ((o ++ layer K) ++ rest K))
          else layers fuel' accept_circularity (rest K) (o ++ layer K)
      end
  end.

(** The structured-content types of the input, as the keys of
    [unordered] before the first pass. *)
Definition working_set : list ref := dedup (filter (structured h) xsd_types).

(** [x] directly depends on [y]: both are in the working set and [y] is
    the type of a child element of [x]. *)
Definition depends (x y : ref) : Prop :=
  In x working_set /\ In y working_set /\ In y (element_types (h x)).

(** The dependency graph has a cycle. *)
Definition circular : Prop := exists x, clos_trans ref depends x x.

(** A structured-content type of the input yields a wildcard: reading the
    type of its particles raises. *)
Definition wildcards : bool :=
  existsb (fun x => has_wildcard (h x)) working_set.

End KeyLists.


(** ** Well-formed inputs and example schemas *)

(** An [XsdType] object is an [XsdSimpleType] or an [XsdComplexType]:
    [is_complex()] is the negation of [is_simple()]. *)
Definition classified (h : heap) (x : ref) : Prop :=
  is_complex (h x) = negb (is_simple (h x)).

(** The input of the loop: the first two buckets, already placed. *)
Definition placed (h : heap) (xsd_types : list ref) : list ref :=
  filter (simple h) xsd_types ++ filter (simple_content h) xsd_types.

Definition complex_type (elements : list ref) : XsdType :=
  mkXsdType None false true false None (map XsdElement elements).

Definition simple_type : XsdType :=
  mkXsdType None true false true None [].

Definition simple_content_type : XsdType :=
  mkXsdType None false true true None [].

(** A small schema: [0] has children of types [2] and [3], [2] a child of
    type [4], [1] has no child; [3] is simple, [4] has simple content; [5]
    refers to itself, [6] and [7] to each other. *)
Definition example_heap (r : ref) : XsdType :=
  match r with
  | 0 => complex_type [2; 3]
  | 1 => complex_type []
  | 2 => complex_type [4]
  | 3 => simple_type
  | 4 => simple_content_type
  | 5 => complex_type [5]
  | 6 => complex_type [7]
  | 7 => complex_type [6; 6]
  | _ => simple_type
  end.

(** A schema with a wildcard: [0] has a child of type [1] and an [xs:any],
    [1] a child of type [0], [2] no child; [3] is simple. *)
Definition any_heap (r : ref) : XsdType :=
  match r with
  | 0 => mkXsdType None false true false None [XsdElement 1; XsdAnyElement]
  | 1 => complex_type [0]
  | 2 => complex_type []
  | _ => simple_type
  end.

(** ** Dependency depth

    [height_le h W n x]: every chain of dependencies inside [W] that
    starts at [x] has at most [n] steps. *)
Fixpoint height_le (h : heap) (W : list ref) (n : nat) (x : ref) : bool :=
  match n with
  | 0 => forallb (fun y => negb (memb y W)) (element_types (h x))
  | S m => forallb (fun y => negb (memb y W) || height_le h W m y)
                   (element_types (h x))
  end.

(** The longest chain of dependencies from [x] in the input has exactly
    [n] steps. *)
Definition depth (h : heap) (xsd_types : list ref) (n : nat) (x : ref)
  : Prop :=
  height_le h (working_set h xsd_types) n x = true
  /\ match n with
     | 0 => True
     | S m => height_le h (working_set h xsd_types) m x = false
     end.

(** Some chain of dependencies from [x] never ends: [x] is on a cycle or
    depends on one. *)
Definition unresolvable (h : heap) (xsd_types : list ref) (x : ref) : Prop :=
  forall n, height_le h (working_set h xsd_types) n x = false.

(** The working set at the start of pass [n], counted from [0]. *)
Definition remaining (h : heap) (xsd_types : list ref) (n : nat)
  : list ref :=
  filter (fun x => negb match n with
                        | 0 => false
                        | S m => height_le h (working_set h xsd_types) m x
                        end)
         (working_set h xsd_types).

(** Two types leave the working set in the same pass, not before pass
    [n], or never leave it. *)
Definition together (h : heap) (xsd_types : list ref) (n : nat)
           (x y : ref) : Prop :=
  (exists m, n <= m /\ depth h xsd_types m x /\ depth h xsd_types m y)
  \/ (unresolvable h xsd_types x /\ unresolvable h xsd_types y).

(** ** [map_type] *)

(** The exceptions [map_type] can end in. *)
Inductive exn := KeyError | AttributeError.

Inductive result (A : Type) :=
| Ok (a : A)
| Raise (e : exn).

Arguments Ok {A} a.
Arguments Raise {A} e.

(** [self.types_map]: qualified names to type names of the target
    language. *)
Definition types_map := list (string * string).

Fixpoint lookup (m : types_map) (k : string) : option string :=
  match m with
  | [] => None
  | (k', v) :: m' => if String.eqb k' k then Some v else lookup m' k
  end.

(** [self.types_map[k]]; the name of an anonymous type is None, which is
    no key of the map. *)
Definition getitem (m : types_map) (k : option string) : result string :=
  match k with
  | Some s => match lookup m s with
              | Some v => Ok v
              | None => Raise KeyError
              end
  | None => Raise KeyError
  end.

(** [try: body except KeyError: handler] *)
Definition try_except_KeyError (A : Type) (body handler : result A)
  : result A :=
  match body with
  | Raise KeyError => handler
  | r => r
  end.

(** The argument of [map_type]: an XSD type, an attribute or an element
    with its [type], or anything else. *)
Inductive pyobject :=
| XsdTypeObject (t : ref)
| XsdAttributeObject (type : ref)
| XsdElementObject (type : ref)
| OtherObject.

(** [xsd_type.base_type.name]: an AttributeError when [base_type] is
    None. *)
Definition base_type_name (h : heap) (xsd_type : ref)
  : result (option string) :=
  match base_type (h xsd_type) with
  | Some b => Ok (name (h b))
  | None => Raise AttributeError
  end.

Section MapType.

(** [xsd_qname] of the helpers module, which qualifies a local name with
    the XSD namespace. *)
Variable xsd_qname : string -> string.

Variable h : heap.

Definition map_type (m : types_map) (obj : pyobject) : result string :=
  match match obj with
        | XsdTypeObject t => Some t
        | XsdAttributeObject type | XsdElementObject type => Some type
        | OtherObject => None
        end with
  | None => Ok EmptyString
  | Some xsd_type =>
      try_except_KeyError
        (getitem m (name (h xsd_type)))
        (try_except_KeyError
           (match base_type_name h xsd_type with
            | Ok n => getitem m n
            | Raise e => Raise e
            end)
           (if is_complex (h xsd_type)
            then getitem m (Some (xsd_qname "anyType"))
            else getitem m (Some (xsd_qname "anySimpleType"))))
  end.

End MapType.

(** An example: [20] derives from [21], which derives from the built-in
    [22]; [23] has no base type; [24] is anonymous. *)
Definition example_qname (s : string) : string :=
  ("{http://www.w3.org/2001/XMLSchema}" ++ s)%string.

Definition named_heap (r : ref) : XsdType :=
  match r with
  | 20 => mkXsdType (Some "derived"%string) false true false (Some 21) []
  | 21 => mkXsdType (Some "middle"%string) false true false (Some 22) []
  | 22 => mkXsdType (Some (example_qname "string")) true false true
                    (Some 25) []
  | 23 => mkXsdType (Some "orphan"%string) true false true None []
  | 24 => mkXsdType None true false true (Some 22) []
  | 25 => mkXsdType (Some (example_qname "anySimpleType")) true false true
                    None []
  | _ => simple_type
  end.

Definition example_types_map : types_map :=
  [ (example_qname "anyType", "TYPE(any)"%string);
    (example_qname "anySimpleType", "CHARACTER(len=64)"%string);
    (example_qname "string", "CHARACTER(len=256)"%string) ].

(** ** [render_to_files] *)

(** [sorted_complex_types]: like [sorted_types], without the simple
    types. *)
Definition sorted_complex_types (h : heap) (c : collection)
           (accept_circularity : bool) : option outcome :=
  sorted_types h (Sequence (filter (fun x => negb (simple h x)) (values c)))
               accept_circularity.

(** What [self._env.get_template(name, parent, globals)] gives: one of the
    two exceptions the loop catches, another exception, named by its
    class, which the loop does not catch (TemplateSyntaxError, the parent
    class of TemplateAssertionError, is one), or a template with its
    [filename]. *)
Inductive template_lookup :=
| TemplateNotFound
| TemplateAssertionError
| TemplateRaises (exception : string)
| Template (filename : string).

(** What [template.render(...)] gives: the text, or an exception raised
    while the template is rendered, by a filter for one, named by its
    class. *)
Inductive render_result :=
| RenderText (text : string)
| RenderRaises (exception : string).

(** The records sent to the logger. *)
Inductive log_record :=
| LogDebug (name : string)
| LogWarning (name : string)
| LogInfoWriteFile (output_file : string).

(** What the method can act on: the files with their contents, the
    standard output, and the log. *)
Record world := mkWorld {
  files : list (string * string);
  stdout : list string;
  log : list log_record
}.

(** [output_file.exists()] *)
Definition file_exists (w : world) (path : string) : bool :=
  existsb (fun f => String.eqb (fst f) path) (files w).

(** [print(result)] *)
Definition print (result : string) (w : world) : world :=
  mkWorld (files w) (stdout w ++ [result]) (log w).

Definition log_add (r : log_record) (w : world) : world :=
  mkWorld (files w) (stdout w) (log w ++ [r]).

(** What a call of [render_to_files] can raise: what
    [sorted_complex_types] raised, an exception of [get_template] that is
    not caught, or an exception of [template.render]. *)
Inductive raised :=
| SortRaised (e : outcome)
| LookupRaised (exception : string)
| RenderRaised (exception : string).

(** How a call of [render_to_files] ends: with the list [rendered], or
    with an exception. *)
Inductive rendering :=
| Rendered (w : world) (rendered : list string)
| Raised (w : world) (e : raised).

Definition world_of (r : rendering) : world :=
  match r with
  | Rendered w _ | Raised w _ => w
  end.

Section Render.

(** The helpers module, the Jinja2 environment and [pathlib], which the
    method calls: [is_shell_wildcard], [self._env.list_templates],
    [fnmatch], [self._env.get_template], [template.render],
    [Path(name).name], [output_dir.joinpath] and [with_suffix('')]. *)
Variable is_shell_wildcard : string -> bool.
Variable list_templates : list string.
Variable fnmatch : string -> string -> bool.
Variable get_template : string -> template_lookup.
Variable render : string -> list ref -> render_result.
Variable path_name : string -> string.
Variable joinpath : string -> string -> string.
Variable with_suffix : string -> string.

(** [self.schema.types] and the objects it holds. *)
Variable h : heap.
Variable schema_types : collection.

(** [matching_templates] *)
Definition matching_templates (name : string) : list string :=
  filter (fun x => fnmatch x name) list_templates.

(** [if isinstance(names, str): names = [names]] *)
Definition names_list (names : string + list string) : list string :=
  match names with
  | inl name => [name]
  | inr l => l
  end.

(** The first loop: wildcard names are expanded. *)
Definition template_names (names : list string) : list string :=
  flat_map (fun name => if is_shell_wildcard name
                        then matching_templates name else [name]) names.

(** The second loop.  [None] stands for a sort that ran out of fuel. *)
Fixpoint render_loop (force : bool) (output_dir : string)
         (names : list string) (w : world) (rendered : list string)
  : option rendering :=
  match names with
  | [] => Some (Rendered w rendered)
  | name :: names' =>
      match get_template name with
      | TemplateNotFound =>
          render_loop force output_dir names' (log_add (LogDebug name) w)
                      rendered
      | TemplateAssertionError =>
          render_loop force output_dir names' (log_add (LogWarning name) w)
                      rendered
      | TemplateRaises exception => Some (Raised w (LookupRaised exception))
      | Template filename =>
          let output_file :=
            with_suffix (joinpath output_dir (path_name name)) in
          if negb force && file_exists w output_file
          then render_loop force output_dir names' w rendered
          else
            match sorted_complex_types h schema_types false with
            | Some (Return sorted) =>
                match render name sorted with
                | RenderText result =>
                    render_loop force output_dir names'
                                (log_add (LogInfoWriteFile output_file)
                                         (print result w))
                                (rendered ++ [filename])
                | RenderRaises exception =>
                    Some (Raised w (RenderRaised exception))
                end
            | Some e => Some (Raised w (SortRaised e))
            | None => None
            end
      end
  end.

Definition render_to_files (names : string + list string)
           (output_dir : string) (force : bool) (w : world)
  : option rendering :=
  render_loop force output_dir (template_names (names_list names)) w [].

End Render.

(** An environment with one template, and a schema. *)
Definition example_get_template (name : string) : template_lookup :=
  if String.eqb name "a.f90.jinja"
  then Template "templates/fortran/a.f90.jinja" else TemplateNotFound.

Definition example_with_suffix (path : string) : string :=
  if String.eqb path "out/a.f90.jinja" then "out/a.f90"%string else path.

Definition example_joinpath (dir name : string) : string :=
  (dir ++ "/" ++ name)%string.

Definition example_render (name : string) (sorted : list ref)
  : render_result :=
  RenderText ("rendered " ++ name).

Definition example_render_to_files
  : string + list string -> string -> bool -> world -> option rendering :=
  render_to_files (fun _ => false) [] (fun _ _ => false)
                  example_get_template example_render (fun name => name)
                  example_joinpath example_with_suffix
                  example_heap (Sequence [0; 4; 1; 3; 2]).

(** [x] lies on a cycle of the dependency graph, or depends, directly or
    through other types, on a type that does. *)
Definition reaches_cycle (h : heap) (xsd_types : list ref) (x : ref)
  : Prop :=
  exists z, clos_refl_trans ref (depends h xsd_types) x z
            /\ clos_trans ref (depends h xsd_types) z z.

(** A schema where [0] depends on the cycle of [1] and [2], and [3] on
    nothing; [4] depends on [3] and on a simple type. *)
Definition cycle_heap (r : ref) : XsdType :=
  match r with
  | 0 => complex_type [1]
  | 1 => complex_type [2]
  | 2 => complex_type [1]
  | 3 => complex_type []
  | 4 => complex_type [3; 9]
  | _ => simple_type
  end.

(** [example_heap] with other element types outside the input for [0]. *)
Definition example_heap_outside (r : ref) : XsdType :=
  match r with
  | 0 => complex_type [9; 2; 8]
  | _ => example_heap r
  end.

(** ** What [render_to_files] renders *)

Section RenderPlan.

Variable get_template : string -> template_lookup.
Variable path_name : string -> string.
Variable joinpath : string -> string -> string.
Variable with_suffix : string -> string.

(** [output_dir.joinpath(Path(name).name).with_suffix('')] *)
Definition output_file (output_dir name : string) : string :=
  with_suffix (joinpath output_dir (path_name name)).

(** The template [name] is found and not skipped: [force] is set, or its
    target is not in place. *)
Definition selected (force : bool) (output_dir : string) (w : world)
           (name : string) : bool :=
  match get_template name with
  | Template _ =>
      force || negb (file_exists w (output_file output_dir name))
  | _ => false
  end.

(** [template.filename] of the template found for [name]. *)
Definition filename_of (name : string) : string :=
  match get_template name with
  | Template filename => filename
  | _ => EmptyString
  end.

(** The records of a full turn of the loop for [name]. *)
Definition logged (force : bool) (output_dir : string) (w : world)
           (name : string) : list log_record :=
  match get_template name with
  | TemplateNotFound => [LogDebug name]
  | TemplateAssertionError => [LogWarning name]
  | TemplateRaises _ => []
  | Template _ =>
      if selected force output_dir w name
      then [LogInfoWriteFile (output_file output_dir name)] else []
  end.

(** The lookup of [name] raises nothing that the loop does not catch. *)
Definition lookup_caught (name : string) : Prop :=
  forall exception, get_template name <> TemplateRaises exception.

End RenderPlan.

(** The text of a rendering that raised nothing. *)
Definition rendered_text (r : render_result) : string :=
  match r with
  | RenderText text => text
  | RenderRaises _ => EmptyString
  end.

(** An environment with two templates, one of them with its target in
    place. *)
Definition two_get_template (name : string) : template_lookup :=
  if String.eqb name "a.f90.jinja" then Template "t/a.f90.jinja"
  else if String.eqb name "b.f90.jinja" then Template "t/b.f90.jinja"
  else if String.eqb name "broken.jinja" then TemplateAssertionError
  else if String.eqb name "syntax.jinja"
       then TemplateRaises "TemplateSyntaxError"
  else TemplateNotFound.

Definition two_with_suffix (path : string) : string :=
  if String.eqb path "out/a.f90.jinja" then "out/a.f90"%string
  else if String.eqb path "out/b.f90.jinja" then "out/b.f90"%string
  else path.

Definition two_world : world :=
  mkWorld [("out/a.f90"%string, "old text"%string)] [] [].

(** ** The name filters

    [local_name], [qname], [tag_name] and [namespace] take any object.
    They read an attribute of it, or else take its [name], or the object
    itself, as a string in one of the notations [{namespace}local],
    [prefix:local] or [local]. *)

(** A value as the filters test it: [isinstance(v, str)] or not. *)
Inductive pyvalue :=
| PyStr (s : string)
| PyNotStr.

(** The attributes the filters read from an object; [None] where an
    access raises AttributeError. *)
Record attributes := mkAttributes {
  attr_local_name : option pyvalue;
  attr_prefixed_name : option pyvalue;
  attr_tag : option pyvalue;
  attr_target_namespace : option pyvalue;
  attr_name : option pyvalue
}.

(** The argument of a filter: a string, which has none of the attributes,
    or another object. *)
Inductive filter_arg :=
| StrArg (s : string)
| ObjArg (a : attributes).

(** How a filter ends: all of them return strings; TypeError is what a
    pattern raises when it is matched against a value that is no
    string. *)
Inductive filter_result :=
| Returns (s : string)
| RaisesTypeError.

(** [obj.attr], [None] for AttributeError. *)
Definition getattr (attr : attributes -> option pyvalue) (obj : filter_arg)
  : option pyvalue :=
  match obj with
  | StrArg _ => None
  | ObjArg a => attr a
  end.

(** [try: obj = obj.name except AttributeError: pass] *)
Definition name_or_self (obj : filter_arg) : pyvalue :=
  match obj with
  | StrArg s => PyStr s
  | ObjArg a => match attr_name a with
                | Some v => v
                | None => PyNotStr
                end
  end.

(** [c in s] *)
Fixpoint contains (c : ascii) (s : string) : bool :=
  match s with
  | EmptyString => false
  | String d s' => Ascii.eqb d c || contains c s'
  end.

(** [s.split(c)] for a separator of one character. *)
Fixpoint split (c : ascii) (s : string) : list string :=
  match s with
  | EmptyString => [EmptyString]
  | String d s' =>
      if Ascii.eqb d c then EmptyString :: split c s'
      else match split c s' with
           | p :: ps => String d p :: ps
           | [] => [String d EmptyString]
           end
  end.

(** [a, b = l]: [None] for the ValueError of a list of another length. *)
Definition unpack2 (l : list string) : option (string * string) :=
  match l with
  | [a; b] => Some (a, b)
  | _ => None
  end.

Section Filters.

(** [NCNAME_PATTERN.match(s) is not None] and
    [QNAME_PATTERN.match(s) is not None], for the patterns of the helpers
    module. *)
Variable NCNAME_PATTERN : string -> bool.
Variable QNAME_PATTERN : string -> bool.

(** The last two statements of [local_name] and [tag_name]. *)
Definition ncname_or_empty (local_name : string) : string :=
  if NCNAME_PATTERN local_name then local_name else EmptyString.

(** The last two statements of [qname]. *)
Definition qname_or_empty (qname : pyvalue) : filter_result :=
  match qname with
  | PyStr s => Returns (if QNAME_PATTERN s then s else EmptyString)
  | PyNotStr => RaisesTypeError
  end.

Definition local_name (obj : filter_arg) : string :=
  match getattr attr_local_name obj with
  | Some (PyStr local_name) => ncname_or_empty local_name
  | Some PyNotStr => EmptyString
  | None =>
      match name_or_self obj with
      | PyNotStr => EmptyString
      | PyStr obj =>
          match obj with
          | EmptyString => EmptyString
          | String c _ =>
              if Ascii.eqb c "{" then
                match unpack2 (split "}" obj) with
                | Some (_, local_name) => ncname_or_empty local_name
                | None => EmptyString
                end
              else if contains ":" obj then
                match unpack2 (split ":" obj) with
                | Some (prefix, local_name) =>
                    if NCNAME_PATTERN prefix
                    then ncname_or_empty local_name else EmptyString
                | None => EmptyString
                end
              else ncname_or_empty obj
          end
      end
  end.

Definition qname (obj : filter_arg) : filter_result :=
  match getattr attr_prefixed_name obj with
  | Some qname => qname_or_empty qname
  | None =>
      match name_or_self obj with
      | PyNotStr => Returns EmptyString
      | PyStr obj =>
          match obj with
          | EmptyString => Returns EmptyString
          | String c _ =>
              if Ascii.eqb c "{" then
                match unpack2 (split "}" obj) with
                | Some _ => Returns obj
                | None => Returns EmptyString
                end
              else qname_or_empty (PyStr obj)
          end
      end
  end.

Definition tag_name (obj : filter_arg) : string :=
  match getattr attr_tag obj with
  | None => EmptyString
  | Some PyNotStr => EmptyString
  | Some (PyStr tag) =>
      match tag with
      | EmptyString => EmptyString
      | String c _ =>
          if Ascii.eqb c "{" then
            match unpack2 (split "}" tag) with
            | Some (_, local_name) => ncname_or_empty local_name
            | None => EmptyString
            end
          else ncname_or_empty tag
      end
  end.

Definition namespace (obj : filter_arg) : string :=
  match getattr attr_target_namespace obj with
  | Some (PyStr namespace) => namespace
  | Some PyNotStr => EmptyString
  | None =>
      match name_or_self obj with
      | PyNotStr => EmptyString
      | PyStr obj =>
          match obj with
          | EmptyString => EmptyString
          | String c _ =>
              if negb (Ascii.eqb c "{") then EmptyString
              else match unpack2 (split "}" obj) with
                   | Some (namespace, _) => namespace
                   | None => EmptyString
                   end
          end
      end
  end.

End Filters.

(** A pattern for the examples: a name of letters only. *)
Definition letters_only (s : string) : bool :=
  negb (String.eqb s EmptyString)
  && forallb (fun c => let n := nat_of_ascii c in
                       ((65 <=? n) && (n <=? 90))
                       || ((97 <=? n) && (n <=? 122)))
             (list_ascii_of_string s).

(** An object with no attribute but [name]. *)
Definition named (v : pyvalue) : filter_arg :=
  ObjArg (mkAttributes None None None None (Some v)).

(** ** The types map of a generator

    [builtin_types] is assembled when the class is created, by
    [GeneratorMeta.__new__]; [__init__] copies it and adds the custom
    map.  Dictionaries with string keys are lists of items in insertion
    order, read with [lookup]. *)

(** [m[k] = v] *)
Fixpoint dict_set (m : types_map) (k v : string) : types_map :=
  match m with
  | [] => [(k, v)]
  | (k', v') :: m' =>
      if String.eqb k' k then (k', v) :: m'
      else (k', v') :: dict_set m' k v
  end.

(** [m.update(items)] *)
Definition dict_update (m items : types_map) : types_map :=
  fold_left (fun m kv => dict_set m (fst kv) (snd kv)) items m.

(** The truth value of a dictionary and of a string. *)
Definition dict_truthy (m : types_map) : bool :=
  match m with
  | [] => false
  | _ :: _ => true
  end.

Definition str_truthy (s : string) : bool :=
  match s with
  | EmptyString => false
  | String _ _ => true
  end.

(** The statements of [__init__] that set [self.types_map], for the
    class attribute [builtin_types], the argument [types_map] ([None] by
    default) and [self.schema.target_namespace]. *)
Definition init_types_map (builtin_types : types_map)
           (custom : option types_map) (target_namespace : string)
  : types_map :=
  match custom with
  | None => builtin_types
  | Some items =>
      if dict_truthy items then
        if negb (str_truthy target_namespace)
        then dict_update builtin_types items
        else
          let ns_part := ("{" ++ target_namespace ++ "}")%string in
          dict_update builtin_types
                      (map (fun kv => ((ns_part ++ fst kv)%string, snd kv))
                           items)
      else builtin_types
  end.

(** The key of a custom item in [self.types_map]. *)
Definition custom_key (target_namespace k : string) : string :=
  if str_truthy target_namespace
  then ("{" ++ target_namespace ++ "}" ++ k)%string else k.

(** [name.startswith(p)] *)
Fixpoint startswith (p s : string) : bool :=
  match p, s with
  | EmptyString, _ => true
  | String a p', String b s' => Ascii.eqb a b && startswith p' s'
  | String _ _, EmptyString => false
  end.

Section NewClass.

Variable xsd_qname : string -> string.

(** The statements of [GeneratorMeta.__new__] on [builtin_types]: the
    maps of the bases that have a non-empty one are merged in the order
    of the bases, and the items of the class body are added under their
    qualified names.  [attrs_builtin_types] is [None] when the body has
    no dictionary [builtin_types], which the [try] lets pass.  The result
    is [None] for the ValueError raised in the [finally] clause. *)
Definition new_builtin_types (name : string)
           (bases : list (option types_map))
           (attrs_builtin_types : option types_map) : option types_map :=
  let inherited :=
    fold_left (fun m base =>
                 match base with
                 | Some d => if dict_truthy d then dict_update m d else m
                 | None => m
                 end) bases [] in
  let builtin_types :=
    match attrs_builtin_types with
    | Some d =>
        fold_left (fun m kv => dict_set m (xsd_qname (fst kv)) (snd kv))
                  d inherited
    | None => inherited
    end in
  if negb (dict_truthy builtin_types) && negb (startswith "Abstract" name)
  then None
  else Some builtin_types.

End NewClass.

(** The loop of [GeneratorMeta.__new__] on the [formal_language] of the
    bases; a base without the attribute, or with [None], is [None].  The
    result is [None] for the ValueError of an ambiguous language. *)
Fixpoint bases_formal_language (formal_language : option string)
         (bases : list (option string)) : option (option string) :=
  match bases with
  | [] => Some formal_language
  | base :: bases' =>
      match base with
      | Some l =>
          if str_truthy l then
            match formal_language with
            | None => bases_formal_language (Some l) bases'
            | Some l' =>
                if negb (String.eqb l' l) then None
                else bases_formal_language formal_language bases'
            end
          else bases_formal_language formal_language bases'
      | None => bases_formal_language formal_language bases'
      end
  end.

(** [if formal_language] on the variable of the loop. *)
Definition language_truthy (formal_language : option string) : bool :=
  match formal_language with
  | Some l => str_truthy l
  | None => false
  end.

(** The statements of [GeneratorMeta.__new__] on [formal_language]:
    [attrs_formal_language] is [None] when the class body does not assign
    it, and the value it assigns otherwise.  The result is the attribute
    of the new class, or [None] for a ValueError. *)
Definition new_formal_language (bases : list (option string))
           (attrs_formal_language : option (option string))
  : option (option string) :=
  match bases_formal_language None bases with
  | None => None
  | Some formal_language =>
      match attrs_formal_language with
      | None => Some formal_language
      | Some l =>
          if language_truthy formal_language then None else Some l
      end
  end.

(** The class bodies of [AbstractGenerator] and [FortranGenerator]. *)
Definition AbstractGenerator_builtin_types : types_map :=
  [ ("anyType", EmptyString); ("anySimpleType", EmptyString) ]%string.

Definition FortranGenerator_builtin_types : types_map :=
  [ ("anyType", EmptyString);
    ("anySimpleType", EmptyString);
    ("string", "CHARACTER(len=256)");
    ("boolean", "LOGICAL");
    ("double", "REAL(DP)");
    ("integer", "INTEGER");
    ("unsignedByte", "INTEGER");
    ("nonNegativeInteger", "INTEGER");
    ("positiveInteger", "INTEGER") ]%string.
(** ** Facts about lists of objects *)

Section ListFacts.

Lemma memb_In (x : ref) (l : list ref) : memb x l = true <-> In x l.
Proof.
  unfold memb. rewrite existsb_exists. split.
  - intros [y [Hy E]]. apply Nat.eqb_eq in E. now subst y.
  - intros Hx. exists x. split; [exact Hx | apply Nat.eqb_refl].
Qed.

Lemma memb_not_In (x : ref) (l : list ref) : memb x l = false <-> ~ In x l.
Proof.
  rewrite <- memb_In. destruct (memb x l); split; congruence.
Qed.

Lemma memb_cons (x y : ref) (l : list ref) :
  memb x (y :: l) = (x =? y) || memb x l.
Proof. reflexivity. Qed.

Lemma filter_and (A : Type) (p q : A -> bool) (l : list A) :
  filter p (filter q l) = filter (fun x => q x && p x) l.
Proof.
  induction l as [|a l IH]; simpl; [reflexivity|].
  destruct (q a); simpl; [destruct (p a)|]; now rewrite IH.
Qed.

Lemma existsb_ext_in (A : Type) (f g : A -> bool) (l : list A) :
  (forall x, In x l -> f x = g x) -> existsb f l = existsb g l.
Proof.
  induction l as [|a l IH]; intros H; cbn [existsb]; [reflexivity|].
  rewrite (H a (or_introl eq_refl)), IH; [reflexivity|].
  intros x Hx. apply H. now right.
Qed.

Lemma filter_all (A : Type) (p : A -> bool) (l : list A) :
  (forall x, In x l -> p x = true) -> filter p l = l.
Proof.
  intros Hp. rewrite (filter_ext_in p (fun _ => true) l Hp).
  apply filter_true.
Qed.

Lemma filter_none (A : Type) (p : A -> bool) (l : list A) :
  (forall x, In x l -> p x = false) -> filter p l = [].
Proof.
  intros Hp. rewrite (filter_ext_in p (fun _ => false) l Hp).
  apply filter_false.
Qed.

Lemma filter_nil_none (A : Type) (p : A -> bool) (l : list A) :
  filter p l = [] -> forall x, In x l -> p x = false.
Proof.
  intros E x Hx. destruct (p x) eqn:Hp; [|reflexivity].
  assert (Hin : In x (filter p l)) by (apply filter_In; auto).
  rewrite E in Hin. destruct Hin.
Qed.

Lemma filter_split_perm (A : Type) (p : A -> bool) (l : list A) :
  Permutation (filter p l ++ filter (fun x => negb (p x)) l) l.
Proof.
  induction l as [|a l IH]; simpl; [constructor|].
  destruct (p a); simpl.
  - now constructor.
  - symmetry. apply Permutation_cons_app. now symmetry.
Qed.

Lemma length_zero_nil (A : Type) (l : list A) :
  (length l =? 0) = true <-> l = [].
Proof.
  destruct l; simpl; split; congruence.
Qed.

Lemma dedup_In (x : ref) (l : list ref) : In x (dedup l) <-> In x l.
Proof.
  induction l as [|a l IH]; simpl; [tauto|].
  rewrite filter_In, IH, negb_true_iff, Nat.eqb_neq.
  destruct (Nat.eq_dec a x) as [E|N].
  - split; intros _; now left.
  - split.
    + intros [E|[Hx _]]; [contradiction|now right].
    + intros [E|Hx]; [contradiction|].
      right. split; [exact Hx|congruence].
Qed.

Lemma dedup_NoDup (l : list ref) : NoDup (dedup l).
Proof.
  induction l as [|a l IH]; simpl; constructor.
  - rewrite filter_In, negb_true_iff, Nat.eqb_neq. tauto.
  - now apply NoDup_filter.
Qed.

Lemma dedup_id (l : list ref) : NoDup l -> dedup l = l.
Proof.
  induction 1 as [|a l Ha Hl IH]; simpl; [reflexivity|].
  rewrite IH. f_equal. apply filter_all.
  intros y Hy. apply negb_true_iff, Nat.eqb_neq.
  intros ->. contradiction.
Qed.

Lemma filter_dedup (p : ref -> bool) (l : list ref) :
  filter p (dedup l) = dedup (filter p l).
Proof.
  induction l as [|a l IH]; simpl; [reflexivity|].
  destruct (p a) eqn:Hp; simpl.
  - rewrite <- IH, !filter_and. f_equal. apply filter_ext.
    intros y. apply andb_comm.
  - rewrite <- IH, filter_and. apply filter_ext_in.
    intros y _. destruct (Nat.eqb_spec y a); simpl; [|reflexivity].
    subst y. now rewrite Hp.
Qed.

Lemma dedup_length (l : list ref) : length (dedup l) <= length l.
Proof.
  apply NoDup_incl_length; [apply dedup_NoDup|].
  intros x. apply dedup_In.
Qed.

Lemma dedup_length_lt (l : list ref) :
  ~ NoDup l -> length (dedup l) < length l.
Proof.
  intros Hl. destruct (Nat.lt_ge_cases (length (dedup l)) (length l))
    as [Hlt|Hge]; [exact Hlt|].
  exfalso. apply Hl.
  apply (NoDup_incl_NoDup (dedup_NoDup l) Hge).
  intros x. apply dedup_In.
Qed.

Lemma precedes_app (a b : ref) (l1 l2 : list ref) :
  In a l1 -> In b l2 -> precedes a b (l1 ++ l2).
Proof.
  intros Ha Hb.
  destruct (in_split _ _ Ha) as [u [v ->]].
  destruct (in_split _ _ Hb) as [u' [v' ->]].
  exists u, (v ++ u'), v'. now rewrite <- !app_assoc.
Qed.

Lemma precedes_extend (a b : ref) (l l1 l2 : list ref) :
  precedes a b l -> precedes a b (l1 ++ l ++ l2).
Proof.
  intros [u [v [w ->]]]. exists (l1 ++ u), v, (w ++ l2).
  rewrite <- !app_assoc. simpl. now rewrite <- !app_assoc.
Qed.

Lemma precedes_filter (p : ref -> bool) (a b : ref) (l : list ref) :
  p a = true -> p b = true -> precedes a b l -> precedes a b (filter p l).
Proof.
  intros Ha Hb [u [v [w ->]]].
  exists (filter p u), (filter p v), (filter p w).
  rewrite filter_app. simpl. rewrite Ha, filter_app. simpl. now rewrite Hb.
Qed.

End ListFacts.

(** ** Facts about the working dictionary *)

Arguments memb x l : simpl never.

Section DictFacts.

Variable h : heap.

Lemma fold_left_ext (A B : Type) (f g : A -> B -> A) (l : list B) (a : A) :
  (forall a b, f a b = g a b) -> fold_left f l a = fold_left g l a.
Proof.
  intros E. revert a. induction l as [|b l IH]; intros a; simpl.
  - reflexivity.
  - now rewrite E, IH.
Qed.

Lemma mem_keys (x : ref) (d : Dict.t) :
  Dict.mem x d = memb x (Dict.keys d).
Proof.
  unfold Dict.mem. induction d as [|[k v] d IH]; simpl; [reflexivity|].
  rewrite memb_cons, (Nat.eqb_sym x k).
  destruct (k =? x); [reflexivity | exact IH].
Qed.

Lemma keys_update (x : ref) (f : list ref -> list ref) (d : Dict.t) :
  Dict.keys (Dict.update x f d) = Dict.keys d.
Proof.
  unfold Dict.keys, Dict.update. rewrite map_map. apply map_ext.
  intros [k v]. simpl. now destruct (k =? x).
Qed.

Lemma update_update (x : ref) (f g : list ref -> list ref) (d : Dict.t) :
  Dict.update x f (Dict.update x g d) = Dict.update x (fun l => f (g l)) d.
Proof.
  unfold Dict.update. rewrite map_map. apply map_ext.
  intros [k v]. simpl. destruct (k =? x) eqn:E; simpl; now rewrite E.
Qed.

Lemma update_ext (x : ref) (f g : list ref -> list ref) (d : Dict.t) :
  (forall l, f l = g l) -> Dict.update x f d = Dict.update x g d.
Proof.
  intros E. apply map_ext. intros p. now rewrite E.
Qed.

Lemma update_same (x : ref) (f : list ref -> list ref) (d : Dict.t) :
  (forall l, f l = l) -> Dict.update x f d = d.
Proof.
  intros E. unfold Dict.update. rewrite <- (map_id d) at 2.
  apply map_ext. intros [k v]. simpl. rewrite E. now destruct (k =? x).
Qed.

Lemma keys_dict_of (D K : list ref) : Dict.keys (dict_of h D K) = K.
Proof.
  unfold Dict.keys, dict_of. rewrite map_map. apply map_id.
Qed.

Lemma find_dict_of (D K : list ref) (x : ref) :
  Dict.find x (dict_of h D K)
  = if memb x K then Some (deps_in h D x) else None.
Proof.
  induction K as [|k K IH]; simpl; [reflexivity|].
  rewrite memb_cons, (Nat.eqb_sym x k).
  destruct (Nat.eqb_spec k x) as [->|N]; [reflexivity | exact IH].
Qed.

Lemma del_dict_of (D K : list ref) (x : ref) :
  Dict.del x (dict_of h D K)
  = dict_of h D (filter (fun y => negb (y =? x)) K).
Proof.
  unfold Dict.del, dict_of. now rewrite filter_map_swap.
Qed.

(** Several updates in a row, each by a function of the keys. *)
Lemma fold_update (F : list ref -> ref -> list ref -> list ref)
      (L : list ref) (d : Dict.t) :
  NoDup L ->
  fold_left (fun d x => Dict.update x (F (Dict.keys d) x) d) L d
  = map (fun p => if memb (fst p) L
                  then (fst p, F (Dict.keys d) (fst p) (snd p)) else p) d.
Proof.
  intros HL. revert d.
  induction HL as [|a L Ha HL IH]; intros d; simpl.
  - symmetry. etransitivity; [|apply map_id].
    apply map_ext. reflexivity.
  - rewrite IH, keys_update. unfold Dict.update. rewrite map_map.
    apply map_ext. intros [k v]. simpl.
    rewrite memb_cons. destruct (Nat.eqb_spec k a) as [->|N]; simpl.
    + apply memb_not_In in Ha. now rewrite Ha.
    + reflexivity.
Qed.

(** The inner loop over the elements appends the dependency list. *)
Lemma collect_elements_update (d : Dict.t) (x : ref) :
  collect_elements h d x
  = if has_wildcard (h x) then None
    else Some (Dict.update x (fun l => l ++ deps_in h (Dict.keys d) x) d).
Proof.
  unfold collect_elements, has_wildcard, deps_in, element_types.
  generalize (iter_elements (h x)) as es. intros es. revert d.
  induction es as [|p es IH]; intros d; [|destruct p as [e|]]; simpl.
  - f_equal. symmetry. apply update_same. intros l. apply app_nil_r.
  - rewrite IH. destruct (existsb _ es); [reflexivity|]. f_equal.
    rewrite mem_keys. destruct (memb e (Dict.keys d)).
    + rewrite keys_update, update_update. apply update_ext.
      intros l. now rewrite <- app_assoc.
    + reflexivity.
  - reflexivity.
Qed.

(** The loop over the keys stops at the first key with a wildcard. *)
Lemma collect_keys_fold (keys : list ref) : forall d : Dict.t,
  collect_keys h keys d
  = if existsb (fun x => has_wildcard (h x)) keys then None
    else Some (fold_left
                 (fun d x => Dict.update x
                    (fun l => l ++ deps_in h (Dict.keys d) x) d)
                 keys d).
Proof.
  induction keys as [|k keys IH]; intros d; cbn [collect_keys existsb
    fold_left]; [reflexivity|].
  rewrite collect_elements_update.
  destruct (has_wildcard (h k)); cbn [orb]; [reflexivity|]. apply IH.
Qed.

Lemma collect_dependencies_dict_of (K : list ref) :
  NoDup K ->
  collect_dependencies h (map (fun x => (x, [])) K)
  = if existsb (fun x => has_wildcard (h x)) K then None
    else Some (dict_of h K K).
Proof.
  intros HK. unfold collect_dependencies. rewrite collect_keys_fold.
  assert (EK : Dict.keys (map (fun x : ref => (x, @nil ref)) K) = K).
  { unfold Dict.keys. rewrite map_map. apply map_id. }
  rewrite EK. destruct (existsb _ K); [reflexivity|]. f_equal.
  rewrite (fold_update (fun K x l => l ++ deps_in h K x) _ HK), EK.
  unfold dict_of. rewrite map_map. apply map_ext_in.
  intros x Hx. simpl. apply memb_In in Hx. now rewrite Hx.
Qed.

Lemma deps_in_shrink (D K : list ref) (x : ref) :
  incl K D ->
  filter (fun y => memb y K) (deps_in h D x) = deps_in h K x.
Proof.
  intros HKD. unfold deps_in. rewrite filter_and. apply filter_ext.
  intros e. destruct (memb e K) eqn:E; [|apply andb_false_r].
  apply memb_In, HKD, memb_In in E. now rewrite E.
Qed.

Lemma prune_dict_of (D K : list ref) :
  NoDup K -> incl K D -> prune (dict_of h D K) = dict_of h K K.
Proof.
  intros HK HKD. unfold prune.
  rewrite (fold_left_ext _
             (fun d x => Dict.update x
                ((fun K (_ : ref) => filter (fun y => memb y K))
                   (Dict.keys d) x) d)).
  2:{ intros d x. apply update_ext. intros l. apply filter_ext.
      intros y. apply mem_keys. }
  rewrite keys_dict_of.
  rewrite (fold_update (fun K (_ : ref) => filter (fun y => memb y K))
                       _ HK), keys_dict_of.
  unfold dict_of at 1. rewrite map_map. apply map_ext_in.
  intros x Hx. simpl. apply memb_In in Hx. rewrite Hx.
  now rewrite deps_in_shrink.
Qed.

Lemma set_fresh (K : list ref) (x : ref) :
  Dict.set x [] (map (fun y => (y, [])) K)
  = map (fun y => (y, [])) (if memb x K then K else K ++ [x]).
Proof.
  induction K as [|k K IH]; simpl; [reflexivity|].
  rewrite memb_cons, (Nat.eqb_sym x k).
  destruct (k =? x); simpl; [reflexivity|].
  rewrite IH. now destruct (memb x K).
Qed.

Lemma init_unordered_from (xs K : list ref) :
  fold_left (fun d x => if structured h x then Dict.set x [] d else d)
            xs (map (fun y => (y, [])) K)
  = map (fun y => (y, []))
        (K ++ filter (fun y => negb (memb y K))
                     (dedup (filter (structured h) xs))).
Proof.
  revert K. induction xs as [|x xs IH]; intros K; simpl.
  - now rewrite app_nil_r.
  - destruct (structured h x); [|apply IH].
    rewrite set_fresh. simpl. destruct (memb x K) eqn:Hx; simpl.
    + rewrite IH, filter_and. do 2 f_equal. apply filter_ext_in.
      intros y _. destruct (Nat.eqb_spec y x) as [->|N]; simpl.
      * now rewrite Hx.
      * reflexivity.
    + rewrite IH, <- app_assoc, filter_and. simpl. do 3 f_equal.
      apply filter_ext. intros y. unfold memb. rewrite existsb_app.
      simpl. rewrite orb_false_r, negb_orb. apply andb_comm.
Qed.

Lemma init_unordered_keys (xs : list ref) :
  init_unordered h xs = map (fun y => (y, [])) (working_set h xs).
Proof.
  unfold init_unordered, working_set.
  pose proof (init_unordered_from xs []) as E. simpl in E.
  rewrite E. f_equal. apply filter_all. reflexivity.
Qed.

(** Before the first pass, [unordered] maps each key of the working set
    to its dependency list. *)
Lemma collect_init (xs : list ref) :
  collect_dependencies h (init_unordered h xs)
  = if wildcards h xs then None
    else Some (dict_of h (working_set h xs) (working_set h xs)).
Proof.
  rewrite init_unordered_keys. apply collect_dependencies_dict_of.
  apply dedup_NoDup.
Qed.

End DictFacts.

(** ** The dictionary loop computes [layers] *)

Section Refinement.

Variable h : heap.
Variable xsd_types : list ref.

Lemma memb_filter (p : ref -> bool) (x : ref) (l : list ref) :
  memb x (filter p l) = memb x l && p x.
Proof.
  apply eq_true_iff_eq.
  rewrite andb_true_iff, !memb_In, filter_In. reflexivity.
Qed.

Lemma memb_nil (x : ref) : memb x [] = false.
Proof. reflexivity. Qed.

Lemma working_set_NoDup : NoDup (working_set h xsd_types).
Proof. apply dedup_NoDup. Qed.

Lemma working_set_In (x : ref) :
  In x (working_set h xsd_types)
  <-> In x xsd_types /\ structured h x = true.
Proof.
  unfold working_set. now rewrite dedup_In, filter_In.
Qed.

Lemma working_set_incl : incl (working_set h xsd_types) xsd_types.
Proof. intros x Hx. now apply working_set_In in Hx. Qed.

Lemma visit_dict_of (D K o : list ref) (n : nat) (x : ref) :
  visit (mkPass (dict_of h D K) o n) x
  = if memb x K && ready h D x
    then mkPass (dict_of h D (filter (fun y => negb (y =? x)) K))
                (o ++ [x]) (S n)
    else mkPass (dict_of h D K) o n.
Proof.
  unfold visit, ready. cbn [unordered ordered_types deleted].
  rewrite find_dict_of. destruct (memb x K); [|reflexivity].
  destruct (deps_in h D x); [|reflexivity].
  now rewrite del_dict_of.
Qed.

(** The first [for] loop of a pass: the entries with an empty list whose
    key is met are deleted, and the keys are appended at their first
    occurrence. *)
Lemma fold_visit (D l : list ref) : forall (K o : list ref) (n : nat),
  fold_left visit l (mkPass (dict_of h D K) o n)
  = mkPass
      (dict_of h D (filter (fun x => negb (ready h D x && memb x l)) K))
      (o ++ filter (fun x => memb x K && ready h D x) (dedup l))
      (n + length (filter (fun x => memb x K && ready h D x) (dedup l))).
Proof.
  induction l as [|a l IH]; intros K o n.
  - cbn [fold_left dedup filter length]. rewrite app_nil_r, Nat.add_0_r.
    do 2 f_equal. symmetry. apply filter_all.
    intros x _. now rewrite memb_nil, andb_false_r.
  - cbn [fold_left dedup]. rewrite visit_dict_of.
    destruct (memb a K && ready h D a) eqn:E.
    + rewrite IH. cbn [filter]. rewrite E, !filter_and.
      assert (EQ : filter (fun x => memb x (filter (fun y => negb (y =? a)) K)
                                    && ready h D x) (dedup l)
                   = filter (fun x => negb (x =? a)
                                      && (memb x K && ready h D x)) (dedup l)).
      { apply filter_ext. intros x. rewrite memb_filter.
        destruct (memb x K), (x =? a), (ready h D x); reflexivity. }
      rewrite EQ. cbn [length].
      rewrite <- app_assoc, Nat.add_succ_r. cbn [app Nat.add].
      f_equal. f_equal.
      apply filter_ext. intros x. rewrite memb_cons.
      apply andb_true_iff in E. destruct E as [_ Ea].
      destruct (Nat.eqb_spec x a) as [->|N]; cbn [negb andb orb].
      * now rewrite Ea.
      * reflexivity.
    + rewrite IH. cbn [filter]. rewrite E, filter_and.
      assert (EQ : filter (fun x => negb (x =? a)
                                    && (memb x K && ready h D x)) (dedup l)
                   = filter (fun x => memb x K && ready h D x) (dedup l)).
      { apply filter_ext. intros x.
        destruct (Nat.eqb_spec x a) as [->|N]; cbn [negb andb];
          [now rewrite E | reflexivity]. }
      rewrite EQ. f_equal. f_equal.
      apply filter_ext_in. intros x Hx. rewrite memb_cons.
      destruct (Nat.eqb_spec x a) as [->|N]; cbn [orb]; [|reflexivity].
      apply memb_In in Hx. rewrite Hx in E. cbn [andb] in E.
      now rewrite E.
Qed.

Lemma rest_incl (K : list ref) : incl (rest h K) K.
Proof. apply incl_filter. Qed.

Lemma rest_NoDup (K : list ref) : NoDup K -> NoDup (rest h K).
Proof. apply NoDup_filter. Qed.

(** One pass of the [while] loop on a dictionary in closed form. *)
Lemma pass_dict_of (K o : list ref) :
  NoDup K -> incl K xsd_types ->
  pass xsd_types (dict_of h K K) o
  = mkPass (dict_of h (rest h K) (rest h K))
           (o ++ layer h xsd_types K)
           (length (layer h xsd_types K)).
Proof.
  intros HK Hin. unfold pass. rewrite fold_visit.
  cbn [unordered ordered_types deleted].
  assert (EQ : filter (fun x => negb (ready h K x && memb x xsd_types)) K
               = rest h K).
  { apply filter_ext_in. intros x Hx.
    apply Hin, memb_In in Hx. now rewrite Hx, andb_true_r. }
  rewrite EQ, prune_dict_of;
    [reflexivity | now apply rest_NoDup | apply rest_incl].
Qed.

Theorem resolve_layers (fuel : nat) (accept_circularity : bool) :
  forall K o : list ref,
    NoDup K -> incl K xsd_types ->
    resolve fuel accept_circularity xsd_types (dict_of h K K) o
    = layers h xsd_types fuel accept_circularity K o.
Proof.
  induction fuel as [|fuel IH]; intros [|k K] o HK Hin;
    try reflexivity.
  cbn [resolve layers dict_of map].
  change ((k, deps_in h (k :: K) k)
            :: map (fun x => (x, deps_in h (k :: K) x)) K)
    with (dict_of h (k :: K) (k :: K)).
  rewrite pass_dict_of by assumption.
  cbn [unordered ordered_types deleted]. rewrite keys_dict_of.
  destruct (length (layer h xsd_types (k :: K)) =? 0); [reflexivity|].
  apply IH.
  - now apply rest_NoDup.
  - intros x Hx. now apply Hin, rest_incl.
Qed.

(** Any amount of fuel beyond the number of keys gives a result. *)
Lemma layer_rest_length (K : list ref) :
  NoDup K -> incl K xsd_types ->
  length (layer h xsd_types K) + length (rest h K) = length K.
Proof.
  intros HK Hin. unfold rest.
  rewrite <- (filter_length (ready h K) K). f_equal.
  apply Permutation_length, NoDup_Permutation.
  - apply NoDup_filter, dedup_NoDup.
  - now apply NoDup_filter.
  - intros x. unfold layer.
    rewrite !filter_In, dedup_In, andb_true_iff, memb_In.
    split; [tauto|]. intros [Hx Hr]. auto.
Qed.

Lemma layers_total (accept_circularity : bool) (fuel : nat) :
  forall K o : list ref,
    NoDup K -> incl K xsd_types -> length K <= fuel ->
    exists r, layers h xsd_types fuel accept_circularity K o = Some r.
Proof.
  induction fuel as [|fuel IH]; intros [|k K] o HK Hin Hlen;
    cbn [layers]; try (eexists; reflexivity).
  - cbn [length] in Hlen. lia.
  - destruct (length (layer h xsd_types (k :: K)) =? 0) eqn:E.
    + destruct accept_circularity; eexists; reflexivity.
    + apply IH.
      * now apply rest_NoDup.
      * intros x Hx. now apply Hin, rest_incl.
      * pose proof (layer_rest_length HK Hin) as L.
        apply Nat.eqb_neq in E. lia.
Qed.

End Refinement.

(** ** The loop on key lists *)

Section LayersFacts.

Variable h : heap.
Variable xsd_types : list ref.

Lemma ready_false (K : list ref) (x : ref) :
  ready h K x = false
  <-> exists y, In y (element_types (h x)) /\ In y K.
Proof.
  unfold ready, deps_in. split.
  - destruct (filter _ _) as [|y l] eqn:E; [discriminate|]. intros _.
    assert (Hy : In y (filter (fun e => memb e K) (element_types (h x))))
      by (rewrite E; now left).
    apply filter_In in Hy. destruct Hy as [Hy HK].
    exists y. split; [exact Hy | now apply memb_In].
  - intros [y [Hy HK]].
    destruct (filter _ _) as [|z l] eqn:E; [|reflexivity].
    apply memb_In in HK.
    now rewrite (filter_nil_none _ _ E y Hy) in HK.
Qed.

Lemma ready_true (K : list ref) (x : ref) :
  ready h K x = true
  <-> forall y, In y (element_types (h x)) -> ~ In y K.
Proof.
  split.
  - intros Hr y Hy HK.
    assert (F : ready h K x = false) by (apply ready_false; eauto).
    congruence.
  - intros Hn. destruct (ready h K x) eqn:E; [reflexivity|].
    apply ready_false in E. destruct E as [y [Hy HK]].
    now destruct (Hn y Hy).
Qed.

Lemma layer_In (K : list ref) (x : ref) :
  incl K xsd_types ->
  In x (layer h xsd_types K) <-> In x K /\ ready h K x = true.
Proof.
  intros Hin. unfold layer.
  rewrite filter_In, dedup_In, andb_true_iff, memb_In.
  split; [tauto|]. intros [Hx Hr]. auto.
Qed.

Lemma layer_NoDup (K : list ref) : NoDup (layer h xsd_types K).
Proof. apply NoDup_filter, dedup_NoDup. Qed.

Lemma rest_In (K : list ref) (x : ref) :
  In x (rest h K) <-> In x K /\ ready h K x = false.
Proof.
  unfold rest. now rewrite filter_In, negb_true_iff.
Qed.

Lemma layer_rest_perm (K : list ref) :
  NoDup K -> incl K xsd_types ->
  Permutation (layer h xsd_types K ++ rest h K) K.
Proof.
  intros HK Hin.
  rewrite <- (filter_split_perm (ready h K) K) at 3.
  apply Permutation_app_tail, NoDup_Permutation.
  - apply layer_NoDup.
  - now apply NoDup_filter.
  - intros x. rewrite layer_In, filter_In by exact Hin. reflexivity.
Qed.

Lemma layer_nil : layer h xsd_types [] = [].
Proof.
  apply filter_none. intros x _. now rewrite memb_nil.
Qed.

(** A pass that appends nothing leaves the keys as they are. *)
Lemma stuck_rest (K : list ref) :
  incl K xsd_types -> layer h xsd_types K = [] -> rest h K = K.
Proof.
  intros Hin E. apply filter_all. intros x Hx. apply negb_true_iff.
  destruct (ready h K x) eqn:Hr; [|reflexivity].
  assert (F : In x (layer h xsd_types K)) by (apply layer_In; auto).
  rewrite E in F. destruct F.
Qed.

(** The equations of the loop. *)
Lemma layers_nil (fuel : nat) (a : bool) (o : list ref) :
  layers h xsd_types fuel a [] o = Some (Return o).
Proof. now destruct fuel. Qed.

Lemma layers_stuck (fuel : nat) (a : bool) (K o : list ref) :
  K <> [] -> layer h xsd_types K = [] ->
  layers h xsd_types (S fuel) a K o
  = Some (if a then Return ((o ++ layer h xsd_types K) ++ rest h K)
          else RaiseValueError (rest h K)).
Proof.
  intros HK E. destruct K as [|k K]; [congruence|].
  cbn [layers]. rewrite E. cbn [length Nat.eqb].
  now destruct a.
Qed.

Lemma layers_step (fuel : nat) (a : bool) (K o : list ref) :
  layer h xsd_types K <> [] ->
  layers h xsd_types (S fuel) a K o
  = layers h xsd_types fuel a (rest h K) (o ++ layer h xsd_types K).
Proof.
  intros E. destruct K as [|k K].
  - now destruct (E layer_nil).
  - cbn [layers]. destruct (layer h xsd_types (k :: K)); [congruence|].
    reflexivity.
Qed.

(** An induction principle following the passes of the loop. *)
Lemma layers_ind (a : bool) (P : list ref -> list ref -> outcome -> Prop) :
  (forall o, P [] o (Return o)) ->
  (forall K o, K <> [] -> layer h xsd_types K = [] ->
     P K o (if a then Return ((o ++ layer h xsd_types K) ++ rest h K)
            else RaiseValueError (rest h K))) ->
  (forall K o r, layer h xsd_types K <> [] ->
                 P (rest h K) (o ++ layer h xsd_types K) r -> P K o r) ->
  forall fuel K o r, layers h xsd_types fuel a K o = Some r -> P K o r.
Proof.
  intros Hnil Hstuck Hstep.
  induction fuel as [|fuel IH]; intros K o r E.
  - destruct K; [|discriminate]. injection E as <-. apply Hnil.
  - destruct K as [|k K].
    + injection E as <-. apply Hnil.
    + destruct (layer h xsd_types (k :: K)) as [|x l] eqn:EL.
      * rewrite layers_stuck in E by congruence.
        injection E as <-. now apply Hstuck.
      * rewrite layers_step in E by congruence.
        apply Hstep; [congruence|]. now apply IH.
Qed.

Lemma layers_no_assertion (a : bool) (fuel : nat) (K o : list ref) :
  layers h xsd_types fuel a K o <> Some RaiseAssertionError.
Proof.
  intros E.
  apply (layers_ind a (fun _ _ r => r <> RaiseAssertionError)) in E.
  - now apply E.
  - discriminate.
  - intros; now destruct a.
  - auto.
Qed.

End LayersFacts.

Section LayersResults.

Variable h : heap.
Variable xsd_types : list ref.

(** [ordered_types] only grows at its end. *)
Lemma layers_prefix (a : bool) (fuel : nat) (K o out : list ref) :
  layers h xsd_types fuel a K o = Some (Return out) ->
  exists t, out = o ++ t.
Proof.
  intros E.
  apply (layers_ind h xsd_types a (fun _ o r =>
           forall out, r = Return out -> exists t, out = o ++ t))
    with (out := out) in E; [exact E | | | | reflexivity].
  - intros o' out' [= <-]. exists []. now rewrite app_nil_r.
  - intros K' o' _ _ out'. destruct a; [|discriminate].
    intros [= <-]. exists (layer h xsd_types K' ++ rest h K').
    now rewrite app_assoc.
  - intros K' o' r _ IH out' Hr. destruct (IH out' Hr) as [t ->].
    exists (layer h xsd_types K' ++ t). now rewrite app_assoc.
Qed.

(** What is returned holds the types placed so far and the keys. *)
Lemma layers_perm (a : bool) (fuel : nat) (K o out : list ref) :
  NoDup K -> incl K xsd_types ->
  layers h xsd_types fuel a K o = Some (Return out) ->
  Permutation out (o ++ K).
Proof.
  intros HK Hin E.
  apply (layers_ind h xsd_types a (fun K o r =>
           NoDup K -> incl K xsd_types ->
           forall out, r = Return out -> Permutation out (o ++ K)))
    with (out := out) in E; auto.
  - intros o' _ _ out' [= <-]. now rewrite app_nil_r.
  - intros K' o' _ _ HK' Hin' out'. destruct a; [|discriminate].
    intros [= <-]. rewrite <- app_assoc.
    now apply Permutation_app_head, layer_rest_perm.
  - intros K' o' r _ IH HK' Hin' out' Hr.
    rewrite (IH (rest_NoDup h HK')
                (fun x Hx => Hin' x (rest_incl h K' x Hx)) out' Hr).
    rewrite <- app_assoc.
    now apply Permutation_app_head, layer_rest_perm.
Qed.

(** With [accept_circularity] the loop never raises. *)
Lemma layers_accept (fuel : nat) (K o : list ref) (r : outcome) :
  layers h xsd_types fuel true K o = Some r -> exists out, r = Return out.
Proof.
  intros E.
  apply (layers_ind h xsd_types true
           (fun _ _ r => exists out, r = Return out)) in E; eauto.
Qed.

(** The circularity error names a non-empty set of keys, listed in the
    order of the keys, each with a dependency inside the set. *)
Lemma layers_raise (a : bool) (fuel : nat) (K o stuck : list ref) :
  NoDup K -> incl K xsd_types ->
  layers h xsd_types fuel a K o = Some (RaiseValueError stuck) ->
  a = false /\ stuck <> []
  /\ stuck = filter (fun x => memb x stuck) K
  /\ forall x, In x stuck ->
               exists y, In y (element_types (h x)) /\ In y stuck.
Proof.
  intros HK Hin E.
  apply (layers_ind h xsd_types a (fun K _ r =>
           NoDup K -> incl K xsd_types ->
           forall stuck, r = RaiseValueError stuck ->
             a = false /\ stuck <> []
             /\ stuck = filter (fun x => memb x stuck) K
             /\ forall x, In x stuck ->
                  exists y, In y (element_types (h x)) /\ In y stuck))
    with (stuck := stuck) in E; auto.
  - discriminate.
  - intros K' o' HK' EL _ Hin' stuck'. destruct a; [discriminate|].
    intros [= <-]. rewrite (stuck_rest h Hin' EL).
    split; [reflexivity|]. split; [exact HK'|]. split.
    + symmetry. apply filter_all. intros x. apply memb_In.
    + intros x Hx. apply ready_false.
      rewrite <- (stuck_rest h Hin' EL) in Hx. now apply rest_In in Hx.
  - intros K' o' r _ IH HK' Hin' stuck' Hr.
    destruct (IH (rest_NoDup h HK')
                 (fun x Hx => Hin' x (rest_incl h K' x Hx)) stuck' Hr)
      as [Ha [Hne [Hord Hdep]]].
    repeat split; auto.
    rewrite Hord at 1. unfold rest. rewrite filter_and.
    apply filter_ext_in. intros x Hx.
    destruct (memb x stuck') eqn:Hm; [|apply andb_false_r].
    apply memb_In in Hm. rewrite Hord in Hm.
    apply filter_In in Hm. destruct Hm as [Hm _].
    apply rest_In in Hm. destruct Hm as [_ ->]. reflexivity.
Qed.

(** Both settings of [accept_circularity] make the same passes; they
    differ at the pass that deletes nothing. *)
Lemma layers_flag (fuel : nat) : forall (K o : list ref) (r : outcome),
  layers h xsd_types fuel false K o = Some r ->
  match r with
  | Return out => layers h xsd_types fuel true K o = Some (Return out)
  | RaiseValueError stuck =>
      exists pre, layers h xsd_types fuel true K o
                  = Some (Return (pre ++ stuck))
  | RaiseAssertionError | RaiseAttributeError => False
  end.
Proof.
  induction fuel as [|fuel IH]; intros K o r E.
  - destruct K; [|discriminate]. now injection E as <-.
  - destruct K as [|k K]; [now injection E as <-|].
    destruct (layer h xsd_types (k :: K)) as [|x l] eqn:EL.
    + rewrite layers_stuck in E |- * by congruence.
      injection E as <-.
      now exists (o ++ layer h xsd_types (k :: K)).
    + assert (NE : layer h xsd_types (k :: K) <> []) by congruence.
      rewrite layers_step in E by exact NE.
      specialize (IH _ _ _ E). destruct r; try exact IH.
      * now rewrite layers_step.
      * destruct IH as [pre IH]. exists pre. now rewrite layers_step.
Qed.

(** More fuel does not change the result. *)
Lemma layers_fuel (a : bool) (fuel : nat) :
  forall (K o : list ref) (r : outcome),
    layers h xsd_types fuel a K o = Some r ->
    forall fuel', fuel <= fuel' -> layers h xsd_types fuel' a K o = Some r.
Proof.
  induction fuel as [|fuel IH]; intros K o r E fuel' Hle.
  - destruct K; [|discriminate]. now rewrite layers_nil.
  - destruct fuel' as [|fuel']; [lia|].
    destruct K as [|k K]; [exact E|].
    destruct (layer h xsd_types (k :: K)) as [|x l] eqn:EL.
    + rewrite layers_stuck in E |- * by congruence. exact E.
    + assert (NE : layer h xsd_types (k :: K) <> []) by congruence.
      rewrite layers_step in E |- * by exact NE.
      apply (IH _ _ _ E). lia.
Qed.

End LayersResults.

(** ** Cycles of the dependency graph *)

Section Cycles.

Variable h : heap.
Variable xsd_types : list ref.

Lemma first_step (R : relation ref) (x w : ref) :
  clos_trans ref R x w ->
  exists y, R x y /\ (y = w \/ clos_trans ref R y w).
Proof.
  intros H. apply clos_trans_t1n in H. destruct H as [y H|y z H H'].
  - exists y. auto.
  - exists y. split; [exact H|]. right. now apply clos_t1n_trans.
Qed.

(** A type on a cycle depends on a type on a cycle. *)
Lemma circular_successor (R : relation ref) (z : ref) :
  clos_trans ref R z z ->
  exists y, R z y /\ clos_trans ref R y y.
Proof.
  intros H. destruct (first_step H) as [y [Hzy [->|Hyz]]].
  - exists z. auto.
  - exists y. split; [exact Hzy|].
    apply t_trans with z; [exact Hyz | now apply t_step].
Qed.

(** Following successors inside a finite set meets some element twice. *)
Lemma walk (R : relation ref) (K : list ref) :
  (forall x, In x K -> exists y, In y K /\ R x y) ->
  forall (n : nat) (visited : list ref) (x : ref),
    NoDup visited -> incl visited K -> In x K ->
    (forall v, In v visited -> clos_trans ref R v x) ->
    length K <= n + length visited ->
    exists z, clos_trans ref R z z.
Proof.
  intros Hsucc. induction n as [|n IH]; intros visited x Hnd Hin Hx Hv Hlen;
    destruct (in_dec Nat.eq_dec x visited) as [Hxv|Hxv].
  - exists x. now apply Hv.
  - assert (L : length (x :: visited) <= length K).
    { apply NoDup_incl_length; [now constructor|].
      intros y [<-|Hy]; auto. }
    cbn [length] in L. lia.
  - exists x. now apply Hv.
  - destruct (Hsucc x Hx) as [y [Hy Hxy]].
    apply (IH (x :: visited) y).
    + now constructor.
    + intros v [<-|Hv']; auto.
    + exact Hy.
    + intros v [<-|Hv'].
      * now apply t_step.
      * apply t_trans with x; [now apply Hv | now apply t_step].
    + cbn [length]. lia.
Qed.

Lemma closed_set_cycle (R : relation ref) (K : list ref) :
  K <> [] ->
  (forall x, In x K -> exists y, In y K /\ R x y) ->
  exists z, clos_trans ref R z z.
Proof.
  intros HK Hsucc. destruct K as [|k K]; [congruence|].
  apply (@walk R (k :: K) Hsucc (length (k :: K)) [] k).
  - constructor.
  - intros y [].
  - now left.
  - intros v [].
  - cbn [length]. lia.
Qed.

(** A pass that deletes nothing shows a cycle. *)
Lemma stuck_circular (K : list ref) :
  K <> [] -> incl K (working_set h xsd_types) ->
  layer h xsd_types K = [] ->
  circular h xsd_types.
Proof.
  intros HK Hin EL.
  apply (@closed_set_cycle (depends h xsd_types) K HK).
  intros x Hx.
  assert (Hxs : incl K xsd_types).
  { intros y Hy. now apply working_set_incl with (h := h), Hin. }
  assert (Hr : ready h K x = false).
  { destruct (ready h K x) eqn:Hr; [|reflexivity].
    assert (F : In x (layer h xsd_types K)) by (apply layer_In; auto).
    rewrite EL in F. destruct F. }
  apply ready_false in Hr. destruct Hr as [y [Hy HyK]].
  exists y. split; [exact HyK|]. repeat split; auto.
Qed.

(** The types on a cycle are never deleted: without
    [accept_circularity] the loop ends in the circularity error. *)
Lemma layers_circular (fuel : nat) (K o : list ref) (r : outcome) :
  circular h xsd_types ->
  (forall z, clos_trans ref (depends h xsd_types) z z -> In z K) ->
  layers h xsd_types fuel false K o = Some r ->
  exists stuck, r = RaiseValueError stuck.
Proof.
  intros Hc HK E.
  apply (layers_ind h xsd_types false (fun K _ r =>
           (forall z, clos_trans ref (depends h xsd_types) z z -> In z K) ->
           exists stuck, r = RaiseValueError stuck)) in E.
  - now apply E.
  - intros o' Hnil. destruct Hc as [z Hz]. destruct (Hnil z Hz).
  - eauto.
  - intros K' o' r' _ IH HK'. apply IH. intros z Hz.
    apply rest_In. split; [now apply HK'|].
    destruct (circular_successor Hz) as [y [[_ [_ Hy]] Hyy]].
    apply ready_false. exists y. split; [exact Hy | now apply HK'].
  - exact HK.
Qed.

(** Without a cycle [accept_circularity] makes no difference. *)
Lemma layers_acyclic (fuel : nat) : forall K o : list ref,
  ~ circular h xsd_types ->
  incl K (working_set h xsd_types) ->
  layers h xsd_types fuel true K o = layers h xsd_types fuel false K o.
Proof.
  induction fuel as [|fuel IH]; intros K o Hc Hin; [now destruct K|].
  destruct K as [|k K]; [reflexivity|].
  destruct (layer h xsd_types (k :: K)) as [|x l] eqn:EL.
  - destruct Hc.
    apply (stuck_circular (K := k :: K));
      [discriminate | exact Hin | exact EL].
  - assert (NE : layer h xsd_types (k :: K) <> []) by congruence.
    rewrite !layers_step by exact NE. apply IH; [exact Hc|].
    intros y Hy. now apply Hin, rest_incl with (h := h).
Qed.

(** A type is appended after the types it depends on. *)
Lemma layers_order (fuel : nat) (K o out : list ref) :
  incl K xsd_types ->
  layers h xsd_types fuel false K o = Some (Return out) ->
  forall A B, In A K -> In B (element_types (h A)) ->
              In B o \/ In B K -> precedes B A out.
Proof.
  intros Hin E.
  apply (layers_ind h xsd_types false (fun K o r =>
           incl K xsd_types -> forall out, r = Return out ->
           (exists t, out = o ++ t)
           /\ forall A B, In A K -> In B (element_types (h A)) ->
                          In B o \/ In B K -> precedes B A out))
    with (out := out) in E.
  - now apply E.
  - intros o' _ out' [= <-]. split.
    + exists []. now rewrite app_nil_r.
    + intros A B [].
  - discriminate.
  - intros K' o' r _ IH Hin' out' Hr.
    destruct (IH (fun x Hx => Hin' x (rest_incl h K' x Hx)) out' Hr)
      as [[t Ht] Hord].
    split; [exists (layer h xsd_types K' ++ t); now rewrite app_assoc|].
    intros A B HA HB HBo.
    destruct (ready h K' A) eqn:RA.
    + assert (HBK : ~ In B K') by (eapply ready_true; eauto).
      destruct HBo as [HBo|HBK']; [|contradiction].
      rewrite Ht, <- app_assoc. apply precedes_app; [exact HBo|].
      apply in_or_app. left. apply layer_In; auto.
    + apply Hord; [apply rest_In; auto | exact HB |].
      destruct HBo as [HBo|HBK].
      * left. apply in_or_app. now left.
      * destruct (ready h K' B) eqn:RB.
        -- left. apply in_or_app. right. apply layer_In; auto.
        -- right. apply rest_In. auto.
  - exact Hin.
  - reflexivity.
Qed.

End Cycles.

(** ** [sorted_types] through [layers] *)

Section SortedTypes.

Variable h : heap.

Lemma sorted_types_fuel_layers (fuel : nat) (c : collection) (a : bool) :
  sorted_types_fuel h fuel c a
  = if wildcards h (values c) then Some RaiseAttributeError
    else match layers h (values c) fuel a (working_set h (values c))
                      (placed h (values c)) with
         | Some (Return o) => Some (check_length (values c) o)
         | r => r
         end.
Proof.
  unfold sorted_types_fuel. rewrite collect_init.
  destruct (wildcards h (values c)); [reflexivity|].
  rewrite resolve_layers.
  - reflexivity.
  - apply working_set_NoDup.
  - apply working_set_incl.
Qed.

Lemma working_set_length (xs : list ref) :
  length (working_set h xs) <= length xs.
Proof.
  unfold working_set.
  etransitivity; [apply dedup_length | apply filter_length_le].
Qed.

Lemma working_set_distinct (xs : list ref) :
  NoDup (filter (structured h) xs) ->
  working_set h xs = filter (structured h) xs.
Proof. apply dedup_id. Qed.

(** The loop always ends, whatever fuel at least the length of the input
    it is given, and with the same result. *)
Lemma layers_run (xs : list ref) (a : bool) :
  exists r, forall fuel, length xs <= fuel ->
    layers h xs fuel a (working_set h xs) (placed h xs) = Some r.
Proof.
  destruct (@layers_total h xs a (length xs) (working_set h xs) (placed h xs))
    as [r Hr].
  - apply working_set_NoDup.
  - apply working_set_incl.
  - apply working_set_length.
  - exists r. intros fuel Hle. eapply layers_fuel; eauto.
Qed.

Lemma buckets_perm (xs : list ref) :
  (forall x, In x xs -> classified h x) ->
  Permutation xs (placed h xs ++ filter (structured h) xs).
Proof.
  unfold placed. induction xs as [|x xs IH]; intros Hc; [constructor|].
  assert (Hx : classified h x) by (apply Hc; now left).
  assert (IH' := IH (fun y Hy => Hc y (or_intror Hy))). clear IH.
  unfold classified in Hx. cbn [filter].
  unfold simple, simple_content, structured at 1.
  rewrite Hx.
  destruct (is_simple (h x)); cbn [negb andb app].
  - now constructor.
  - destruct (has_simple_content (h x)); cbn [negb app].
    + rewrite <- app_assoc. cbn [app].
      apply Permutation_cons_app. now rewrite app_assoc.
    + now apply Permutation_cons_app.
Qed.

Lemma buckets_length (xs : list ref) :
  (forall x, In x xs -> classified h x) ->
  length xs = length (placed h xs) + length (filter (structured h) xs).
Proof.
  intros Hc. rewrite (Permutation_length (@buckets_perm xs Hc)).
  apply length_app.
Qed.

(** What the loop returns has the length of the two buckets and of the
    working set together. *)
Lemma layers_length (xs : list ref) (fuel : nat) (a : bool) (out : list ref) :
  layers h xs fuel a (working_set h xs) (placed h xs) = Some (Return out) ->
  length out = length (placed h xs) + length (working_set h xs).
Proof.
  intros E. apply layers_perm in E.
  - rewrite (Permutation_length E). apply length_app.
  - apply working_set_NoDup.
  - apply working_set_incl.
Qed.

Lemma check_length_distinct (xs out : list ref) :
  (forall x, In x xs -> classified h x) ->
  NoDup (filter (structured h) xs) ->
  length out = length (placed h xs) + length (working_set h xs) ->
  check_length xs out = Return out.
Proof.
  intros Hc Hnd Hlen. unfold check_length.
  rewrite (@buckets_length xs Hc), Hlen, working_set_distinct by exact Hnd.
  now rewrite Nat.eqb_refl.
Qed.

Lemma check_length_duplicates (xs out : list ref) :
  (forall x, In x xs -> classified h x) ->
  ~ NoDup (filter (structured h) xs) ->
  length out = length (placed h xs) + length (working_set h xs) ->
  check_length xs out = RaiseAssertionError.
Proof.
  intros Hc Hnd Hlen. unfold check_length.
  rewrite (@buckets_length xs Hc), Hlen.
  pose proof (dedup_length_lt Hnd) as L. fold (working_set h xs) in L.
  destruct (Nat.eqb_spec
              (length (placed h xs) + length (filter (structured h) xs))
              (length (placed h xs) + length (working_set h xs)));
    [lia | reflexivity].
Qed.

Lemma cycle_in_working_set (xs : list ref) (z : ref) :
  clos_trans ref (depends h xs) z z -> In z (working_set h xs).
Proof.
  intros Hz. destruct (first_step Hz) as [y [[Hin _] _]]. exact Hin.
Qed.

Lemma run_perm (xs : list ref) (fuel : nat) (a : bool) (out : list ref) :
  layers h xs fuel a (working_set h xs) (placed h xs) = Some (Return out) ->
  Permutation out (placed h xs ++ working_set h xs).
Proof.
  apply layers_perm; [apply working_set_NoDup | apply working_set_incl].
Qed.

Lemma run_raise (xs : list ref) (fuel : nat) (a : bool) (stuck : list ref) :
  layers h xs fuel a (working_set h xs) (placed h xs)
  = Some (RaiseValueError stuck) ->
  a = false /\ stuck <> []
  /\ stuck = filter (fun x => memb x stuck) (working_set h xs)
  /\ forall x, In x stuck ->
               exists y, In y (element_types (h x)) /\ In y stuck.
Proof.
  apply layers_raise; [apply working_set_NoDup | apply working_set_incl].
Qed.

Lemma run_circular (xs : list ref) (fuel : nat) (r : outcome) :
  circular h xs ->
  layers h xs fuel false (working_set h xs) (placed h xs) = Some r ->
  exists stuck, r = RaiseValueError stuck.
Proof.
  intros Hc. apply layers_circular; [exact Hc|].
  intros z. apply cycle_in_working_set.
Qed.

End SortedTypes.

(** A wildcard in a structured-content type of the input ends the call
    before the loop. *)
Lemma sorted_types_wildcards (h : heap) (c : collection) (a : bool) :
  wildcards h (values c) = true ->
  sorted_types h c a = Some RaiseAttributeError.
Proof.
  intros NW. unfold sorted_types. now rewrite sorted_types_fuel_layers, NW.
Qed.

Lemma sorted_types_run (h : heap) (c : collection) (a : bool) :
  wildcards h (values c) = false ->
  exists r,
    (forall fuel, length (values c) <= fuel ->
       layers h (values c) fuel a (working_set h (values c))
              (placed h (values c)) = Some r)
    /\ sorted_types h c a
       = Some (match r with
               | Return o => check_length (values c) o
               | _ => r
               end).
Proof.
  intros NW. destruct (layers_run h (values c) a) as [r Hr]. exists r.
  split; [exact Hr|].
  unfold sorted_types. rewrite sorted_types_fuel_layers, NW, Hr by lia.
  now destruct r.
Qed.

(** The loop never ends in an AttributeError. *)
Lemma layers_no_attribute (h : heap) (xs : list ref) (a : bool)
      (fuel : nat) (K o : list ref) :
  layers h xs fuel a K o <> Some RaiseAttributeError.
Proof.
  intros E.
  apply (layers_ind h xs a (fun _ _ r => r <> RaiseAttributeError)) in E.
  - now apply E.
  - discriminate.
  - intros; now destruct a.
  - auto.
Qed.

(** A call that ends otherwise met no wildcard. *)
Lemma no_wildcards (h : heap) (c : collection) (a : bool) (r : outcome) :
  sorted_types h c a = Some r -> r <> RaiseAttributeError ->
  wildcards h (values c) = false.
Proof.
  intros E Hr. destruct (wildcards h (values c)) eqn:NW; [|reflexivity].
  rewrite (@sorted_types_wildcards h c a NW) in E. injection E as <-.
  now destruct Hr.
Qed.

(** The AttributeError has no other cause. *)
Lemma attribute_error_wildcards (h : heap) (c : collection) (a : bool) :
  sorted_types h c a = Some RaiseAttributeError
  <-> wildcards h (values c) = true.
Proof.
  split; [|apply sorted_types_wildcards].
  intros E. destruct (wildcards h (values c)) eqn:NW; [reflexivity|].
  destruct (@sorted_types_run h c a NW) as [r [Hr Hs]].
  rewrite Hs in E. specialize (Hr _ (Nat.le_refl _)).
  destruct r as [o|stuck| |]; try discriminate.
  - unfold check_length in E.
    destruct (length (values c) =? length o); discriminate.
  - now destruct (@layers_no_attribute h _ _ _ _ _ Hr).
Qed.

(** ** The permutation property *)

(** C1: [sorted_types] does not return a permutation of every input.
    When every input object is a simple or a complex type, the outcome is
    as follows.  With the structured-content types of the input pairwise
    distinct and no wildcard among their particles, the call with
    [accept_circularity=True] returns a permutation of the input, of the
    same length, and the call with [accept_circularity=False] raises the
    circularity error when the dependency graph has a cycle and returns
    the same permutation when it has none.  With a structured-content
    type given twice the accepting call ends in the AssertionError of the
    length check, although simple and simple-content types given twice
    are kept twice.  With a wildcard among the particles of a
    structured-content type every call ends in the AttributeError of
    [e.type]. *)
Theorem sorted_types_permutation (h : heap) (c : collection) :
  (forall x, In x (values c) -> classified h x) ->
  (wildcards h (values c) = false ->
   NoDup (filter (structured h) (values c)) ->
   (exists out, sorted_types h c true = Some (Return out)
                /\ Permutation (values c) out
                /\ length out = length (values c))
   /\ (circular h (values c) ->
       exists stuck, sorted_types h c false = Some (RaiseValueError stuck))
   /\ (~ circular h (values c) ->
       sorted_types h c false = sorted_types h c true))
  /\ (wildcards h (values c) = false ->
      ~ NoDup (filter (structured h) (values c)) ->
      sorted_types h c true = Some RaiseAssertionError)
  /\ (wildcards h (values c) = true ->
      forall a, sorted_types h c a = Some RaiseAttributeError).
Proof.
  intros Hc. split; [|split].
  - intros NW Hnd. split; [|split].
    + destruct (@sorted_types_run h c true NW) as [r [Hr Hs]].
      specialize (Hr _ (Nat.le_refl _)).
      destruct (@layers_accept h _ _ _ _ r Hr) as [out ->].
      exists out. rewrite Hs.
      assert (HP : Permutation (values c) out).
      { rewrite (@buckets_perm h (values c) Hc).
        rewrite <- (working_set_distinct h (values c) Hnd). symmetry.
        exact (@run_perm h _ _ _ _ Hr). }
      rewrite (@check_length_distinct h (values c) out);
        [| exact Hc | exact Hnd | eapply layers_length; exact Hr].
      repeat split; [exact HP | symmetry; now apply Permutation_length].
    + intros Hcyc. destruct (@sorted_types_run h c false NW) as [r [Hr Hs]].
      specialize (Hr _ (Nat.le_refl _)).
      destruct (@run_circular h (values c) _ r Hcyc Hr) as [stuck ->].
      exists stuck. exact Hs.
    + intros Hac. unfold sorted_types.
      rewrite !sorted_types_fuel_layers, layers_acyclic;
        [reflexivity | exact Hac | apply incl_refl].
  - intros NW Hdup.
    destruct (@sorted_types_run h c true NW) as [r [Hr Hs]].
    specialize (Hr _ (Nat.le_refl _)).
    destruct (@layers_accept h _ _ _ _ r Hr) as [out ->].
    rewrite Hs. f_equal.
    apply (@check_length_duplicates h);
      [exact Hc | exact Hdup | eapply layers_length; exact Hr].
  - intros NW a. now apply sorted_types_wildcards.
Qed.

(** ** Duplicated structured-content types *)

(** C8, as amended: when the input holds the same structured-content
    complex type object more than once, the working dictionary has fewer
    keys than the input has structured-content types, and [sorted_types]
    never returns.  When the dependencies are collected, no
    structured-content type of the input having a wildcard among its
    particles, the call ends as follows: with [accept_circularity=True]
    the final length check fails with the assertion error; with
    [accept_circularity=False] the circularity error is raised first when
    the dependency graph has a cycle, and the assertion error
    otherwise. *)
Theorem sorted_types_duplicates (h : heap) (c : collection) :
  (forall x, In x (values c) -> classified h x) ->
  ~ NoDup (filter (structured h) (values c)) ->
  length (init_unordered h (values c))
  < length (filter (structured h) (values c))
  /\ (forall a out, sorted_types h c a <> Some (Return out))
  /\ (wildcards h (values c) = false ->
      sorted_types h c true = Some RaiseAssertionError
      /\ (circular h (values c) ->
          exists stuck, stuck <> []
                        /\ sorted_types h c false
                           = Some (RaiseValueError stuck))
      /\ (~ circular h (values c) ->
          sorted_types h c false = Some RaiseAssertionError)).
Proof.
  intros Hc Hdup.
  assert (Hany : wildcards h (values c) = false ->
                 forall a, sorted_types h c a = Some RaiseAssertionError
                           \/ exists stuck, a = false /\ stuck <> [] /\
                                sorted_types h c a
                                = Some (RaiseValueError stuck)).
  { intros NW a. destruct (@sorted_types_run h c a NW) as [r [Hr Hs]].
    specialize (Hr _ (Nat.le_refl _)). destruct r as [out|stuck| |].
    - left. rewrite Hs. f_equal.
      apply (@check_length_duplicates h);
        [exact Hc | exact Hdup | eapply layers_length; exact Hr].
    - right. exists stuck.
      destruct (@run_raise h _ _ _ _ Hr) as [Ha [Hne _]].
      auto.
    - now destruct (@layers_no_assertion h _ _ _ _ _ Hr).
    - now destruct (@layers_no_attribute h _ _ _ _ _ Hr). }
  split; [|split].
  - rewrite init_unordered_keys, length_map. now apply dedup_length_lt.
  - intros a out E.
    pose proof (@no_wildcards h c a _ E ltac:(discriminate)) as NW.
    destruct (Hany NW a) as [E'|[stuck [_ [_ E']]]];
      rewrite E' in E; discriminate.
  - intros NW.
    assert (Htrue : sorted_types h c true = Some RaiseAssertionError).
    { destruct (Hany NW true) as [E|[stuck [Ha _]]];
        [exact E | discriminate]. }
    split; [exact Htrue|split].
    + intros Hcyc. destruct (@sorted_types_run h c false NW) as [r [Hr Hs]].
      specialize (Hr _ (Nat.le_refl _)).
      destruct (@run_circular h (values c) _ r Hcyc Hr) as [stuck ->].
      exists stuck. split; [|exact Hs].
      now destruct (@run_raise h _ _ _ _ Hr) as [_ [Hne _]].
    + intros Hac. unfold sorted_types in *.
      rewrite sorted_types_fuel_layers, <- layers_acyclic,
        <- sorted_types_fuel_layers;
        [exact Htrue | exact Hac | apply incl_refl].
Qed.

(** ** Order in lists without repetition *)

Lemma filter_perm (A : Type) (p : A -> bool) (l l' : list A) :
  Permutation l l' -> Permutation (filter p l) (filter p l').
Proof.
  induction 1 as [|x l l' H IH|x y l|l l' l'' H1 IH1 H2 IH2]; cbn [filter].
  - constructor.
  - destruct (p x); [now constructor | exact IH].
  - destruct (p x), (p y); try reflexivity. constructor.
  - now transitivity (filter p l').
Qed.

Lemma split_unique (a : ref) (l1 r1 m1 r2 : list ref) :
  NoDup (l1 ++ a :: r1) -> l1 ++ a :: r1 = m1 ++ a :: r2 -> l1 = m1.
Proof.
  revert m1. induction l1 as [|x l1 IH]; intros [|y m1] Hnd E;
    cbn [app] in *.
  - reflexivity.
  - injection E as <- ->. apply NoDup_cons_iff in Hnd.
    destruct Hnd as [Hn _]. destruct Hn. apply in_or_app. right. now left.
  - injection E as -> <-. apply NoDup_cons_iff in Hnd.
    destruct Hnd as [Hn _]. destruct Hn. apply in_or_app. right. now left.
  - injection E as <- E. apply NoDup_cons_iff in Hnd.
    destruct Hnd as [_ Hnd]. f_equal. now apply IH.
Qed.

Lemma precedes_NoDup (a b : ref) (l : list ref) :
  NoDup l -> precedes a b l -> ~ precedes b a l.
Proof.
  intros Hnd [l1 [l2 [l3 E1]]] [m1 [m2 [m3 E2]]]. subst l.
  assert (E : l1 = m1 ++ b :: m2).
  { apply (@split_unique a l1 (l2 ++ b :: l3) (m1 ++ b :: m2) m3 Hnd).
    rewrite E2, <- app_assoc. reflexivity. }
  change (l1 ++ a :: l2 ++ b :: l3) with (l1 ++ (a :: l2) ++ b :: l3) in Hnd.
  rewrite app_assoc in Hnd.
  apply NoDup_remove_2 in Hnd. apply Hnd.
  rewrite E. apply in_or_app. left. apply in_or_app. left.
  apply in_or_app. right. now left.
Qed.

(** A returned sequence holds every structured-content type once. *)
Lemma returned_distinct (h : heap) (c : collection) (a : bool)
      (out : list ref) :
  (forall x, In x (values c) -> classified h x) ->
  sorted_types h c a = Some (Return out) ->
  NoDup (filter (structured h) (values c))
  /\ Permutation (values c) out.
Proof.
  intros Hc E. destruct (@sorted_types_run h c a
              (@no_wildcards h c a _ E ltac:(discriminate)))
    as [r [Hr Hs]].
  specialize (Hr _ (Nat.le_refl _)). rewrite Hs in E.
  destruct r as [o|stuck| |]; try discriminate.
  unfold check_length in E.
  destruct (Nat.eqb_spec (length (values c)) (length o)) as [EL|];
    [|discriminate].
  injection E as ->.
  pose proof (@run_perm h _ _ _ _ Hr) as HP.
  rewrite (@buckets_length h (values c) Hc) in EL.
  rewrite (Permutation_length HP), length_app in EL.
  assert (Hnd : NoDup (filter (structured h) (values c))).
  { apply (NoDup_incl_NoDup (dedup_NoDup (filter (structured h) (values c)))).
    - fold (working_set h (values c)). lia.
    - intros x. apply dedup_In. }
  split; [exact Hnd|].
  rewrite (@buckets_perm h (values c) Hc).
  rewrite <- (working_set_distinct h (values c) Hnd). now symmetry.
Qed.

(** ** Bucket ordering *)

(** C4: the returned sequence is the simple types of the input in input
    order, then the complex types with simple content in input order, then
    complex types with structured content only. *)
Theorem sorted_types_buckets (h : heap) (c : collection) (a : bool)
        (out : list ref) :
  (forall x, In x (values c) -> classified h x) ->
  sorted_types h c a = Some (Return out) ->
  exists t,
    out = filter (simple h) (values c)
          ++ filter (simple_content h) (values c) ++ t
    /\ Forall (fun x => simple h x = true
                        /\ simple_content h x = false
                        /\ structured h x = false)
              (filter (simple h) (values c))
    /\ Forall (fun x => simple h x = false
                        /\ simple_content h x = true
                        /\ structured h x = false)
              (filter (simple_content h) (values c))
    /\ Forall (fun x => simple h x = false
                        /\ simple_content h x = false
                        /\ structured h x = true) t.
Proof.
  intros Hc E. destruct (@sorted_types_run h c a
              (@no_wildcards h c a _ E ltac:(discriminate)))
    as [r [Hr Hs]].
  specialize (Hr _ (Nat.le_refl _)). rewrite Hs in E.
  destruct r as [o|stuck| |]; try discriminate.
  unfold check_length in E.
  destruct (length (values c) =? length o); [|discriminate].
  injection E as ->.
  destruct (@layers_prefix h _ _ _ _ _ _ Hr) as [t Ht].
  pose proof (@run_perm h _ _ _ _ Hr) as HP.
  rewrite Ht in HP. apply Permutation_app_inv_l in HP.
  exists t. unfold placed in Ht. rewrite <- app_assoc in Ht.
  split; [exact Ht|].
  assert (Hcases : forall x, In x (values c) ->
            (simple h x = true -> simple_content h x = false
                                  /\ structured h x = false)
            /\ (simple_content h x = true -> simple h x = false
                                             /\ structured h x = false)
            /\ (structured h x = true -> simple h x = false
                                         /\ simple_content h x = false)).
  { intros x Hx. specialize (Hc x Hx).
    unfold classified, simple, simple_content, structured in *.
    rewrite Hc.
    destruct (is_simple (h x)), (has_simple_content (h x)); cbn;
      repeat split; congruence. }
  repeat split; apply Forall_forall; intros x Hx.
  - apply filter_In in Hx. destruct Hx as [Hin Hs'].
    destruct (Hcases x Hin) as [H1 _]. destruct (H1 Hs'). auto.
  - apply filter_In in Hx. destruct Hx as [Hin Hs'].
    destruct (Hcases x Hin) as [_ [H2 _]]. destruct (H2 Hs'). auto.
  - assert (Hw : In x (working_set h (values c)))
      by (eapply Permutation_in; eauto).
    apply working_set_In in Hw. destruct Hw as [Hin Hs'].
    destruct (Hcases x Hin) as [_ [_ H3]]. destruct (H3 Hs'). auto.
Qed.

(** ** Dependency ordering *)

(** C3: when the dependency graph has no cycle, a structured-content
    complex type [A] of the input is returned after every
    structured-content complex type [B] of the input that is the type of
    one of its child elements; [B] is strictly before [A], since on
    classified inputs [A] is nowhere before [B]. *)
Theorem sorted_types_dependency_order (h : heap) (c : collection) (a : bool)
        (out : list ref) (A B : ref) :
  ~ circular h (values c) ->
  sorted_types h c a = Some (Return out) ->
  In A (values c) -> structured h A = true ->
  In B (values c) -> structured h B = true ->
  In B (element_types (h A)) ->
  precedes B A out
  /\ ((forall x, In x (values c) -> classified h x) -> ~ precedes A B out).
Proof.
  intros Hac E HA HsA HB HsB HBA.
  assert (HP : precedes B A out).
  { destruct (@sorted_types_run h c a
              (@no_wildcards h c a _ E ltac:(discriminate)))
    as [r [Hr Hs]].
    specialize (Hr _ (Nat.le_refl _)). rewrite Hs in E.
    destruct r as [o|stuck| |]; try discriminate.
    unfold check_length in E.
    destruct (length (values c) =? length o); [|discriminate].
    injection E as ->.
    assert (Hr' : layers h (values c) (length (values c)) false
                         (working_set h (values c)) (placed h (values c))
                  = Some (Return out)).
    { destruct a; [|exact Hr].
      rewrite <- layers_acyclic; [exact Hr | exact Hac | apply incl_refl]. }
    apply (@layers_order h (values c) _ _ _ out (@working_set_incl h _) Hr').
    - apply working_set_In. auto.
    - exact HBA.
    - right. apply working_set_In. auto. }
  split; [exact HP|].
  intros Hc HAB. destruct (@returned_distinct h c a out Hc E) as [Hnd Hperm].
  apply (@precedes_NoDup B A (filter (structured h) out)).
  - apply (Permutation_NoDup (@filter_perm _ (structured h) _ _ Hperm) Hnd).
  - now apply precedes_filter.
  - now apply precedes_filter.
Qed.

(** ** Each pass on the dictionary *)

Lemma find_In_keys (x : ref) (u : Dict.t) (l : list ref) :
  Dict.find x u = Some l -> In x (Dict.keys u).
Proof.
  induction u as [|[k v] u IH]; cbn [Dict.find Dict.keys map fst];
    [discriminate|].
  destruct (Nat.eqb_spec k x) as [->|N]; [now left | right; now apply IH].
Qed.

Lemma del_length (x : ref) (u : Dict.t) :
  In x (Dict.keys u) -> length (Dict.del x u) < length u.
Proof.
  unfold Dict.del.
  induction u as [|[k v] u IH]; cbn [Dict.keys map fst filter length In];
    [tauto|].
  destruct (Nat.eqb_spec k x) as [->|N]; cbn [negb length].
  - intros _. apply Nat.lt_succ_r, filter_length_le.
  - intros [E|Hx]; [congruence|]. apply -> Nat.succ_lt_mono. now apply IH.
Qed.

Lemma del_keys (x : ref) (u : Dict.t) :
  incl (Dict.keys (Dict.del x u)) (Dict.keys u).
Proof.
  unfold Dict.keys, Dict.del. apply incl_map, incl_filter.
Qed.

Lemma visit_measure (st : pass_state) (x : ref) :
  visit st x = st
  \/ (length (unordered (visit st x)) < length (unordered st)
      /\ deleted (visit st x) = S (deleted st)
      /\ incl (Dict.keys (unordered (visit st x))) (Dict.keys (unordered st))).
Proof.
  unfold visit. destruct (Dict.find x (unordered st)) as [[|y l]|] eqn:E;
    auto.
  right. cbn [unordered deleted]. repeat split.
  - eapply del_length, find_In_keys; eauto.
  - apply del_keys.
Qed.

Lemma fold_visit_measure (l : list ref) : forall st : pass_state,
  length (unordered (fold_left visit l st)) + deleted (fold_left visit l st)
  <= length (unordered st) + deleted st
  /\ deleted st <= deleted (fold_left visit l st)
  /\ incl (Dict.keys (unordered (fold_left visit l st)))
          (Dict.keys (unordered st))
  /\ (deleted (fold_left visit l st) = deleted st ->
      fold_left visit l st = st).
Proof.
  induction l as [|x l IH]; intros st; cbn [fold_left].
  - repeat split; auto. apply incl_refl.
  - destruct (IH (visit st x)) as [H1 [H2 [H3 H4]]].
    destruct (visit_measure st x) as [E|[L [D I]]].
    + rewrite E in *. auto.
    + repeat split; try lia. eapply incl_tran; eauto.
Qed.

Lemma prune_keys (u : Dict.t) : Dict.keys (prune u) = Dict.keys u.
Proof.
  unfold prune. generalize (Dict.keys u) at 1 as L. intros L. revert u.
  induction L as [|x L IH]; intros u; cbn [fold_left]; [reflexivity|].
  now rewrite IH, keys_update.
Qed.

Lemma keys_length (u : Dict.t) : length (Dict.keys u) = length u.
Proof. apply length_map. Qed.

(** A pass never adds a key, and deletes as many as it counts or more. *)
Lemma pass_measure (xs : list ref) (u : Dict.t) (o : list ref) :
  length (unordered (pass xs u o)) + deleted (pass xs u o) <= length u
  /\ incl (Dict.keys (unordered (pass xs u o))) (Dict.keys u).
Proof.
  unfold pass. cbn [unordered deleted].
  destruct (fold_visit_measure xs (mkPass u o 0)) as [H1 [_ [H3 _]]].
  cbn [unordered deleted] in *.
  rewrite <- keys_length, prune_keys, keys_length. split; [lia | exact H3].
Qed.

(** A pass that deletes nothing changes neither the keys nor
    [ordered_types]. *)
Lemma pass_stuck (xs : list ref) (u : Dict.t) (o : list ref) :
  deleted (pass xs u o) = 0 ->
  Dict.keys (unordered (pass xs u o)) = Dict.keys u
  /\ ordered_types (pass xs u o) = o.
Proof.
  unfold pass. cbn [unordered deleted ordered_types]. intros E.
  destruct (fold_visit_measure xs (mkPass u o 0)) as [_ [_ [_ H4]]].
  rewrite (H4 E), prune_keys. cbn [unordered ordered_types]. auto.
Qed.

Lemma resolve_step (fuel : nat) (a : bool) (xs : list ref)
      (u : Dict.t) (o : list ref) :
  u <> [] ->
  resolve (S fuel) a xs u o
  = if deleted (pass xs u o) =? 0 then
      Some (if a
            then Return (ordered_types (pass xs u o)
                         ++ Dict.keys (unordered (pass xs u o)))
            else RaiseValueError (Dict.keys (unordered (pass xs u o))))
    else resolve fuel a xs (unordered (pass xs u o))
                 (ordered_types (pass xs u o)).
Proof.
  intros Hu. destruct u as [|p u]; [congruence|].
  cbn [resolve]. destruct (deleted (pass xs (p :: u) o) =? 0);
    [now destruct a | reflexivity].
Qed.

(** ** Termination *)

(** C10: [sorted_types] ends on every input, with a result that no
    further fuel changes; each pass of the loop leaves no more keys than
    it found, deletes at least as many keys as it counts, and is the last
    one (circularity error, or residue appended) when it counts none. *)
Theorem sorted_types_terminates (h : heap) (c : collection) (a : bool) :
  (exists r, sorted_types h c a = Some r
             /\ forall fuel, length (values c) <= fuel ->
                             sorted_types_fuel h fuel c a = Some r)
  /\ forall (u : Dict.t) (o : list ref),
       length (unordered (pass (values c) u o))
       + deleted (pass (values c) u o) <= length u
       /\ incl (Dict.keys (unordered (pass (values c) u o))) (Dict.keys u)
       /\ forall fuel, u <> [] ->
            resolve (S fuel) a (values c) u o
            = if deleted (pass (values c) u o) =? 0 then
                Some (if a
                      then Return
                             (ordered_types (pass (values c) u o)
                              ++ Dict.keys (unordered (pass (values c) u o)))
                      else RaiseValueError
                             (Dict.keys (unordered (pass (values c) u o))))
              else resolve fuel a (values c)
                           (unordered (pass (values c) u o))
                           (ordered_types (pass (values c) u o)).
Proof.
  split.
  - destruct (wildcards h (values c)) eqn:NW.
    + exists RaiseAttributeError.
      split; [now apply sorted_types_wildcards|].
      intros fuel Hle. now rewrite sorted_types_fuel_layers, NW.
    + destruct (@sorted_types_run h c a NW) as [r [Hr Hs]].
      eexists. split; [exact Hs|].
      intros fuel Hle.
      rewrite sorted_types_fuel_layers, NW, (Hr fuel Hle).
      now destruct r.
  - intros u o. destruct (pass_measure (values c) u o) as [H1 H2].
    repeat split; auto. intros fuel Hu. now apply resolve_step.
Qed.

(** ** The circularity policy *)

Lemma raise_inversion (h : heap) (c : collection) (a : bool)
      (stuck : list ref) :
  sorted_types h c a = Some (RaiseValueError stuck) ->
  forall fuel, length (values c) <= fuel ->
    layers h (values c) fuel a (working_set h (values c))
           (placed h (values c)) = Some (RaiseValueError stuck).
Proof.
  intros E. destruct (@sorted_types_run h c a
              (@no_wildcards h c a _ E ltac:(discriminate)))
    as [r [Hr Hs]].
  rewrite Hs in E. destruct r as [o|s| |]; try discriminate.
  - unfold check_length in E.
    destruct (length (values c) =? length o); discriminate.
  - injection E as ->. exact Hr.
Qed.

Lemma stuck_in_working_set (h : heap) (xs stuck : list ref) :
  stuck = filter (fun x => memb x stuck) (working_set h xs) ->
  incl stuck (working_set h xs).
Proof.
  intros E x Hx. rewrite E in Hx. now apply filter_In in Hx.
Qed.

(** Two structured-content types that refer to each other, alone. *)
Lemma two_cycle (h : heap) (c : collection) (a : bool) (A B : ref) :
  values c = [A; B] -> A <> B ->
  is_simple (h A) = false -> structured h A = true ->
  is_simple (h B) = false -> structured h B = true ->
  In B (element_types (h A)) -> In A (element_types (h B)) ->
  sorted_types h c a
  = Some (if has_wildcard (h A) || has_wildcard (h B)
          then RaiseAttributeError
          else if a then Return [A; B] else RaiseValueError [A; B]).
Proof.
  intros Hv HAB HmA HsA HmB HsB HBA HABel.
  unfold sorted_types. rewrite sorted_types_fuel_layers, Hv.
  assert (HW : working_set h [A; B] = [A; B]).
  { unfold working_set. cbn [filter]. rewrite HsA, HsB. cbn [dedup filter].
    destruct (Nat.eqb_spec B A) as [E|_]; [now destruct HAB|reflexivity]. }
  unfold wildcards. rewrite HW. cbn [existsb]. rewrite orb_false_r.
  destruct (has_wildcard (h A) || has_wildcard (h B)); [reflexivity|].
  assert (HP : placed h [A; B] = []).
  { unfold placed, simple, simple_content. cbn [filter].
    unfold structured in HsA, HsB.
    apply andb_true_iff in HsA, HsB.
    destruct HsA as [HcA HnA], HsB as [HcB HnB].
    apply negb_true_iff in HnA, HnB.
    now rewrite HmA, HmB, HcA, HcB, HnA, HnB. }
  assert (EL : layer h [A; B] [A; B] = []).
  { apply filter_none. intros x Hx. rewrite dedup_In in Hx.
    apply andb_false_iff. right. apply ready_false.
    cbn [In] in Hx. destruct Hx as [<-|[<-|[]]].
    - exists B. split; [exact HBA | right; now left].
    - exists A. split; [exact HABel | now left]. }
  rewrite HP, layers_stuck by (congruence || exact EL).
  rewrite EL, (@stuck_rest h [A; B] [A; B] (incl_refl _) EL).
  now destruct a.
Qed.

(** C2: a pass that deletes nothing is the last one; without
    [accept_circularity] the sort fails with the circularity error naming
    the keys still in [unordered], in their order, and with it those keys
    are appended in that order and the loop is left.  The error is raised
    exactly when no structured-content type of the input has a wildcard
    among its particles and the dependency graph has a cycle, and every
    type it names depends on a type it names.  For two distinct
    structured-content types [A] and [B] alone, each referring to the
    other, the error names [A; B] and the accepting sort returns [A; B]
    when neither has a wildcard among its particles; when one of them
    has, both calls end in the AttributeError of [e.type], before the
    loop. *)
Theorem circularity_policy (h : heap) (c : collection) :
  (forall (a : bool) (fuel : nat) (u : Dict.t) (o : list ref),
      u <> [] -> deleted (pass (values c) u o) = 0 ->
      Dict.keys (unordered (pass (values c) u o)) = Dict.keys u
      /\ ordered_types (pass (values c) u o) = o
      /\ resolve (S fuel) a (values c) u o
         = Some (if a then Return (o ++ Dict.keys u)
                 else RaiseValueError (Dict.keys u)))
  /\ (forall stuck,
         sorted_types h c false = Some (RaiseValueError stuck) ->
         stuck <> []
         /\ stuck = filter (fun x => memb x stuck)
                           (working_set h (values c))
         /\ (forall x, In x stuck ->
                       exists y, In y stuck /\ depends h (values c) x y)
         /\ ((forall x, In x (values c) -> classified h x) ->
             NoDup (filter (structured h) (values c)) ->
             exists pre,
               sorted_types h c true = Some (Return (pre ++ stuck))))
  /\ (wildcards h (values c) = false /\ circular h (values c) <->
      exists stuck, sorted_types h c false = Some (RaiseValueError stuck))
  /\ (forall A B,
         values c = [A; B] -> A <> B ->
         is_simple (h A) = false -> structured h A = true ->
         is_simple (h B) = false -> structured h B = true ->
         In B (element_types (h A)) -> In A (element_types (h B)) ->
         (has_wildcard (h A) = false -> has_wildcard (h B) = false ->
          sorted_types h c false = Some (RaiseValueError [A; B])
          /\ sorted_types h c true = Some (Return [A; B]))
         /\ (has_wildcard (h A) = true \/ has_wildcard (h B) = true ->
             forall a, sorted_types h c a = Some RaiseAttributeError)).
Proof.
  assert (Hraise : forall stuck,
            sorted_types h c false = Some (RaiseValueError stuck) ->
            stuck <> []
            /\ stuck = filter (fun x => memb x stuck)
                              (working_set h (values c))
            /\ (forall x, In x stuck ->
                          exists y, In y stuck /\ depends h (values c) x y)).
  { intros stuck E.
    pose proof (@raise_inversion h c false stuck E _ (Nat.le_refl _)) as Hr.
    destruct (@run_raise h _ _ _ _ Hr) as [_ [Hne [Hord Hdep]]].
    repeat split; auto. intros x Hx.
    destruct (Hdep x Hx) as [y [Hy Hys]]. exists y.
    pose proof (@stuck_in_working_set h _ _ Hord) as Hin.
    repeat split; auto. }
  split; [|split; [|split]].
  - intros a fuel u o Hu Hd. destruct (@pass_stuck _ _ _ Hd) as [Hk Ho].
    rewrite resolve_step, Hd, Hk, Ho by exact Hu. auto.
  - intros stuck E. destruct (Hraise stuck E) as [Hne [Hord Hdep]].
    repeat split; auto. intros Hc Hnd.
    pose proof (@raise_inversion h c false stuck E _ (Nat.le_refl _)) as Hr.
    pose proof (@no_wildcards h c false _ E ltac:(discriminate)) as NW.
    destruct (@layers_flag h _ _ _ _ _ Hr) as [pre Ht]. exists pre.
    unfold sorted_types. rewrite sorted_types_fuel_layers, NW.
    rewrite (@layers_fuel h _ _ _ _ _ _ Ht (S (length (values c)))) by lia.
    f_equal. apply (@check_length_distinct h); auto.
    eapply layers_length; eauto.
  - split.
    + intros [NW Hcyc].
      destruct (@sorted_types_run h c false NW) as [r [Hr Hs]].
      specialize (Hr _ (Nat.le_refl _)).
      destruct (@run_circular h (values c) _ r Hcyc Hr) as [stuck ->].
      now exists stuck.
    + intros [stuck E]. destruct (Hraise stuck E) as [Hne [_ Hdep]].
      split; [exact (@no_wildcards h c false _ E ltac:(discriminate))|].
      now apply (@closed_set_cycle (depends h (values c)) stuck).
  - intros A B Hv HAB HmA HsA HmB HsB HBA HABel. split.
    + intros WA WB.
      rewrite !(@two_cycle h c _ A B Hv HAB HmA HsA HmB HsB HBA HABel).
      now rewrite WA, WB.
    + intros W a.
      rewrite (@two_cycle h c a A B Hv HAB HmA HsA HmB HsB HBA HABel).
      now destruct W as [-> | ->]; [|rewrite orb_true_r].
Qed.

(** ** Passes and dependency depth *)

Section Depth.

Variable h : heap.
Variable xsd_types : list ref.

Local Notation "'W'" := (working_set h xsd_types).

Lemma height_le_S (n : nat) : forall x,
  height_le h W n x = true -> height_le h W (S n) x = true.
Proof.
  induction n as [|n IH]; intros x; cbn [height_le];
    rewrite !forallb_forall; intros H y Hy; specialize (H y Hy).
  - now rewrite H.
  - apply orb_true_iff in H. apply orb_true_iff.
    destruct H as [H|H]; [now left | right; now apply IH].
Qed.

Lemma height_le_mono (n m : nat) (x : ref) :
  n <= m -> height_le h W n x = true -> height_le h W m x = true.
Proof.
  induction 1 as [|m Hle IH]; [auto|]. intros H. now apply height_le_S, IH.
Qed.

Lemma remaining_In (n : nat) (x : ref) :
  In x (remaining h xsd_types n)
  <-> In x W /\ match n with
                | 0 => True
                | S m => height_le h W m x = false
                end.
Proof.
  unfold remaining. rewrite filter_In, negb_true_iff.
  destruct n; intuition.
Qed.

Lemma remaining_incl (n : nat) : incl (remaining h xsd_types n) xsd_types.
Proof.
  intros x Hx. apply remaining_In in Hx.
  now apply (@working_set_incl h xsd_types).
Qed.

(** A key is ready at pass [n] when its height is at most [n]. *)
Lemma ready_remaining (n : nat) (x : ref) :
  ready h (remaining h xsd_types n) x = height_le h W n x.
Proof.
  apply eq_true_iff_eq. rewrite ready_true. split.
  - intros H. destruct n as [|n]; cbn [height_le]; apply forallb_forall;
      intros y Hy; specialize (H y Hy); rewrite remaining_In in H.
    + apply negb_true_iff, memb_not_In. tauto.
    + apply orb_true_iff.
      destruct (memb y W) eqn:M; [right | now left].
      apply memb_In in M.
      destruct (height_le h W n y); [reflexivity | tauto].
  - intros H y Hy HK. apply remaining_In in HK. destruct HK as [HW Hn].
    apply memb_In in HW.
    destruct n as [|n]; cbn [height_le] in H;
      rewrite forallb_forall in H; specialize (H y Hy).
    + now rewrite HW in H.
    + rewrite HW, Hn in H. discriminate.
Qed.

Lemma rest_remaining (n : nat) :
  rest h (remaining h xsd_types n) = remaining h xsd_types (S n).
Proof.
  unfold rest.
  rewrite (filter_ext _ (fun x => negb (height_le h W n x)))
    by (intros x; now rewrite ready_remaining).
  unfold remaining at 1. rewrite filter_and.
  apply filter_ext. intros x. destruct n as [|n]; [reflexivity|].
  cbv beta iota.
  destruct (height_le h W n x) eqn:E; [|reflexivity].
  now rewrite (height_le_S _ _ E).
Qed.

Lemma remaining_0 : remaining h xsd_types 0 = W.
Proof. apply filter_all. reflexivity. Qed.

Lemma together_remaining (n : nat) (x y : ref) :
  In x W -> together h xsd_types n x y -> In x (remaining h xsd_types n).
Proof.
  intros Hx Ht. apply remaining_In. split; [exact Hx|].
  destruct n as [|n]; [exact I|].
  destruct Ht as [[m [Hle [[_ Hd] _]]]|[Hu _]]; [|apply Hu].
  destruct m as [|m]; [lia|].
  destruct (height_le h W n x) eqn:E; [|reflexivity].
  rewrite (@height_le_mono n m x) in Hd; [discriminate | lia | exact E].
Qed.

Lemma together_sym (n : nat) (x y : ref) :
  together h xsd_types n x y -> together h xsd_types n y x.
Proof.
  intros [[m [Hle [Hx Hy]]]|[Hx Hy]]; [left; exists m; auto | right; auto].
Qed.

Lemma precedes_remaining (n : nat) (x y : ref) :
  NoDup (filter (structured h) xsd_types) ->
  In x (remaining h xsd_types n) -> In y (remaining h xsd_types n) ->
  precedes x y xsd_types -> precedes x y (remaining h xsd_types n).
Proof.
  intros Hnd Hx Hy HP. unfold remaining in *.
  apply filter_In in Hx, Hy. destruct Hx as [Hx Hqx], Hy as [Hy Hqy].
  apply precedes_filter; [exact Hqx | exact Hqy |].
  rewrite working_set_distinct in * by exact Hnd.
  apply filter_In in Hx, Hy.
  apply precedes_filter; tauto.
Qed.

Lemma precedes_layer (K : list ref) (x y : ref) :
  NoDup (filter (structured h) xsd_types) -> incl K W ->
  In x (layer h xsd_types K) -> In y (layer h xsd_types K) ->
  precedes x y xsd_types -> precedes x y (layer h xsd_types K).
Proof.
  intros Hnd HK Hx Hy HP. unfold layer in *.
  assert (E : filter (fun x => memb x K && ready h K x) (dedup xsd_types)
              = filter (fun x => memb x K && ready h K x) xsd_types).
  { rewrite filter_dedup. apply dedup_id.
    rewrite (filter_ext_in _ (fun x => structured h x
                                       && (memb x K && ready h K x))).
    - rewrite <- filter_and. now apply NoDup_filter.
    - intros z Hz. destruct (memb z K) eqn:M; [|now rewrite andb_false_r].
      apply memb_In, HK, working_set_In in M. destruct M as [_ ->].
      reflexivity. }
  rewrite E in *. apply filter_In in Hx, Hy.
  apply precedes_filter; tauto.
Qed.

(** Types that leave the working set together keep their input order. *)
Lemma layers_together (a : bool) (fuel : nat) :
  forall (n : nat) (o out : list ref),
    NoDup (filter (structured h) xsd_types) ->
    layers h xsd_types fuel a (remaining h xsd_types n) o
    = Some (Return out) ->
    forall x y, In x W -> In y W -> together h xsd_types n x y ->
                precedes x y xsd_types -> precedes x y out.
Proof.
  induction fuel as [|fuel IH]; intros n o out Hnd E x y Hx Hy Ht HP;
    pose proof (together_remaining Hx Ht) as Rx;
    pose proof (together_remaining Hy (together_sym Ht)) as Ry.
  - destruct (remaining h xsd_types n); [destruct Rx | discriminate].
  - assert (NE : remaining h xsd_types n <> [])
      by (intros F; rewrite F in Rx; destruct Rx).
    destruct (layer h xsd_types (remaining h xsd_types n)) as [|z l] eqn:EL.
    + rewrite layers_stuck in E by assumption.
      destruct a; [|discriminate]. injection E as <-.
      rewrite (@stuck_rest h xsd_types _ (remaining_incl n) EL).
      rewrite <- (app_nil_r (remaining h xsd_types n)).
      apply precedes_extend. now apply precedes_remaining.
    + assert (NL : layer h xsd_types (remaining h xsd_types n) <> [])
        by congruence.
      rewrite layers_step, rest_remaining in E by exact NL.
      destruct Ht as [[m [Hle [Dx Dy]]]|Hu].
      * destruct (Nat.eq_dec n m) as [->|Hnm].
        -- destruct (@layers_prefix h _ _ _ _ _ _ E) as [t ->].
           rewrite <- app_assoc. apply precedes_extend.
           apply precedes_layer; auto.
           ++ intros w Hw. now apply remaining_In in Hw.
           ++ apply layer_In; [apply remaining_incl|].
              rewrite ready_remaining. split; [exact Rx | apply Dx].
           ++ apply layer_In; [apply remaining_incl|].
              rewrite ready_remaining. split; [exact Ry | apply Dy].
        -- apply (IH (S n) _ _ Hnd E x y Hx Hy); [|exact HP].
           left. exists m. repeat split; try apply Dx; try apply Dy. lia.
      * apply (IH (S n) _ _ Hnd E x y Hx Hy); [|exact HP]. now right.
Qed.

End Depth.

(** ** Relative input order *)

(** C6, as amended: two types keep their relative input order in the
    returned sequence when both are simple types, or both complex types
    with simple content, or both structured-content complex types whose
    longest dependency chains in the input have the same length (they
    leave the working set in the same pass) or which both stay unresolved
    in an accepted circular residue. *)
Theorem sorted_types_relative_order (h : heap) (c : collection) (a : bool)
        (out : list ref) (x y : ref) :
  (forall z, In z (values c) -> classified h z) ->
  sorted_types h c a = Some (Return out) ->
  precedes x y (values c) ->
  (simple h x = true /\ simple h y = true)
  \/ (simple_content h x = true /\ simple_content h y = true)
  \/ (structured h x = true /\ structured h y = true
      /\ ((exists n, depth h (values c) n x /\ depth h (values c) n y)
          \/ (unresolvable h (values c) x /\ unresolvable h (values c) y)))
  ->
  precedes x y out.
Proof.
  intros Hc E HP Hcase.
  destruct (@returned_distinct h c a out Hc E) as [Hnd _].
  destruct (@sorted_types_run h c a
              (@no_wildcards h c a _ E ltac:(discriminate)))
    as [r [Hr Hs]].
  specialize (Hr _ (Nat.le_refl _)). rewrite Hs in E.
  destruct r as [o|stuck| |]; try discriminate.
  unfold check_length in E.
  destruct (length (values c) =? length o); [|discriminate].
  injection E as ->.
  destruct (@layers_prefix h _ _ _ _ _ _ Hr) as [t Ht].
  unfold placed in Ht.
  destruct Hcase as [[Hx Hy]|[[Hx Hy]|[Hx [Hy Ht']]]].
  - rewrite Ht, <- app_assoc.
    apply (@precedes_extend x y _ []). now apply precedes_filter.
  - rewrite Ht, <- app_assoc.
    apply precedes_extend. now apply precedes_filter.
  - rewrite <- (remaining_0 h (values c)) in Hr.
    assert (Hin : In x (values c) /\ In y (values c)).
    { destruct HP as [l1 [l2 [l3 ->]]]. split.
      - apply in_or_app. right. now left.
      - apply in_or_app. right. right. apply in_or_app. right. now left. }
    apply (@layers_together h (values c) a _ 0 _ out Hnd Hr x y).
    + apply working_set_In. tauto.
    + apply working_set_In. tauto.
    + destruct Ht' as [[n [Dx Dy]]|Hu]; [left | now right].
      exists n. repeat split; try apply Dx; try apply Dy. lia.
    + exact HP.
Qed.

(** A returned sequence shows that the dependency graph has no cycle. *)
Lemma returned_acyclic (h : heap) (c : collection) (out : list ref) :
  sorted_types h c false = Some (Return out) -> ~ circular h (values c).
Proof.
  intros E Hcyc.
  destruct (@sorted_types_run h c false
              (@no_wildcards h c false _ E ltac:(discriminate)))
    as [r [Hr Hs]].
  specialize (Hr _ (Nat.le_refl _)).
  destruct (@run_circular h (values c) _ r Hcyc Hr) as [stuck ->].
  rewrite Hs in E. discriminate.
Qed.

(** ** The sorter on the example schema *)

Ltac in_cases H :=
  repeat (destruct H as [<-|H]; [try reflexivity|]); try destruct H.

Ltac no_dup :=
  repeat (apply NoDup_cons;
          [cbn [In]; intros F;
           repeat (destruct F as [F|F]; [discriminate F|]); destruct F|]);
  apply NoDup_nil.

Lemma sorted_types_permutation_witness :
  sorted_types example_heap (Sequence [1; 1]) true
  = Some RaiseAssertionError
  /\ sorted_types example_heap (Sequence [3; 3; 4; 4]) true
     = Some (Return [3; 3; 4; 4])
  /\ (forall a,
        sorted_types any_heap (Sequence [0; 2]) a
        = Some RaiseAttributeError)
  /\ exists out,
       sorted_types example_heap (Sequence [3; 6; 7; 1]) true
       = Some (Return out)
       /\ Permutation [3; 6; 7; 1] out
       /\ length out = 4.
Proof.
  split; [|split; [reflexivity|split]].
  - refine (proj1 (proj2 (@sorted_types_permutation example_heap
                            (Sequence [1; 1]) _)) eq_refl _).
    + intros x H. cbn [values In] in H. in_cases H.
    + cbv. intros F. inversion F as [|x l Hn _]. apply Hn. now left.
  - refine (proj2 (proj2 (@sorted_types_permutation any_heap
                            (Sequence [0; 2]) _)) eq_refl).
    intros x H. cbn [values In] in H. in_cases H.
  - refine (proj1 (proj1 (@sorted_types_permutation example_heap
                            (Sequence [3; 6; 7; 1]) _) eq_refl _)).
    + intros x H. cbn [values In] in H. in_cases H.
    + cbv. no_dup.
Defined.

Lemma sorted_types_duplicates_witness :
  sorted_types example_heap (Sequence [1; 0; 1]) true
  = Some RaiseAssertionError.
Proof.
  refine (proj1 (proj2 (proj2 (@sorted_types_duplicates example_heap
                                 (Sequence [1; 0; 1]) _ _)) eq_refl)).
  - intros x H. cbn [values In] in H. in_cases H.
  - cbv. intros F. inversion F as [|x l Hn _]. apply Hn. right. now left.
Defined.

(** C8 fails when the duplicated type is on a cycle and circularity is
    not accepted: the circularity error comes before the length check. *)
Lemma sorted_types_duplicates_counterexample :
  sorted_types example_heap (Sequence [5; 5]) false
  = Some (RaiseValueError [5])
  /\ sorted_types example_heap (Sequence [5; 5]) false
     <> Some RaiseAssertionError.
Proof.
  split; [reflexivity | discriminate].
Qed.

Lemma sorted_types_buckets_witness :
  exists t,
    [3; 4; 1; 2; 0]
    = filter (simple example_heap) [0; 4; 1; 3; 2]
      ++ filter (simple_content example_heap) [0; 4; 1; 3; 2] ++ t
    /\ Forall (fun x => simple example_heap x = false
                        /\ simple_content example_heap x = false
                        /\ structured example_heap x = true) t.
Proof.
  destruct (@sorted_types_buckets example_heap (Sequence [0; 4; 1; 3; 2])
              false [3; 4; 1; 2; 0]) as [t [E [_ [_ F]]]].
  - intros x H. cbn [values In] in H. in_cases H.
  - reflexivity.
  - exists t. split; [exact E | exact F].
Defined.

Lemma sorted_types_dependency_order_witness :
  precedes 2 0 [3; 4; 1; 2; 0].
Proof.
  refine (proj1 (@sorted_types_dependency_order example_heap
                   (Sequence [0; 4; 1; 3; 2]) false
                   [3; 4; 1; 2; 0] 0 2 _ _ _ _ _ _ _)).
  - apply (@returned_acyclic example_heap (Sequence [0; 4; 1; 3; 2])
                             [3; 4; 1; 2; 0]).
    reflexivity.
  - reflexivity.
  - cbn. tauto.
  - reflexivity.
  - cbn. tauto.
  - reflexivity.
  - cbn. tauto.
Defined.

Lemma sorted_types_terminates_witness :
  exists r,
    sorted_types example_heap (Sequence [6; 0; 7]) false = Some r
    /\ sorted_types_fuel example_heap 10 (Sequence [6; 0; 7]) false = Some r.
Proof.
  destruct (@sorted_types_terminates example_heap (Sequence [6; 0; 7]) false)
    as [[r [E F]] _].
  exists r. split; [exact E|]. apply F. cbn. lia.
Defined.

Lemma circularity_policy_witness :
  (sorted_types example_heap (Sequence [6; 7]) false
   = Some (RaiseValueError [6; 7])
   /\ sorted_types example_heap (Sequence [6; 7]) true
      = Some (Return [6; 7]))
  /\ (forall a,
        sorted_types any_heap (Sequence [0; 1]) a
        = Some RaiseAttributeError).
Proof.
  split.
  - refine (proj1 (proj2 (proj2 (proj2 (@circularity_policy example_heap
                                          (Sequence [6; 7]))))
                         6 7 _ _ _ _ _ _ _ _) eq_refl eq_refl).
    + reflexivity.
    + discriminate.
    + reflexivity.
    + reflexivity.
    + reflexivity.
    + reflexivity.
    + cbn. tauto.
    + cbn. tauto.
  - refine (proj2 (proj2 (proj2 (proj2 (@circularity_policy any_heap
                                          (Sequence [0; 1]))))
                         0 1 _ _ _ _ _ _ _ _) (or_introl eq_refl)).
    + reflexivity.
    + discriminate.
    + reflexivity.
    + reflexivity.
    + reflexivity.
    + reflexivity.
    + cbn. tauto.
    + cbn. tauto.
Defined.

Lemma sorted_types_relative_order_witness :
  precedes 1 2 [1; 2; 0].
Proof.
  refine (@sorted_types_relative_order example_heap (Sequence [0; 1; 2])
            false [1; 2; 0] 1 2 _ _ _ _).
  - intros x H. cbn [values In] in H. in_cases H.
  - reflexivity.
  - exists [0], [], []. reflexivity.
  - right. right. split; [reflexivity|]. split; [reflexivity|].
    left. exists 0. split; split; (reflexivity || exact I).
Defined.

(** C6 fails on the input [0; 1; 2]: [0] depends on [2], and [1] on
    nothing; [0] and [1] have no dependency on each other, yet [1] is
    returned before [0]. *)
Lemma sorted_types_relative_order_counterexample :
  sorted_types example_heap (Sequence [0; 1; 2]) false
  = Some (Return [1; 2; 0])
  /\ precedes 0 1 (values (Sequence [0; 1; 2]))
  /\ ~ clos_trans ref (depends example_heap [0; 1; 2]) 0 1
  /\ ~ clos_trans ref (depends example_heap [0; 1; 2]) 1 0
  /\ ~ precedes 0 1 [1; 2; 0].
Proof.
  split; [reflexivity|]. split; [exists [], [], [2]; reflexivity|].
  split; [|split].
  - intros H. apply clos_trans_tn1 in H.
    assert (L : exists z, depends example_heap [0; 1; 2] z 1)
      by (inversion H; subst; eauto).
    destruct L as [z [Hz [_ H1]]]. cbv in Hz.
    in_cases Hz; cbv in H1; intuition discriminate.
  - intros H. destruct (first_step H) as [y [[_ [_ Hy]] _]]. exact Hy.
  - apply precedes_NoDup; [no_dup|]. exists [], [2], []. reflexivity.
Qed.

(** ** The fallback chain of [map_type] *)

Lemma getitem_cases (m : types_map) (k : option string) :
  (exists v, getitem m k = Ok v) \/ getitem m k = Raise KeyError.
Proof.
  unfold getitem. destruct k as [s|]; [|now right].
  destruct (lookup m s) as [v|]; [left; now exists v | now right].
Qed.

(** C5: [map_type] gives the empty string for an object that is no XSD
    type, attribute or element, and treats an attribute or an element as
    its type.  For a type it returns the entry of the type's name.  On a
    miss, when the type has a base type, it returns the entry of the base
    type's name, whatever the base type derives from, and on a second
    miss the entry of [anyType] for a complex type and of [anySimpleType]
    otherwise.  On a miss for a type that has no base type it does not
    reach these entries: it ends in an AttributeError. *)
Theorem map_type_fallback_chain (q : string -> string) (h : heap)
        (m : types_map) :
  map_type q h m OtherObject = Ok EmptyString
  /\ (forall t, map_type q h m (XsdAttributeObject t)
                = map_type q h m (XsdTypeObject t)
                /\ map_type q h m (XsdElementObject t)
                   = map_type q h m (XsdTypeObject t))
  /\ forall t,
       (forall v, getitem m (name (h t)) = Ok v ->
                  map_type q h m (XsdTypeObject t) = Ok v)
       /\ (getitem m (name (h t)) = Raise KeyError ->
           (forall b, base_type (h t) = Some b ->
              (forall v, getitem m (name (h b)) = Ok v ->
                         map_type q h m (XsdTypeObject t) = Ok v)
              /\ (getitem m (name (h b)) = Raise KeyError ->
                  map_type q h m (XsdTypeObject t)
                  = getitem m (Some (q (if is_complex (h t)
                                        then "anyType"
                                        else "anySimpleType")%string))))
           /\ (base_type (h t) = None ->
               map_type q h m (XsdTypeObject t) = Raise AttributeError)).
Proof.
  split; [reflexivity|]. split; [intros t; split; reflexivity|].
  intros t. unfold map_type, base_type_name. split.
  - intros v E. now rewrite E.
  - intros E. split.
    + intros b Hb. rewrite E, Hb. cbn [try_except_KeyError]. split.
      * intros v E'. now rewrite E'.
      * intros E'. rewrite E'. cbn [try_except_KeyError].
        now destruct (is_complex (h t)).
    + intros Hb. now rewrite E, Hb.
Qed.

Lemma map_type_fallback_chain_witness :
  map_type example_qname named_heap example_types_map (XsdTypeObject 20)
  = Ok "TYPE(any)"%string
  /\ map_type example_qname named_heap example_types_map (XsdTypeObject 23)
     = Raise AttributeError
  /\ getitem example_types_map (Some (example_qname "anySimpleType"))
     = Ok "CHARACTER(len=64)"%string.
Proof.
  destruct (map_type_fallback_chain example_qname named_heap
              example_types_map) as [_ [_ H]].
  split; [|split; [|reflexivity]].
  - destruct (H 20) as [_ H2].
    destruct (proj1 (H2 eq_refl) 21 eq_refl) as [_ H3].
    exact (H3 eq_refl).
  - destruct (H 23) as [_ H2]. exact (proj2 (H2 eq_refl) eq_refl).
Defined.

(** C9: for a type whose name is not in the map and whose [base_type] is
    None, [map_type] ends in an AttributeError, for the type itself and
    for an attribute or an element of that type; the universal fallback
    is not consulted. *)
Theorem map_type_null_base_type (q : string -> string) (h : heap)
        (m : types_map) (t : ref) :
  getitem m (name (h t)) = Raise KeyError ->
  base_type (h t) = None ->
  map_type q h m (XsdTypeObject t) = Raise AttributeError
  /\ map_type q h m (XsdAttributeObject t) = Raise AttributeError
  /\ map_type q h m (XsdElementObject t) = Raise AttributeError.
Proof.
  intros E Hb. unfold map_type, base_type_name.
  rewrite E, Hb. repeat split.
Qed.

Lemma map_type_null_base_type_witness :
  map_type example_qname named_heap example_types_map (XsdTypeObject 23)
  = Raise AttributeError.
Proof.
  exact (proj1 (@map_type_null_base_type example_qname named_heap
                  example_types_map 23 eq_refl eq_refl)).
Defined.

(** ** [render_to_files] writes no file *)

Section RenderFacts.

Variable is_shell_wildcard : string -> bool.
Variable list_templates : list string.
Variable fnmatch : string -> string -> bool.
Variable get_template : string -> template_lookup.
Variable render : string -> list ref -> render_result.
Variable path_name : string -> string.
Variable joinpath : string -> string -> string.
Variable with_suffix : string -> string.
Variable h : heap.
Variable schema_types : collection.

Lemma render_loop_files (force : bool) (output_dir : string)
      (names : list string) :
  forall (w : world) (rendered : list string) (r : rendering),
    render_loop get_template render path_name joinpath with_suffix h
                schema_types force output_dir names w rendered = Some r ->
    files (world_of r) = files w.
Proof.
  induction names as [|name names IH]; intros w rendered r E;
    cbn [render_loop] in E.
  - now injection E as <-.
  - destruct (get_template name) as [| |exception|filename].
    + now rewrite (IH _ _ _ E).
    + now rewrite (IH _ _ _ E).
    + now injection E as <-.
    + destruct (negb force && file_exists w _).
      * exact (IH _ _ _ E).
      * destruct (sorted_complex_types h schema_types false)
          as [[sorted|stuck| |]|]; try discriminate;
          try (now injection E as <-).
        destruct (render name sorted) as [result|exception].
        -- now rewrite (IH _ _ _ E).
        -- now injection E as <-.
Qed.

End RenderFacts.

(** C7 fails on the code: the statements that open and write the target
    file are commented out.  Whatever the templates, the output directory
    and the flag, a call leaves the files as they were; on the example,
    with one template and no file in place, the text is printed, the
    record "write file" is logged and the template is reported as
    rendered, and no file exists afterwards. *)
Theorem render_to_files_writes_nothing :
  (forall is_shell_wildcard list_templates fnmatch get_template render
          path_name joinpath with_suffix h schema_types names output_dir
          force w,
      match render_to_files is_shell_wildcard list_templates fnmatch
                            get_template render path_name joinpath
                            with_suffix h schema_types names output_dir
                            force w with
      | Some r => files (world_of r) = files w
      | None => True
      end)
  /\ example_render_to_files (inr ["a.f90.jinja"%string]) "out" false
                             (mkWorld [] [] [])
     = Some (Rendered
               (mkWorld [] ["rendered a.f90.jinja"%string]
                        [LogInfoWriteFile "out/a.f90"])
               ["templates/fortran/a.f90.jinja"%string]).
Proof.
  split; [|reflexivity].
  intros. destruct (render_to_files _ _ _ _ _ _ _ _ _ _ _ _ _ _) eqn:E;
    [|exact I].
  unfold render_to_files in E. eapply render_loop_files; eauto.
Qed.

(** ** Further properties of the sorter *)

Section SorterExtras.

Variable h : heap.
Variable xsd_types : list ref.

Local Notation "'W'" := (working_set h xsd_types).

(** The loop with another list of types already placed. *)
Lemma layers_shift (a : bool) (fuel : nat) : forall K o : list ref,
  layers h xsd_types fuel a K o
  = match layers h xsd_types fuel a K [] with
    | Some (Return t) => Some (Return (o ++ t))
    | r => r
    end.
Proof.
  induction fuel as [|fuel IH]; intros K o.
  - destruct K; cbn [layers]; [now rewrite app_nil_r | reflexivity].
  - destruct K as [|k K]; [cbn [layers]; now rewrite app_nil_r|].
    destruct (layer h xsd_types (k :: K)) as [|x l] eqn:EL.
    + rewrite !layers_stuck by congruence. rewrite EL.
      destruct a; [|reflexivity]. now rewrite app_nil_r.
    + assert (NE : layer h xsd_types (k :: K) <> []) by congruence.
      rewrite !layers_step by exact NE.
      rewrite IH, (IH _ ([] ++ _)).
      destruct (layers h xsd_types fuel a (rest h (k :: K)) [])
        as [[t| | |]|]; try reflexivity.
      now rewrite app_assoc.
Qed.

(** A type that reaches a cycle has a dependency that does. *)
Lemma reaches_cycle_successor (x : ref) :
  reaches_cycle h xsd_types x ->
  exists y, depends h xsd_types x y /\ reaches_cycle h xsd_types y.
Proof.
  intros [z [Hxz Hz]]. apply clos_rt_rt1n in Hxz.
  destruct Hxz as [|y z Hxy Hyz].
  - destruct (first_step Hz) as [y [Hxy [->|Hyx]]].
    + exists x. split; [exact Hxy|]. exists x. split; [apply rt_refl|exact Hz].
    + exists y. split; [exact Hxy|]. exists x.
      split; [now apply clos_t_clos_rt | exact Hz].
  - exists y. split; [exact Hxy|]. exists z.
    split; [now apply clos_rt1n_rt | exact Hz].
Qed.

(** Following dependencies inside a closed set leads to a cycle. *)
Lemma walk_from (K : list ref) (s : ref) :
  (forall x, In x K -> exists y, In y K /\ depends h xsd_types x y) ->
  forall (n : nat) (visited : list ref) (x : ref),
    NoDup visited -> incl visited K -> In x K ->
    clos_refl_trans ref (depends h xsd_types) s x ->
    (forall v, In v visited -> clos_trans ref (depends h xsd_types) v x) ->
    length K <= n + length visited ->
    reaches_cycle h xsd_types s.
Proof.
  intros Hsucc. induction n as [|n IH];
    intros visited x Hnd Hin Hx Hs Hv Hlen;
    destruct (in_dec Nat.eq_dec x visited) as [Hxv|Hxv].
  - exists x. split; [exact Hs | now apply Hv].
  - assert (L : length (x :: visited) <= length K).
    { apply NoDup_incl_length; [now constructor|].
      intros y [<-|Hy]; auto. }
    cbn [length] in L. lia.
  - exists x. split; [exact Hs | now apply Hv].
  - destruct (Hsucc x Hx) as [y [Hy Hxy]].
    apply (IH (x :: visited) y).
    + now constructor.
    + intros v [<-|Hv']; auto.
    + exact Hy.
    + apply rt_trans with x; [exact Hs | now apply rt_step].
    + intros v [<-|Hv'].
      * now apply t_step.
      * apply t_trans with x; [now apply Hv | now apply t_step].
    + cbn [length]. lia.
Qed.

(** The types that reach a cycle are never deleted. *)
Lemma layers_keep_cycles (fuel : nat) (K o stuck : list ref) :
  (forall x, reaches_cycle h xsd_types x -> In x W -> In x K) ->
  layers h xsd_types fuel false K o = Some (RaiseValueError stuck) ->
  forall x, reaches_cycle h xsd_types x -> In x W -> In x stuck.
Proof.
  intros HK E.
  set (P := fun (K _ : list ref) (r : outcome) =>
              (forall x, reaches_cycle h xsd_types x -> In x W -> In x K) ->
              forall stuck, r = RaiseValueError stuck ->
                forall x, reaches_cycle h xsd_types x -> In x W ->
                          In x stuck).
  assert (HP : P K o (RaiseValueError stuck)).
  { apply (layers_ind h xsd_types false P) with (fuel := fuel);
      [| | |exact E]; unfold P.
    - discriminate.
    - intros K' o' _ _ HK' stuck' [= <-] x Hx HxW.
      apply rest_In. split; [now apply HK'|].
      destruct (reaches_cycle_successor Hx) as [y [[_ [HyW Hy]] Hry]].
      apply ready_false. exists y. split; [exact Hy | now apply HK'].
    - intros K' o' r _ IH HK' stuck' Hr. apply IH; [|exact Hr].
      intros x Hx HxW. apply rest_In. split; [now apply HK'|].
      destruct (reaches_cycle_successor Hx) as [y [[_ [HyW Hy]] Hry]].
      apply ready_false. exists y. split; [exact Hy | now apply HK']. }
  exact (HP HK stuck eq_refl).
Qed.

End SorterExtras.

Section SorterExtras2.

Variable h : heap.
Variable xsd_types : list ref.

Local Notation "'W'" := (working_set h xsd_types).

(** In a set of keys none of which is ready, no key has a height. *)
Lemma closed_unresolvable (K : list ref) :
  incl K W -> (forall x, In x K -> ready h K x = false) ->
  forall j x, In x K -> height_le h W j x = false.
Proof.
  intros HK Hclosed. induction j as [|j IH]; intros x Hx;
    destruct (proj1 (ready_false h K x) (Hclosed x Hx)) as [y [Hy HyK]];
    apply not_true_is_false; cbn [height_le]; rewrite forallb_forall;
    intros F; specialize (F y Hy);
    assert (M : memb y W = true) by (apply memb_In; auto);
    rewrite M in F; cbn [negb orb] in F.
  - discriminate.
  - rewrite (IH y HyK) in F. discriminate.
Qed.

Lemma stuck_closed (K : list ref) :
  incl K xsd_types -> layer h xsd_types K = [] ->
  forall x, In x K -> ready h K x = false.
Proof.
  intros Hin EL x Hx. destruct (ready h K x) eqn:R; [|reflexivity].
  assert (F : In x (layer h xsd_types K)) by (apply layer_In; auto).
  rewrite EL in F. destruct F.
Qed.

(** What follows the placed types in a returned sequence holds every
    key. *)
Lemma layers_keys_after (a : bool) (fuel : nat) (K o t : list ref) :
  NoDup K -> incl K xsd_types ->
  layers h xsd_types fuel a K o = Some (Return (o ++ t)) ->
  forall y, In y K -> In y t.
Proof.
  intros HK Hin E y Hy.
  pose proof (@layers_perm h xsd_types a fuel K o (o ++ t) HK Hin E) as HP.
  apply Permutation_app_inv_l in HP.
  apply Permutation_in with K; [now symmetry | exact Hy].
Qed.

Lemma depth_remaining (k m : nat) (x : ref) :
  In x W -> depth h xsd_types m x -> k <= m ->
  In x (remaining h xsd_types k).
Proof.
  intros Hx [_ Hd] Hle. apply remaining_In. split; [exact Hx|].
  destruct k as [|k]; [exact I|]. destruct m as [|m]; [lia|].
  destruct (height_le h W k x) eqn:E; [|reflexivity].
  rewrite (@height_le_mono h xsd_types k m x) in Hd;
    [discriminate | lia | exact E].
Qed.

Lemma later_remaining (k m : nat) (y : ref) :
  In y W ->
  (exists n, m < n /\ depth h xsd_types n y) \/ unresolvable h xsd_types y ->
  k <= S m -> In y (remaining h xsd_types k).
Proof.
  intros Hy [[n [Hlt Hd]]|Hu] Hle.
  - apply (@depth_remaining k n y Hy Hd). lia.
  - apply remaining_In. split; [exact Hy|]. destruct k; [exact I | apply Hu].
Qed.

(** Types are returned by increasing depth, the unresolvable ones last. *)
Lemma layers_depth_order (a : bool) (fuel : nat) :
  forall (k : nat) (o out : list ref) (x y : ref) (m : nat),
    layers h xsd_types fuel a (remaining h xsd_types k) o
    = Some (Return out) ->
    In x W -> In y W -> depth h xsd_types m x -> k <= m ->
    (exists n, m < n /\ depth h xsd_types n y)
    \/ unresolvable h xsd_types y ->
    precedes x y out.
Proof.
  induction fuel as [|fuel IH]; intros k o out x y m E Hx Hy Dx Hle Ly;
    pose proof (depth_remaining Hx Dx Hle) as Rx.
  - destruct (remaining h xsd_types k); [destruct Rx | discriminate].
  - assert (NE : remaining h xsd_types k <> [])
      by (intros F; rewrite F in Rx; destruct Rx).
    assert (HKW : incl (remaining h xsd_types k) W)
      by (intros w Hw; now apply remaining_In in Hw).
    destruct (layer h xsd_types (remaining h xsd_types k)) as [|z l] eqn:EL.
    + pose proof (stuck_closed (@remaining_incl h xsd_types k) EL) as Hcl.
      pose proof (@closed_unresolvable _ HKW Hcl m x Rx) as F.
      destruct Dx as [Dx _]. rewrite Dx in F. discriminate.
    + assert (NL : layer h xsd_types (remaining h xsd_types k) <> [])
        by congruence.
      rewrite layers_step, rest_remaining in E by exact NL.
      destruct (Nat.eq_dec k m) as [->|Hkm].
      * destruct (@layers_prefix h _ _ _ _ _ _ E) as [t Ht]. subst out.
        apply precedes_app.
        -- apply in_or_app. right.
           apply layer_In; [apply remaining_incl|].
           rewrite ready_remaining. split; [exact Rx | apply Dx].
        -- apply (@layers_keys_after
                    a fuel (remaining h xsd_types (S m))
                    (o ++ layer h xsd_types (remaining h xsd_types m)) t).
           ++ apply NoDup_filter, working_set_NoDup.
           ++ apply remaining_incl.
           ++ exact E.
           ++ now apply (@later_remaining (S m) m y).
      * apply (IH (S k) _ _ x y m E); auto. lia.
Qed.

End SorterExtras2.

(** X2: in a returned sequence a structured-content type whose longest
    dependency chain has [m] steps comes before every structured-content
    type with a longer one, and before every type left unresolved in an
    accepted circular residue; on classified inputs it is nowhere after
    them. *)
Theorem sorted_types_depth_order (h : heap) (c : collection) (a : bool)
        (out : list ref) (x y : ref) (m : nat) :
  sorted_types h c a = Some (Return out) ->
  In x (values c) -> structured h x = true ->
  In y (values c) -> structured h y = true ->
  depth h (values c) m x ->
  (exists n, m < n /\ depth h (values c) n y)
  \/ unresolvable h (values c) y ->
  precedes x y out
  /\ ((forall z, In z (values c) -> classified h z) -> ~ precedes y x out).
Proof.
  intros E Hx Sx Hy Sy Dx Ly.
  assert (HP : precedes x y out).
  { destruct (@sorted_types_run h c a
              (@no_wildcards h c a _ E ltac:(discriminate)))
    as [r [Hr Hs]].
    specialize (Hr _ (Nat.le_refl _)). rewrite Hs in E.
    destruct r as [o|stuck| |]; try discriminate.
    unfold check_length in E.
    destruct (length (values c) =? length o); [|discriminate].
    injection E as ->.
    rewrite <- (remaining_0 h (values c)) in Hr.
    apply (@layers_depth_order h (values c) a _ 0 _ out x y m Hr);
      auto; try lia; apply working_set_In; auto. }
  split; [exact HP|].
  intros Hc HQ. destruct (@returned_distinct h c a out Hc E) as [Hnd Hperm].
  apply (@precedes_NoDup x y (filter (structured h) out)).
  - apply (Permutation_NoDup (@filter_perm _ (structured h) _ _ Hperm) Hnd).
  - now apply precedes_filter.
  - now apply precedes_filter.
Qed.

Lemma sorted_types_depth_order_witness :
  precedes 3 4 [3; 4; 0; 1; 2] /\ precedes 3 0 [3; 4; 0; 1; 2].
Proof.
  split.
  - refine (proj1 (@sorted_types_depth_order cycle_heap
                     (Sequence [0; 1; 4; 2; 3]) true [3; 4; 0; 1; 2]
                     3 4 0 _ _ _ _ _ _ _)).
    + reflexivity.
    + cbn. tauto.
    + reflexivity.
    + cbn. tauto.
    + reflexivity.
    + split; [reflexivity | exact I].
    + left. exists 1. split; [lia|]. split; reflexivity.
  - refine (proj1 (@sorted_types_depth_order cycle_heap
                     (Sequence [0; 1; 4; 2; 3]) true [3; 4; 0; 1; 2]
                     3 0 0 _ _ _ _ _ _ _)).
    + reflexivity.
    + cbn. tauto.
    + reflexivity.
    + cbn. tauto.
    + reflexivity.
    + split; [reflexivity | exact I].
    + right. intros n.
      apply (@closed_unresolvable cycle_heap [0; 1; 4; 2; 3] [0; 1; 2]).
      * intros z Hz. cbn in Hz. cbv. tauto.
      * intros z Hz. cbn [In] in Hz. in_cases Hz.
      * cbn. tauto.
Defined.

(** X3: the circularity error names exactly the structured-content types
    of the input that lie on a dependency cycle or depend, directly or
    through other types, on a type that does. *)
Theorem circularity_error_names (h : heap) (c : collection)
        (stuck : list ref) :
  sorted_types h c false = Some (RaiseValueError stuck) ->
  forall x, In x stuck
            <-> In x (values c) /\ structured h x = true
                /\ reaches_cycle h (values c) x.
Proof.
  intros E x.
  pose proof (@raise_inversion h c false stuck E _ (Nat.le_refl _)) as Hr.
  destruct (@run_raise h _ _ _ _ Hr) as [_ [Hne [Hord Hdep]]].
  pose proof (@stuck_in_working_set h _ _ Hord) as Hin.
  rewrite <- and_assoc, <- working_set_In. split.
  - intros Hx. split; [now apply Hin|].
    apply (@walk_from h (values c) stuck x) with
      (n := length stuck) (visited := []) (x := x).
    + intros z Hz. destruct (Hdep z Hz) as [y [Hy Hys]].
      exists y. split; [exact Hys|]. repeat split; auto.
    + constructor.
    + intros z [].
    + exact Hx.
    + apply rt_refl.
    + intros v [].
    + cbn [length]. lia.
  - intros [HxW Hx].
    apply (@layers_keep_cycles h (values c) _ _ _ stuck) with (x := x)
      in Hr; auto.
Qed.

Lemma circularity_error_names_witness :
  sorted_types cycle_heap (Sequence [3; 0; 1; 2]) false
  = Some (RaiseValueError [0; 1; 2])
  /\ (In 0 [0; 1; 2]
      <-> In 0 [3; 0; 1; 2] /\ structured cycle_heap 0 = true
          /\ reaches_cycle cycle_heap [3; 0; 1; 2] 0).
Proof.
  split; [reflexivity|].
  exact (@circularity_error_names cycle_heap (Sequence [3; 0; 1; 2])
           [0; 1; 2] eq_refl 0).
Defined.

(** ** What the sorter reads *)

Section TwoHeaps.

Variables h h' : heap.
Variable xsd_types : list ref.
Variable D : list ref.

Hypothesis same_deps :
  forall x, In x D -> deps_in h D x = deps_in h' D x.

Lemma ready_ext (K : list ref) (x : ref) :
  incl K D -> In x D -> ready h K x = ready h' K x.
Proof.
  intros HK Hx. unfold ready.
  now rewrite <- (deps_in_shrink h x HK), <- (deps_in_shrink h' x HK),
    same_deps.
Qed.

Lemma layer_ext (K : list ref) :
  incl K D -> layer h xsd_types K = layer h' xsd_types K.
Proof.
  intros HK. unfold layer. apply filter_ext. intros x.
  destruct (memb x K) eqn:M; [|reflexivity].
  apply memb_In in M. cbn [andb]. apply ready_ext; auto.
Qed.

Lemma rest_ext (K : list ref) : incl K D -> rest h K = rest h' K.
Proof.
  intros HK. unfold rest. apply filter_ext_in. intros x Hx.
  f_equal. apply ready_ext; auto.
Qed.

Lemma layers_ext (a : bool) (fuel : nat) : forall K o : list ref,
  incl K D ->
  layers h xsd_types fuel a K o = layers h' xsd_types fuel a K o.
Proof.
  induction fuel as [|fuel IH]; intros K o HK; [reflexivity|].
  destruct K as [|k K]; [reflexivity|]. cbn [layers].
  rewrite <- (layer_ext HK), <- (rest_ext HK).
  destruct (length (layer h xsd_types (k :: K)) =? 0); [reflexivity|].
  apply IH. intros x Hx. apply HK. now apply (rest_incl h (k :: K)).
Qed.

End TwoHeaps.

(** X4: of the particles of a structured-content type of the input
    [sorted_types] reads whether one of them is a wildcard and, in their
    order, the element types that are structured-content types of the
    input; two schemas that classify the input types alike and agree on
    these give the same result, whatever other element types they
    declare. *)
Theorem sorted_types_reads_inside (h h' : heap) (c : collection)
        (a : bool) :
  (forall x, In x (values c) ->
             is_simple (h x) = is_simple (h' x)
             /\ is_complex (h x) = is_complex (h' x)
             /\ has_simple_content (h x) = has_simple_content (h' x)) ->
  (forall x, In x (values c) -> structured h x = true ->
             has_wildcard (h x) = has_wildcard (h' x)) ->
  (forall x, In x (values c) -> structured h x = true ->
             deps_in h (working_set h (values c)) x
             = deps_in h' (working_set h (values c)) x) ->
  sorted_types h c a = sorted_types h' c a.
Proof.
  intros Hk Hw Hd.
  assert (Hs : forall x, In x (values c) ->
                 simple h x = simple h' x
                 /\ simple_content h x = simple_content h' x
                 /\ structured h x = structured h' x).
  { intros x Hx. destruct (Hk x Hx) as [E1 [E2 E3]].
    unfold simple, simple_content, structured. now rewrite E1, E2, E3. }
  assert (HW : working_set h (values c) = working_set h' (values c)).
  { unfold working_set. f_equal. apply filter_ext_in.
    intros x Hx. apply (Hs x Hx). }
  assert (HP : placed h (values c) = placed h' (values c)).
  { unfold placed. f_equal; apply filter_ext_in; intros x Hx;
      apply (Hs x Hx). }
  assert (HA : wildcards h (values c) = wildcards h' (values c)).
  { unfold wildcards. rewrite <- HW. apply existsb_ext_in.
    intros x Hx. apply working_set_In in Hx. now apply Hw. }
  unfold sorted_types.
  rewrite !sorted_types_fuel_layers, <- HW, <- HP, <- HA.
  rewrite (@layers_ext h h' (values c) (working_set h (values c)));
    [reflexivity | | apply incl_refl].
  intros x Hx. apply working_set_In in Hx. now apply Hd.
Qed.

Lemma sorted_types_reads_inside_witness :
  sorted_types example_heap (Sequence [0; 1; 2]) false
  = sorted_types example_heap_outside (Sequence [0; 1; 2]) false.
Proof.
  apply (@sorted_types_reads_inside example_heap example_heap_outside
           (Sequence [0; 1; 2]) false).
  - intros x H. cbn [values In] in H. in_cases H; repeat split.
  - intros x H _. cbn [values In] in H. in_cases H.
  - intros x H _. cbn [values In] in H. in_cases H.
Defined.

(** ** [sorted_complex_types] *)

Lemma classified_cases (h : heap) (x : ref) :
  classified h x ->
  (simple h x = true ->
   simple_content h x = false /\ structured h x = false)
  /\ (simple_content h x = true -> simple h x = false)
  /\ (structured h x = true -> simple h x = false).
Proof.
  unfold classified, simple, simple_content, structured. intros ->.
  destruct (is_simple (h x)), (has_simple_content (h x)); cbn;
    repeat split; congruence.
Qed.

Section ComplexOnly.

Variable h : heap.
Variable xsd_types : list ref.

Hypothesis Hc : forall x, In x xsd_types -> classified h x.

Local Notation "'complex_only'" :=
  (filter (fun x => negb (simple h x)) xsd_types).

Lemma complex_only_working_set :
  working_set h complex_only = working_set h xsd_types.
Proof.
  unfold working_set. f_equal. rewrite filter_and.
  apply filter_ext_in. intros x Hx.
  destruct (structured h x) eqn:St; [|apply andb_false_r].
  destruct (classified_cases (Hc x Hx)) as [_ [_ H3]]. now rewrite (H3 St).
Qed.

Lemma complex_only_placed :
  placed h complex_only = filter (simple_content h) xsd_types.
Proof.
  unfold placed. rewrite !filter_and.
  rewrite (@filter_none _ _ xsd_types).
  - apply filter_ext_in. intros x Hx.
    destruct (simple_content h x) eqn:St; [|apply andb_false_r].
    destruct (classified_cases (Hc x Hx)) as [_ [H2 _]]. now rewrite (H2 St).
  - intros x _. now destruct (simple h x).
Qed.

Lemma complex_only_layer (K : list ref) :
  incl K (working_set h xsd_types) ->
  layer h complex_only K = layer h xsd_types K.
Proof.
  intros HK. unfold layer. rewrite <- filter_dedup, filter_and.
  apply filter_ext_in. intros x Hx. rewrite dedup_In in Hx.
  destruct (memb x K) eqn:M; [|apply andb_false_r].
  apply memb_In, HK, working_set_In in M. destruct M as [_ St].
  destruct (classified_cases (Hc x Hx)) as [_ [_ H3]]. now rewrite (H3 St).
Qed.

Lemma complex_only_layers (a : bool) (fuel : nat) : forall K o : list ref,
  incl K (working_set h xsd_types) ->
  layers h complex_only fuel a K o = layers h xsd_types fuel a K o.
Proof.
  induction fuel as [|fuel IH]; intros K o HK; [reflexivity|].
  destruct K as [|k K]; [reflexivity|]. cbn [layers].
  rewrite (complex_only_layer HK).
  destruct (length (layer h xsd_types (k :: K)) =? 0); [reflexivity|].
  apply IH. intros x Hx. apply HK. now apply (rest_incl h (k :: K)).
Qed.

Lemma complex_only_length :
  length xsd_types
  = length (filter (simple h) xsd_types) + length complex_only.
Proof. symmetry. apply filter_length. Qed.

End ComplexOnly.

(** X1: on classified inputs [sorted_complex_types] ends as
    [sorted_types] does, with the same error or with the sequence
    [sorted_types] returns less its simple types. *)
Theorem sorted_complex_types_removes_simple (h : heap) (c : collection)
        (a : bool) :
  (forall x, In x (values c) -> classified h x) ->
  sorted_complex_types h c a
  = match sorted_types h c a with
    | Some (Return out) =>
        Some (Return (filter (fun x => negb (simple h x)) out))
    | r => r
    end.
Proof.
  intros Hc. unfold sorted_complex_types.
  set (xs := values c). set (xs' := filter (fun x => negb (simple h x)) xs).
  assert (HA : wildcards h (values (Sequence xs')) = wildcards h xs).
  { unfold wildcards, xs'. cbn [values].
    now rewrite (@complex_only_working_set h xs Hc). }
  destruct (wildcards h xs) eqn:NW.
  { now rewrite (@sorted_types_wildcards h c a NW),
      (@sorted_types_wildcards h (Sequence xs') a HA). }
  destruct (@sorted_types_run h c a NW) as [r [Hr Hs]].
  destruct (@sorted_types_run h (Sequence xs') a HA) as [r' [Hr' Hs']].
  cbn [values] in Hr', Hs'. fold xs in Hr, Hs.
  specialize (Hr (length xs) (Nat.le_refl _)).
  specialize (Hr' (length xs) (filter_length_le _ _)).
  unfold xs' in Hr'.
  rewrite (@complex_only_working_set h xs Hc),
    (@complex_only_placed h xs Hc),
    (@complex_only_layers h xs Hc) in Hr' by apply incl_refl.
  rewrite layers_shift in Hr, Hr'. rewrite Hs, Hs'. clear Hs Hs'.
  destruct (layers h xs (length xs) a (working_set h xs) [])
    as [[t|stuck| |]|] eqn:L; [| | | |discriminate Hr].
  - injection Hr as <-. injection Hr' as <-.
    assert (Ht : forall x, In x t -> In x xs /\ structured h x = true).
    { intros x Hx. apply working_set_In.
      apply Permutation_in with t; [|exact Hx].
      apply (@layers_perm h xs a (length xs) _ [] t); auto.
      - apply working_set_NoDup.
      - apply working_set_incl. }
    assert (EF : filter (fun x => negb (simple h x)) (placed h xs ++ t)
                 = filter (simple_content h) xs ++ t).
    { unfold placed. rewrite !filter_app, !filter_and.
      rewrite (@filter_none _ _ xs), (@filter_all _ _ t).
      - cbn [app]. f_equal. apply filter_ext_in. intros x Hx.
        destruct (simple_content h x) eqn:St; [|reflexivity].
        destruct (classified_cases (Hc x Hx)) as [_ [H2 _]].
        now rewrite (H2 St).
      - intros x Hx. destruct (Ht x Hx) as [Hin St].
        destruct (classified_cases (Hc x Hin)) as [_ [_ H3]].
        now rewrite (H3 St).
      - intros x _. now destruct (simple h x). }
    unfold check_length. fold xs'.
    rewrite (complex_only_length h xs) at 1. fold xs'.
    unfold placed. rewrite !length_app.
    destruct (Nat.eqb_spec
                (length (filter (simple h) xs) + length xs')
                (length (filter (simple h) xs)
                 + length (filter (simple_content h) xs) + length t));
      destruct (Nat.eqb_spec
                  (length xs')
                  (length (filter (simple_content h) xs) + length t));
      try lia; [|reflexivity].
    f_equal. f_equal. symmetry. exact EF.
  - injection Hr as <-. injection Hr' as <-. reflexivity.
  - injection Hr as <-. injection Hr' as <-. reflexivity.
  - injection Hr as <-. injection Hr' as <-. reflexivity.
Qed.

Lemma sorted_complex_types_removes_simple_witness :
  sorted_complex_types example_heap (Sequence [0; 4; 1; 3; 2]) false
  = Some (Return [4; 1; 2; 0]).
Proof.
  refine (@sorted_complex_types_removes_simple example_heap
            (Sequence [0; 4; 1; 3; 2]) false _).
  intros x H. cbn [values In] in H. in_cases H.
Defined.

(** ** The loop of [render_to_files] in closed form *)

Section RenderClosed.

Variable get_template : string -> template_lookup.
Variable render : string -> list ref -> render_result.
Variable path_name : string -> string.
Variable joinpath : string -> string -> string.
Variable with_suffix : string -> string.
Variable h : heap.
Variable schema_types : collection.

Local Notation "'loop'" :=
  (render_loop get_template render path_name joinpath with_suffix h
               schema_types).
Local Notation "'sel'" :=
  (selected get_template path_name joinpath with_suffix).
Local Notation "'logs'" :=
  (logged get_template path_name joinpath with_suffix).

(** Whether a template is selected depends on the files only. *)
Lemma selected_files (force : bool) (d : string) (w w' : world)
      (n : string) :
  files w = files w' -> sel force d w n = sel force d w' n.
Proof.
  intros E. unfold selected, file_exists. now rewrite E.
Qed.

Lemma logged_files (force : bool) (d : string) (w w' : world)
      (n : string) :
  files w = files w' -> logs force d w n = logs force d w' n.
Proof.
  intros E. unfold logged. now rewrite (@selected_files force d w w' n E).
Qed.

Lemma filter_selected_files (force : bool) (d : string) (w w' : world)
      (names : list string) :
  files w = files w' ->
  filter (sel force d w) names = filter (sel force d w') names.
Proof.
  intros E. apply filter_ext. intros n. now apply selected_files.
Qed.

Lemma flat_map_logged_files (force : bool) (d : string) (w w' : world)
      (names : list string) :
  files w = files w' ->
  flat_map (logs force d w) names = flat_map (logs force d w') names.
Proof.
  intros E. apply flat_map_ext. intros n. now apply logged_files.
Qed.

Lemma selected_found (force : bool) (d : string) (w : world)
      (name filename : string) :
  get_template name = Template filename ->
  sel force d w name
  = negb (negb force
          && file_exists w (with_suffix (joinpath d (path_name name)))).
Proof.
  intros G. unfold selected, output_file. rewrite G.
  now destruct force, (file_exists w _).
Qed.

Lemma selected_missing (force : bool) (d : string) (w : world)
      (name : string) :
  (forall filename, get_template name <> Template filename) ->
  sel force d w name = false.
Proof.
  intros G. unfold selected.
  destruct (get_template name) as [| | |filename]; try reflexivity.
  now destruct (G filename).
Qed.

Lemma logged_found (force : bool) (d : string) (w : world)
      (name filename : string) :
  get_template name = Template filename ->
  logs force d w name
  = if sel force d w name
    then [LogInfoWriteFile (with_suffix (joinpath d (path_name name)))]
    else [].
Proof.
  intros G. unfold logged. now rewrite G.
Qed.

(** Names whose lookup raises nothing uncaught and that are not due are
    passed over: only the log grows, and the types are not sorted. *)
Lemma render_loop_passes (force : bool) (d : string) (rest : list string) :
  forall (pre : list string) (w : world) (rendered : list string),
    (forall n, In n pre -> lookup_caught get_template n) ->
    filter (sel force d w) pre = [] ->
    loop force d (pre ++ rest) w rendered
    = loop force d rest
           (mkWorld (files w) (stdout w)
                    (log w ++ flat_map (logs force d w) pre))
           rendered.
Proof.
  induction pre as [|name pre IH]; intros w rendered Hl Hn.
  - cbn [app flat_map]. rewrite app_nil_r. now destruct w.
  - assert (Hl' : forall n, In n pre -> lookup_caught get_template n).
    { intros n Hin. apply Hl. now right. }
    cbn [app render_loop filter flat_map] in Hn |- *.
    destruct (get_template name) as [| |exception|filename] eqn:G.
    + rewrite (@selected_missing force d w name) in Hn
        by (rewrite G; discriminate).
      unfold logged at 1. rewrite G, IH; cbn [log_add files stdout log].
      * rewrite <- app_assoc.
        now rewrite (@flat_map_logged_files force d
                       (log_add (LogDebug name) w) w pre eq_refl).
      * exact Hl'.
      * exact Hn.
    + rewrite (@selected_missing force d w name) in Hn
        by (rewrite G; discriminate).
      unfold logged at 1. rewrite G, IH; cbn [log_add files stdout log].
      * rewrite <- app_assoc.
        now rewrite (@flat_map_logged_files force d
                       (log_add (LogWarning name) w) w pre eq_refl).
      * exact Hl'.
      * exact Hn.
    + now destruct (Hl name (or_introl eq_refl) exception).
    + rewrite (@logged_found force d w name filename G).
      rewrite (@selected_found force d w name filename G) in Hn |- *.
      destruct (negb force && file_exists w _); cbn [negb] in Hn |- *;
        [|discriminate].
      now rewrite IH.
Qed.

(** With a sort that returns, lookups that raise nothing uncaught and
    renderings that raise nothing, every name is handled. *)
Lemma render_loop_returns (force : bool) (d : string) (sorted : list ref) :
  sorted_complex_types h schema_types false = Some (Return sorted) ->
  forall (names : list string) (w : world) (rendered : list string),
    (forall n, In n names -> lookup_caught get_template n) ->
    (forall n, In n (filter (sel force d w) names) ->
               exists text, render n sorted = RenderText text) ->
    loop force d names w rendered
    = Some (Rendered
              (mkWorld (files w)
                 (stdout w ++ map (fun n => rendered_text (render n sorted))
                                  (filter (sel force d w) names))
                 (log w ++ flat_map (logs force d w) names))
              (rendered ++ map (filename_of get_template)
                               (filter (sel force d w) names))).
Proof.
  intros Hs. induction names as [|name names IH]; intros w rendered Hl Ht.
  - cbn [render_loop filter map flat_map]. rewrite !app_nil_r.
    now destruct w.
  - assert (Hl' : forall n, In n names -> lookup_caught get_template n).
    { intros n Hin. apply Hl. now right. }
    cbn [render_loop filter flat_map] in Ht |- *.
    destruct (get_template name) as [| |exception|filename] eqn:G.
    + rewrite (@selected_missing force d w name) in Ht |- *
        by (rewrite G; discriminate).
      unfold logged at 1. rewrite G, IH.
      * cbn [log_add files stdout log]. rewrite <- app_assoc.
        now rewrite (@filter_selected_files force d
                       (log_add (LogDebug name) w) w names eq_refl),
          (@flat_map_logged_files force d (log_add (LogDebug name) w)
             w names eq_refl).
      * exact Hl'.
      * now rewrite (@filter_selected_files force d
                       (log_add (LogDebug name) w) w names eq_refl).
    + rewrite (@selected_missing force d w name) in Ht |- *
        by (rewrite G; discriminate).
      unfold logged at 1. rewrite G, IH.
      * cbn [log_add files stdout log]. rewrite <- app_assoc.
        now rewrite (@filter_selected_files force d
                       (log_add (LogWarning name) w) w names eq_refl),
          (@flat_map_logged_files force d (log_add (LogWarning name) w)
             w names eq_refl).
      * exact Hl'.
      * now rewrite (@filter_selected_files force d
                       (log_add (LogWarning name) w) w names eq_refl).
    + now destruct (Hl name (or_introl eq_refl) exception).
    + rewrite (@logged_found force d w name filename G).
      rewrite (@selected_found force d w name filename G) in Ht |- *.
      destruct (negb force && file_exists w _); cbn [negb] in Ht |- *.
      * rewrite IH; [now rewrite app_nil_l | exact Hl' | exact Ht].
      * destruct (Ht name (or_introl eq_refl)) as [text Hx].
        rewrite Hs, Hx.
        set (w1 := log_add _ (print text w)).
        rewrite IH.
        -- rewrite (@filter_selected_files force d w1 w names eq_refl),
             (@flat_map_logged_files force d w1 w names eq_refl).
           unfold w1. cbn [log_add print files stdout log map].
           unfold filename_of at 2. rewrite G, Hx.
           cbn [rendered_text]. now rewrite <- !app_assoc.
        -- exact Hl'.
        -- intros n Hn. apply Ht. right.
           now rewrite <- (@filter_selected_files force d w1 w names
                             eq_refl).
Qed.

(** The turn of the loop for a name whose lookup raises an exception that
    is not caught, or that is due while the sort or the rendering
    raises. *)
Lemma render_loop_raises (force : bool) (d : string) (name : string)
      (post : list string) (w : world) (rendered : list string) :
  (forall exception, get_template name = TemplateRaises exception ->
     loop force d (name :: post) w rendered
     = Some (Raised w (LookupRaised exception)))
  /\ (sel force d w name = true ->
      (forall e, sorted_complex_types h schema_types false = Some e ->
                 (forall sorted, e <> Return sorted) ->
                 loop force d (name :: post) w rendered
                 = Some (Raised w (SortRaised e)))
      /\ (forall sorted exception,
            sorted_complex_types h schema_types false
            = Some (Return sorted) ->
            render name sorted = RenderRaises exception ->
            loop force d (name :: post) w rendered
            = Some (Raised w (RenderRaised exception)))).
Proof.
  split.
  - intros exception G. cbn [render_loop]. now rewrite G.
  - intros Hn. cbn [render_loop].
    destruct (get_template name) as [| |exception|filename] eqn:G;
      try (rewrite (@selected_missing force d w name) in Hn
             by (rewrite G; discriminate); discriminate).
    rewrite (@selected_found force d w name filename G) in Hn.
    destruct (negb force && file_exists w _); [discriminate|]. split.
    + intros e Hs He. rewrite Hs.
      destruct e as [sorted| | |]; [now destruct (He sorted)| | |];
        reflexivity.
    + intros sorted exception Hs Hx. now rewrite Hs, Hx.
Qed.

End RenderClosed.

(** The sort never runs out of fuel. *)
Lemma sorted_complex_types_total (h : heap) (c : collection) (a : bool) :
  exists r, sorted_complex_types h c a = Some r.
Proof.
  unfold sorted_complex_types.
  set (c' := Sequence (filter (fun x => negb (simple h x)) (values c))).
  destruct (wildcards h (values c')) eqn:NW.
  - exists RaiseAttributeError. now apply sorted_types_wildcards.
  - destruct (@sorted_types_run h c' a NW) as [r [_ ->]]. eauto.
Qed.

(** X5: when the sort of the schema's types returns, no lookup of a
    template raises an exception that the loop does not catch and no
    rendering of a due template raises, [render_to_files] returns the
    file names of the templates that are found and whose target is not
    in place before the call (of all that are found when [force] is
    set), in the order of the expanded names; it prints their texts in
    that order and logs one record for each name that is not skipped. *)
Theorem render_to_files_rendered
        (is_shell_wildcard : string -> bool) (list_templates : list string)
        (fnmatch : string -> string -> bool)
        (get_template : string -> template_lookup)
        (render : string -> list ref -> render_result)
        (path_name : string -> string)
        (joinpath : string -> string -> string)
        (with_suffix : string -> string)
        (h : heap) (schema_types : collection)
        (names : string + list string) (output_dir : string) (force : bool)
        (w : world) (sorted : list ref) :
  sorted_complex_types h schema_types false = Some (Return sorted) ->
  (forall n, In n (template_names is_shell_wildcard list_templates fnmatch
                                  (names_list names)) ->
             lookup_caught get_template n) ->
  (forall n, In n (filter (selected get_template path_name joinpath
                                    with_suffix force output_dir w)
                          (template_names is_shell_wildcard list_templates
                                          fnmatch (names_list names))) ->
             exists text, render n sorted = RenderText text) ->
  render_to_files is_shell_wildcard list_templates fnmatch get_template
                  render path_name joinpath with_suffix h schema_types
                  names output_dir force w
  = let all := template_names is_shell_wildcard list_templates fnmatch
                              (names_list names) in
    let todo := filter (selected get_template path_name joinpath
                                 with_suffix force output_dir w) all in
    Some (Rendered
            (mkWorld (files w)
               (stdout w ++ map (fun n => rendered_text (render n sorted))
                                todo)
               (log w ++ flat_map (logged get_template path_name joinpath
                                          with_suffix force output_dir w)
                                  all))
            (map (filename_of get_template) todo)).
Proof.
  intros Hs Hl Ht. unfold render_to_files.
  now rewrite (@render_loop_returns get_template render path_name joinpath
                 with_suffix h schema_types force output_dir sorted Hs
                 _ w [] Hl Ht).
Qed.

Lemma render_to_files_rendered_witness :
  sorted_complex_types example_heap (Sequence [0; 4; 1; 3; 2]) false
  = Some (Return [4; 1; 2; 0])
  /\ render_to_files (fun _ => false) [] (fun _ _ => false)
       two_get_template example_render (fun name => name)
       example_joinpath two_with_suffix example_heap
       (Sequence [0; 4; 1; 3; 2])
       (inr ["a.f90.jinja"; "broken.jinja"; "b.f90.jinja"; "c.jinja"]%string)
       "out" false two_world
     = Some (Rendered
               (mkWorld [("out/a.f90", "old text")]%string
                        ["rendered b.f90.jinja"%string]
                        [LogWarning "broken.jinja";
                         LogInfoWriteFile "out/b.f90";
                         LogDebug "c.jinja"])
               ["t/b.f90.jinja"%string]).
Proof.
  split; [reflexivity|].
  refine (@render_to_files_rendered (fun _ => false) [] (fun _ _ => false)
            two_get_template example_render (fun name => name)
            example_joinpath two_with_suffix example_heap
            (Sequence [0; 4; 1; 3; 2])
            (inr ["a.f90.jinja"; "broken.jinja"; "b.f90.jinja";
                  "c.jinja"]%string)
            "out"%string false two_world [4; 1; 2; 0] eq_refl _ _).
  - intros n H exception. cbn in H.
    repeat (destruct H as [<-|H]; [discriminate|]). destruct H.
  - intros n H. unfold example_render. eauto.
Defined.

(** X6: when no lookup of a template raises an exception that the loop
    does not catch and no template is both found and due (each one found
    has its target in place and [force] is not set), [render_to_files]
    returns the empty list and prints nothing, whatever the schema's
    types are: they are not sorted, so that a circularity among them
    raises nothing. *)
Theorem render_to_files_nothing_due
        (is_shell_wildcard : string -> bool) (list_templates : list string)
        (fnmatch : string -> string -> bool)
        (get_template : string -> template_lookup)
        (render : string -> list ref -> render_result)
        (path_name : string -> string)
        (joinpath : string -> string -> string)
        (with_suffix : string -> string)
        (h : heap) (schema_types : collection)
        (names : string + list string) (output_dir : string) (force : bool)
        (w : world) :
  (forall n, In n (template_names is_shell_wildcard list_templates fnmatch
                                  (names_list names)) ->
             lookup_caught get_template n) ->
  filter (selected get_template path_name joinpath with_suffix force
                   output_dir w)
         (template_names is_shell_wildcard list_templates fnmatch
                         (names_list names)) = [] ->
  render_to_files is_shell_wildcard list_templates fnmatch get_template
                  render path_name joinpath with_suffix h schema_types
                  names output_dir force w
  = Some (Rendered
            (mkWorld (files w) (stdout w)
               (log w ++ flat_map (logged get_template path_name joinpath
                                          with_suffix force output_dir w)
                                  (template_names is_shell_wildcard
                                     list_templates fnmatch
                                     (names_list names))))
            []).
Proof.
  intros Hl Hn. unfold render_to_files.
  rewrite <- (app_nil_r (template_names _ _ _ _)) at 1.
  now rewrite (@render_loop_passes get_template render path_name joinpath
                 with_suffix h schema_types force output_dir [] _ w []
                 Hl Hn).
Qed.

Lemma render_to_files_nothing_due_witness :
  sorted_complex_types cycle_heap (Sequence [3; 0; 1; 2]) false
  = Some (RaiseValueError [0; 1; 2])
  /\ render_to_files (fun _ => false) [] (fun _ _ => false)
       two_get_template example_render (fun name => name)
       example_joinpath two_with_suffix cycle_heap
       (Sequence [3; 0; 1; 2])
       (inr ["a.f90.jinja"; "c.jinja"]%string) "out" false two_world
     = Some (Rendered
               (mkWorld [("out/a.f90", "old text")]%string []
                        [LogDebug "c.jinja"])
               []).
Proof.
  split; [reflexivity|].
  refine (@render_to_files_nothing_due (fun _ => false) []
            (fun _ _ => false) two_get_template example_render
            (fun name => name) example_joinpath two_with_suffix cycle_heap
            (Sequence [3; 0; 1; 2])
            (inr ["a.f90.jinja"; "c.jinja"]%string) "out"%string false
            two_world _ eq_refl).
  intros n H exception. cbn in H.
  repeat (destruct H as [<-|H]; [discriminate|]). destruct H.
Defined.

(** X7: [render_to_files] ends at the first expanded name whose lookup
    raises an exception that the loop does not catch, or that is found
    and due while the sort of the schema's types or the rendering raises:
    when the names before it are passed over (no such lookup, none due),
    the call ends in that exception, with nothing printed and no list of
    rendered templates returned. *)
Theorem render_to_files_sort_error
        (is_shell_wildcard : string -> bool) (list_templates : list string)
        (fnmatch : string -> string -> bool)
        (get_template : string -> template_lookup)
        (render : string -> list ref -> render_result)
        (path_name : string -> string)
        (joinpath : string -> string -> string)
        (with_suffix : string -> string)
        (h : heap) (schema_types : collection)
        (names : string + list string) (output_dir : string) (force : bool)
        (w : world) (pre post : list string) (name : string) :
  template_names is_shell_wildcard list_templates fnmatch
                 (names_list names) = pre ++ name :: post ->
  (forall n, In n pre -> lookup_caught get_template n) ->
  filter (selected get_template path_name joinpath with_suffix force
                   output_dir w) pre = [] ->
  let w' := mkWorld (files w) (stdout w)
                    (log w ++ flat_map (logged get_template path_name
                                               joinpath with_suffix force
                                               output_dir w) pre) in
  let call := render_to_files is_shell_wildcard list_templates fnmatch
                              get_template render path_name joinpath
                              with_suffix h schema_types names output_dir
                              force w in
  (forall exception, get_template name = TemplateRaises exception ->
     call = Some (Raised w' (LookupRaised exception)))
  /\ (selected get_template path_name joinpath with_suffix force
               output_dir w name = true ->
      (forall e, sorted_complex_types h schema_types false = Some e ->
                 (forall sorted, e <> Return sorted) ->
                 call = Some (Raised w' (SortRaised e)))
      /\ (forall sorted exception,
            sorted_complex_types h schema_types false
            = Some (Return sorted) ->
            render name sorted = RenderRaises exception ->
            call = Some (Raised w' (RenderRaised exception)))).
Proof.
  intros Hn Hl Hd w' call. unfold call, render_to_files. rewrite Hn.
  rewrite (@render_loop_passes get_template render path_name joinpath
             with_suffix h schema_types force output_dir (name :: post)
             pre w [] Hl Hd).
  fold w'.
  destruct (@render_loop_raises get_template render path_name joinpath
              with_suffix h schema_types force output_dir name post w' [])
    as [H1 H2].
  split; [exact H1|]. intros Hs. apply H2.
  now rewrite <- (@selected_files get_template path_name joinpath
                    with_suffix force output_dir w w' name eq_refl).
Qed.

Lemma render_to_files_sort_error_witness :
  render_to_files (fun _ => false) [] (fun _ _ => false)
    two_get_template example_render (fun name => name)
    example_joinpath two_with_suffix example_heap (Sequence [1; 1])
    (inr ["broken.jinja"; "syntax.jinja"; "b.f90.jinja"]%string)
    "out" false two_world
  = Some (Raised (mkWorld [("out/a.f90", "old text")]%string []
                          [LogWarning "broken.jinja"])
                 (LookupRaised "TemplateSyntaxError"))
  /\ render_to_files (fun _ => false) [] (fun _ _ => false)
       two_get_template example_render (fun name => name)
       example_joinpath two_with_suffix example_heap (Sequence [1; 1])
       (inr ["broken.jinja"; "b.f90.jinja"; "syntax.jinja"]%string)
       "out" false two_world
     = Some (Raised (mkWorld [("out/a.f90", "old text")]%string []
                             [LogWarning "broken.jinja"])
                    (SortRaised RaiseAssertionError)).
Proof.
  split.
  - refine (proj1 (@render_to_files_sort_error (fun _ => false) []
                     (fun _ _ => false) two_get_template example_render
                     (fun name => name) example_joinpath two_with_suffix
                     example_heap (Sequence [1; 1])
                     (inr ["broken.jinja"; "syntax.jinja";
                           "b.f90.jinja"]%string)
                     "out"%string false two_world
                     ["broken.jinja"%string] ["b.f90.jinja"%string]
                     "syntax.jinja"%string eq_refl _ eq_refl)
                  "TemplateSyntaxError"%string eq_refl).
    intros n H exception. cbn in H.
    repeat (destruct H as [<-|H]; [discriminate|]). destruct H.
  - refine (proj1 (proj2 (@render_to_files_sort_error (fun _ => false) []
                            (fun _ _ => false) two_get_template
                            example_render (fun name => name)
                            example_joinpath two_with_suffix
                            example_heap (Sequence [1; 1])
                            (inr ["broken.jinja"; "b.f90.jinja";
                                  "syntax.jinja"]%string)
                            "out"%string false two_world
                            ["broken.jinja"%string]
                            ["syntax.jinja"%string]
                            "b.f90.jinja"%string eq_refl _ eq_refl)
                         eq_refl)
                  RaiseAssertionError eq_refl _).
    + intros n H exception. cbn in H.
      repeat (destruct H as [<-|H]; [discriminate|]). destruct H.
    + discriminate.
Defined.

(** X8: [render_to_files] sorts the schema's types without
    [accept_circularity]: for a schema of classified types whose
    structured-content types have a dependency cycle and no wildcard
    among their particles, a call that reaches a template found and due,
    the names before it being passed over, ends in the circularity
    error, with nothing printed. *)
Theorem render_to_files_circular
        (is_shell_wildcard : string -> bool) (list_templates : list string)
        (fnmatch : string -> string -> bool)
        (get_template : string -> template_lookup)
        (render : string -> list ref -> render_result)
        (path_name : string -> string)
        (joinpath : string -> string -> string)
        (with_suffix : string -> string)
        (h : heap) (schema_types : collection)
        (names : string + list string) (output_dir : string) (force : bool)
        (w : world) (pre post : list string) (name : string) :
  (forall x, In x (values schema_types) -> classified h x) ->
  circular h (values schema_types) ->
  wildcards h (values schema_types) = false ->
  template_names is_shell_wildcard list_templates fnmatch
                 (names_list names) = pre ++ name :: post ->
  (forall n, In n pre -> lookup_caught get_template n) ->
  filter (selected get_template path_name joinpath with_suffix force
                   output_dir w) pre = [] ->
  selected get_template path_name joinpath with_suffix force output_dir
           w name = true ->
  exists stuck,
    render_to_files is_shell_wildcard list_templates fnmatch get_template
                    render path_name joinpath with_suffix h schema_types
                    names output_dir force w
    = Some (Raised
              (mkWorld (files w) (stdout w)
                 (log w ++ flat_map (logged get_template path_name
                                            joinpath with_suffix force
                                            output_dir w) pre))
              (SortRaised (RaiseValueError stuck)))
    /\ stuck <> [].
Proof.
  intros Hc Hcirc NW Hn Hl Hd Hs.
  set (xs' := filter (fun x => negb (simple h x)) (values schema_types)).
  assert (Hcirc' : circular h xs').
  { unfold circular, depends, xs'.
    now rewrite (@complex_only_working_set h (values schema_types) Hc). }
  assert (NW' : wildcards h (values (Sequence xs')) = false).
  { unfold wildcards, xs'. cbn [values].
    now rewrite (@complex_only_working_set h (values schema_types) Hc). }
  destruct (@sorted_types_run h (Sequence xs') false NW') as [r [Hr Hsort]].
  cbn [values] in Hr, Hsort.
  specialize (Hr _ (Nat.le_refl _)).
  destruct (@run_circular h xs' _ r Hcirc' Hr) as [stuck ->].
  destruct (@run_raise h _ _ _ _ Hr) as [_ [Hne _]].
  exists stuck. split; [|exact Hne].
  unfold render_to_files. rewrite Hn.
  rewrite (@render_loop_passes get_template render path_name joinpath
             with_suffix h schema_types force output_dir (name :: post)
             pre w [] Hl Hd).
  set (w' := mkWorld _ _ _).
  destruct (@render_loop_raises get_template render path_name joinpath
              with_suffix h schema_types force output_dir name post w' [])
    as [_ H2].
  apply H2.
  - now rewrite <- (@selected_files get_template path_name joinpath
                      with_suffix force output_dir w w' name eq_refl).
  - exact Hsort.
  - discriminate.
Qed.

Lemma render_to_files_circular_witness :
  exists stuck,
    render_to_files (fun _ => false) [] (fun _ _ => false)
      two_get_template example_render (fun name => name)
      example_joinpath two_with_suffix cycle_heap
      (Sequence [3; 0; 1; 2])
      (inl "a.f90.jinja"%string) "out" true two_world
    = Some (Raised (mkWorld [("out/a.f90", "old text")]%string [] [])
                   (SortRaised (RaiseValueError stuck)))
    /\ stuck <> [].
Proof.
  refine (@render_to_files_circular (fun _ => false) []
            (fun _ _ => false) two_get_template example_render
            (fun name => name) example_joinpath two_with_suffix cycle_heap
            (Sequence [3; 0; 1; 2])
            (inl "a.f90.jinja"%string) "out"%string true two_world
            [] [] "a.f90.jinja"%string _ _ eq_refl eq_refl _ eq_refl
            eq_refl).
  - intros x H. cbn [values In] in H. in_cases H.
  - exists 1. apply t_trans with 2; apply t_step; repeat split;
      cbn; auto.
  - intros n [].
Defined.

(** ** The name filters *)

Section SplitFacts.

Variable c : ascii.

Lemma split_not_nil (s : string) : split c s <> [].
Proof.
  destruct s as [|d s]; cbn [split]; [discriminate|].
  destruct (Ascii.eqb d c); [discriminate|].
  destruct (split c s); discriminate.
Qed.

(** One part: the separator does not occur. *)
Lemma split_one (s : string) : forall a : string,
  split c s = [a] <-> a = s /\ contains c s = false.
Proof.
  induction s as [|d s IH]; intros a; cbn [split contains].
  - split; [intros [= <-]; auto | intros [-> _]; reflexivity].
  - destruct (Ascii.eqb d c) eqn:E; cbn [orb].
    + split; [|intros [_ F]; discriminate].
      intros [= _ F]. now destruct (split_not_nil _ F).
    + destruct (split c s) as [|p ps] eqn:S;
        [now destruct (split_not_nil _ S)|].
      split.
      * intros [= <- ->]. destruct (proj1 (IH p) eq_refl) as [-> F]. auto.
      * intros [-> F].
        pose proof (proj2 (IH s) (conj eq_refl F)) as [= -> ->].
        reflexivity.
Qed.

(** Two parts: the separator occurs once, between them. *)
Lemma split_two (s : string) : forall a b : string,
  split c s = [a; b]
  <-> s = (a ++ String c b)%string
      /\ contains c a = false /\ contains c b = false.
Proof.
  induction s as [|d s IH]; intros a b; cbn [split].
  - split; [discriminate|]. intros [F _]. now destruct a.
  - destruct (Ascii.eqb d c) eqn:E.
    + apply Ascii.eqb_eq in E. subst d. split.
      * intros [= <- S]. apply split_one in S. destruct S as [-> F].
        auto.
      * intros [S [Fa Fb]]. destruct a as [|e a]; cbn in S.
        -- injection S as ->.
           now rewrite (proj2 (split_one b b) (conj eq_refl Fb)).
        -- injection S as <- _. cbn [contains] in Fa.
           now rewrite Ascii.eqb_refl in Fa.
    + destruct (split c s) as [|p ps] eqn:S;
        [now destruct (split_not_nil _ S)|].
      split.
      * intros [= <- ->].
        destruct (proj1 (IH p b) eq_refl) as [-> [Fa Fb]].
        cbn [append contains]. rewrite E. auto.
      * intros [S' [Fa Fb]]. destruct a as [|e a]; cbn in S'.
        -- injection S' as -> _. now rewrite Ascii.eqb_refl in E.
        -- injection S' as <- ->. cbn [contains] in Fa. rewrite E in Fa.
           pose proof (proj2 (IH a b) (conj eq_refl (conj Fa Fb)))
             as [= -> ->].
           reflexivity.
Qed.

Lemma unpack2_split (s a b : string) :
  unpack2 (split c s) = Some (a, b)
  <-> s = (a ++ String c b)%string
      /\ contains c a = false /\ contains c b = false.
Proof.
  rewrite <- split_two. unfold unpack2.
  destruct (split c s) as [|x [|y [|z l]]]; split;
    try discriminate; congruence.
Qed.

Lemma contains_app (a b : string) :
  contains c (a ++ b) = contains c a || contains c b.
Proof.
  induction a as [|d a IH]; cbn [append contains]; [reflexivity|].
  now rewrite IH, orb_assoc.
Qed.

End SplitFacts.

Section FilterFacts.

Variable NCNAME_PATTERN : string -> bool.
Variable QNAME_PATTERN : string -> bool.


(** A name in the notation [{namespace}local] is split at its only
    closing brace. *)
Lemma unpack2_clark (ns l : string) :
  contains "}" ns = false -> contains "}" l = false ->
  unpack2 (split "}" ("{" ++ ns ++ "}" ++ l))
  = Some (("{" ++ ns)%string, l).
Proof.
  intros Hns Hl. apply unpack2_split. repeat split; auto.
Qed.

(** A name that opens a brace and is not of this form is not split in
    two. *)
Lemma unpack2_malformed (t : string) :
  (forall ns l, contains "}" ns = false -> contains "}" l = false ->
                t <> (ns ++ "}" ++ l)%string) ->
  unpack2 (split "}" (String "{" t)) = None.
Proof.
  intros Ht.
  destruct (unpack2 (split "}" (String "{" t))) as [[a b]|] eqn:E;
    [|reflexivity].
  apply unpack2_split in E. destruct E as [E [Fa Fb]].
  destruct a as [|e a]; cbn in E; [discriminate|].
  injection E as <- ->. cbn [contains] in Fa.
  now destruct (Ht a b Fa Fb).
Qed.

End FilterFacts.

(** X9: for a name [{namespace}local] with no other closing brace,
    [local_name] and [tag_name] return the local part if it matches
    NCNAME_PATTERN and the empty string if not; [namespace] returns the
    part before the closing brace, the opening brace included; [qname]
    returns the name as it is, not matched against QNAME_PATTERN.  With a
    matching local part, [namespace], a closing brace and [local_name]
    give the name back. *)
Theorem clark_notation_filters (NCNAME_PATTERN QNAME_PATTERN : string -> bool)
        (obj : filter_arg) (ns l : string) :
  contains "}" ns = false -> contains "}" l = false ->
  name_or_self obj = PyStr ("{" ++ ns ++ "}" ++ l) ->
  getattr attr_local_name obj = None ->
  getattr attr_target_namespace obj = None ->
  getattr attr_prefixed_name obj = None ->
  local_name NCNAME_PATTERN obj = ncname_or_empty NCNAME_PATTERN l
  /\ namespace obj = ("{" ++ ns)%string
  /\ qname QNAME_PATTERN obj = Returns ("{" ++ ns ++ "}" ++ l)
  /\ (forall tagged,
        getattr attr_tag tagged = Some (PyStr ("{" ++ ns ++ "}" ++ l)) ->
        tag_name NCNAME_PATTERN tagged = ncname_or_empty NCNAME_PATTERN l)
  /\ (NCNAME_PATTERN l = true ->
      (namespace obj ++ "}" ++ local_name NCNAME_PATTERN obj)%string
      = ("{" ++ ns ++ "}" ++ l)%string).
Proof.
  intros Hns Hl Hn H1 H2 H3.
  pose proof (unpack2_clark ns l Hns Hl) as U.
  assert (L : local_name NCNAME_PATTERN obj
              = ncname_or_empty NCNAME_PATTERN l).
  { unfold local_name. rewrite H1, Hn. cbn [append] in U |- *.
    cbn [Ascii.eqb Bool.eqb]. now rewrite U. }
  assert (S : namespace obj = ("{" ++ ns)%string).
  { unfold namespace. rewrite H2, Hn. cbn [append] in U |- *.
    cbn [Ascii.eqb Bool.eqb negb]. now rewrite U. }
  repeat split.
  - exact L.
  - exact S.
  - unfold qname. rewrite H3, Hn. cbn [append] in U |- *.
    cbn [Ascii.eqb Bool.eqb]. now rewrite U.
  - intros tagged Ht. unfold tag_name. rewrite Ht. cbn [append] in U |- *.
    cbn [Ascii.eqb Bool.eqb]. now rewrite U.
  - intros HN. rewrite L, S. unfold ncname_or_empty. rewrite HN.
    reflexivity.
Qed.

Lemma clark_notation_filters_witness :
  local_name letters_only (named (PyStr "{urn:x}item")) = "item"%string
  /\ namespace (named (PyStr "{urn:x}item")) = "{urn:x"%string
  /\ qname letters_only (named (PyStr "{urn:x}item"))
     = Returns "{urn:x}item"
  /\ (forall tagged,
        getattr attr_tag tagged = Some (PyStr "{urn:x}item") ->
        tag_name letters_only tagged = "item"%string)
  /\ (letters_only "item" = true ->
      (namespace (named (PyStr "{urn:x}item")) ++ "}"
       ++ local_name letters_only (named (PyStr "{urn:x}item")))%string
      = "{urn:x}item"%string).
Proof.
  exact (@clark_notation_filters letters_only letters_only
           (named (PyStr "{urn:x}item")) "urn:x" "item"
           eq_refl eq_refl eq_refl eq_refl eq_refl eq_refl).
Defined.

(** X10: for a name that opens a brace and has no closing brace, or more
    than one, the unpacking of the split fails and the four filters
    return the empty string. *)
Theorem malformed_brace_filters
        (NCNAME_PATTERN QNAME_PATTERN : string -> bool)
        (obj : filter_arg) (t : string) :
  (forall ns l, contains "}" ns = false -> contains "}" l = false ->
                t <> (ns ++ "}" ++ l)%string) ->
  name_or_self obj = PyStr (String "{" t) ->
  getattr attr_local_name obj = None ->
  getattr attr_target_namespace obj = None ->
  getattr attr_prefixed_name obj = None ->
  local_name NCNAME_PATTERN obj = EmptyString
  /\ namespace obj = EmptyString
  /\ qname QNAME_PATTERN obj = Returns EmptyString
  /\ (forall tagged,
        getattr attr_tag tagged = Some (PyStr (String "{" t)) ->
        tag_name NCNAME_PATTERN tagged = EmptyString).
Proof.
  intros Ht Hn H1 H2 H3. pose proof (unpack2_malformed Ht) as U.
  repeat split.
  - unfold local_name. rewrite H1, Hn. cbn [Ascii.eqb Bool.eqb].
    now rewrite U.
  - unfold namespace. rewrite H2, Hn. cbn [Ascii.eqb Bool.eqb negb].
    now rewrite U.
  - unfold qname. rewrite H3, Hn. cbn [Ascii.eqb Bool.eqb]. now rewrite U.
  - intros tagged Hg. unfold tag_name. rewrite Hg.
    cbn [Ascii.eqb Bool.eqb]. now rewrite U.
Qed.

(** X11: for a name [prefix:local] with one colon that does not open a
    brace, [local_name] returns the local part when both parts match
    NCNAME_PATTERN, and the empty string when one of them does not. *)
Theorem local_name_prefixed (NCNAME_PATTERN : string -> bool)
        (obj : filter_arg) (p l : string) :
  contains ":" p = false -> contains ":" l = false ->
  (forall t, p <> String "{" t) ->
  name_or_self obj = PyStr (p ++ ":" ++ l) ->
  getattr attr_local_name obj = None ->
  local_name NCNAME_PATTERN obj
  = if NCNAME_PATTERN p && NCNAME_PATTERN l then l else EmptyString.
Proof.
  intros Hp Hl Hb Hn H1. unfold local_name. rewrite H1, Hn.
  assert (U : unpack2 (split ":" (p ++ ":" ++ l)) = Some (p, l)).
  { apply unpack2_split. repeat split; auto. }
  assert (C : contains ":" (p ++ ":" ++ l) = true).
  { rewrite contains_app. cbn [append contains]. rewrite Ascii.eqb_refl.
    cbn [orb]. apply orb_true_r. }
  destruct (p ++ ":" ++ l)%string as [|c s] eqn:E.
  - destruct p; discriminate.
  - destruct (Ascii.eqb c "{") eqn:B.
    + apply Ascii.eqb_eq in B. subst c. destruct p as [|c p].
      * cbn in E. discriminate.
      * cbn in E. injection E as -> _. now destruct (Hb p).
    + rewrite C, U. unfold ncname_or_empty.
      now destruct (NCNAME_PATTERN p), (NCNAME_PATTERN l).
Qed.

Lemma local_name_prefixed_witness :
  local_name letters_only (StrArg "xs:string") = "string"%string.
Proof.
  refine (@local_name_prefixed letters_only (StrArg "xs:string")
            "xs" "string" eq_refl eq_refl _ eq_refl eq_refl).
  discriminate.
Defined.

Lemma malformed_brace_filters_witness :
  local_name letters_only (StrArg "{a}b}c") = EmptyString
  /\ namespace (StrArg "{a}b}c") = EmptyString
  /\ qname letters_only (StrArg "{a}b}c") = Returns EmptyString
  /\ (forall tagged,
        getattr attr_tag tagged = Some (PyStr "{a}b}c") ->
        tag_name letters_only tagged = EmptyString).
Proof.
  refine (@malformed_brace_filters letters_only letters_only
            (StrArg "{a}b}c") "a}b}c" _ eq_refl eq_refl eq_refl eq_refl).
  intros ns l Hns Hl E.
  assert (F : unpack2 (split "}" ("{" ++ ns ++ "}" ++ l))
              = Some (("{" ++ ns)%string, l)) by now apply unpack2_clark.
  rewrite <- E in F. discriminate F.
Defined.


(** X13: [qname] is the one name filter that can raise: it ends in
    TypeError exactly when the object has an attribute [prefixed_name]
    whose value is no string, which is then matched against the pattern
    unchecked; [local_name] and [namespace] test their attribute and
    return the empty string in that case. *)
Theorem qname_type_error (NCNAME_PATTERN QNAME_PATTERN : string -> bool)
        (obj : filter_arg) :
  (qname QNAME_PATTERN obj = RaisesTypeError
   <-> getattr attr_prefixed_name obj = Some PyNotStr)
  /\ (getattr attr_local_name obj = Some PyNotStr ->
      local_name NCNAME_PATTERN obj = EmptyString)
  /\ (getattr attr_target_namespace obj = Some PyNotStr ->
      namespace obj = EmptyString).
Proof.
  repeat split.
  - unfold qname.
    destruct (getattr attr_prefixed_name obj) as [[s|]|];
      cbn [qname_or_empty]; try discriminate; auto.
    destruct (name_or_self obj) as [[|c s]|]; try discriminate.
    destruct (Ascii.eqb c "{"); [|discriminate].
    destruct (unpack2 _); discriminate.
  - intros E. unfold qname. now rewrite E.
  - intros E. unfold local_name. now rewrite E.
  - intros E. unfold namespace. now rewrite E.
Qed.

Lemma qname_type_error_witness :
  (qname letters_only
         (ObjArg (mkAttributes (Some PyNotStr) (Some PyNotStr) None
                               (Some PyNotStr) (Some PyNotStr)))
   = RaisesTypeError
   <-> Some PyNotStr = Some PyNotStr)
  /\ (Some PyNotStr = Some PyNotStr ->
      local_name letters_only
        (ObjArg (mkAttributes (Some PyNotStr) (Some PyNotStr) None
                              (Some PyNotStr) (Some PyNotStr)))
      = EmptyString)
  /\ (Some PyNotStr = Some PyNotStr ->
      namespace
        (ObjArg (mkAttributes (Some PyNotStr) (Some PyNotStr) None
                              (Some PyNotStr) (Some PyNotStr)))
      = EmptyString).
Proof.
  exact (@qname_type_error letters_only letters_only
           (ObjArg (mkAttributes (Some PyNotStr) (Some PyNotStr) None
                                 (Some PyNotStr) (Some PyNotStr)))).
Defined.

(** ** The types map of a generator *)

Section DictStringFacts.

Lemma lookup_set (m : types_map) (k v k' : string) :
  lookup (dict_set m k v) k'
  = if String.eqb k k' then Some v else lookup m k'.
Proof.
  induction m as [|[a b] m IH]; cbn [dict_set lookup].
  - reflexivity.
  - destruct (String.eqb a k) eqn:E; cbn [lookup].
    + apply String.eqb_eq in E. subst a.
      now destruct (String.eqb k k').
    + rewrite IH. destruct (String.eqb a k') eqn:E'; [|reflexivity].
      apply String.eqb_eq in E'. subst a. now rewrite String.eqb_sym, E.
Qed.

(** An assignment removes no key. *)
Lemma lookup_set_keeps (m : types_map) (k v k' : string) :
  lookup m k' <> None -> lookup (dict_set m k v) k' <> None.
Proof.
  rewrite lookup_set. now destruct (String.eqb k k').
Qed.

Lemma lookup_fold_keeps (f : string -> string) (items : types_map) :
  forall (m : types_map) (k : string),
    lookup m k <> None ->
    lookup (fold_left (fun m kv => dict_set m (f (fst kv)) (snd kv))
                      items m) k <> None.
Proof.
  induction items as [|[a b] items IH]; intros m k H; cbn [fold_left].
  - exact H.
  - apply IH. now apply lookup_set_keeps.
Qed.

Lemma lookup_fold_other (f : string -> string) (items : types_map) :
  forall (m : types_map) (k : string),
    (forall k', In k' (map fst items) -> k <> f k') ->
    lookup (fold_left (fun m kv => dict_set m (f (fst kv)) (snd kv))
                      items m) k
    = lookup m k.
Proof.
  induction items as [|[a b] items IH]; intros m k H; cbn [fold_left].
  - reflexivity.
  - rewrite IH by (intros k' Hk'; apply H; now right).
    cbn [fst snd]. rewrite lookup_set.
    destruct (String.eqb (f a) k) eqn:E; [|reflexivity].
    apply String.eqb_eq in E. destruct (H a); [now left | now symmetry].
Qed.

(** With distinct keys every item is found under its key. *)
Lemma lookup_fold_item (f : string -> string) (items : types_map) :
  forall (m : types_map) (k v : string),
    NoDup (map (fun kv => f (fst kv)) items) ->
    In (k, v) items ->
    lookup (fold_left (fun m kv => dict_set m (f (fst kv)) (snd kv))
                      items m) (f k)
    = Some v.
Proof.
  induction items as [|[a b] items IH]; intros m k v Hnd Hin;
    [destruct Hin|].
  cbn [fold_left fst snd]. cbn [map fst] in Hnd.
  apply NoDup_cons_iff in Hnd. destruct Hnd as [Hn Hnd].
  destruct Hin as [[= -> ->]|Hin].
  - rewrite lookup_fold_other.
    + rewrite lookup_set. now rewrite String.eqb_refl.
    + intros k' Hk' E. apply Hn. rewrite E.
      apply in_map_iff in Hk'. destruct Hk' as [[a' b'] [<- Hk']].
      apply in_map_iff. exists (a', b'). auto.
  - now apply IH.
Qed.

Lemma lookup_In (m : types_map) (k v : string) :
  lookup m k = Some v -> In (k, v) m.
Proof.
  induction m as [|[a b] m IH]; cbn [lookup]; [discriminate|].
  destruct (String.eqb a k) eqn:E.
  - apply String.eqb_eq in E. subst a. intros [= ->]. now left.
  - intros H. right. now apply IH.
Qed.

Lemma dict_update_fold (m items : types_map) :
  dict_update m items
  = fold_left (fun m kv => dict_set m ((fun k => k) (fst kv)) (snd kv))
              items m.
Proof. reflexivity. Qed.

Lemma dict_update_map (f : string -> string) (m items : types_map) :
  dict_update m (map (fun kv => (f (fst kv), snd kv)) items)
  = fold_left (fun m kv => dict_set m (f (fst kv)) (snd kv)) items m.
Proof.
  revert m. induction items as [|[a b] items IH]; intros m.
  - reflexivity.
  - cbn [map]. unfold dict_update in IH |- *. cbn [fold_left fst snd].
    apply IH.
Qed.

Lemma append_inj (p a b : string) :
  (p ++ a)%string = (p ++ b)%string -> a = b.
Proof.
  induction p as [|c p IH]; cbn [append]; [auto|].
  intros [= E]. auto.
Qed.

Lemma NoDup_map_injective (f : string -> string) (l : list string) :
  (forall a b, f a = f b -> a = b) -> NoDup l -> NoDup (map f l).
Proof.
  intros Hf. induction 1 as [|a l Ha Hl IH]; cbn [map]; constructor; auto.
  intros F. apply in_map_iff in F. destruct F as [b [E Hb]].
  apply Hf in E. now subst b.
Qed.

End DictStringFacts.

(** [__init__] assigns each custom item under its key. *)
Lemma init_types_map_fold (b items : types_map) (tns : string) :
  init_types_map b (Some items) tns
  = fold_left (fun m kv => dict_set m (custom_key tns (fst kv)) (snd kv))
              items b.
Proof.
  unfold init_types_map. destruct items as [|i items]; [reflexivity|].
  cbn [dict_truthy]. unfold custom_key.
  destruct (str_truthy tns); cbn [negb].
  - rewrite (dict_update_map (fun k => (("{" ++ tns ++ "}") ++ k)%string)).
    apply fold_left_ext. intros m kv. f_equal.
    cbn [append]. f_equal. clear.
    induction tns as [|c t IH]; cbn [append]; [reflexivity|].
    now rewrite IH.
  - apply dict_update_fold.
Qed.

Lemma custom_key_injective (tns a b : string) :
  custom_key tns a = custom_key tns b -> a = b.
Proof.
  unfold custom_key. destruct (str_truthy tns); [|auto].
  cbn [append]. intros [= E]. apply append_inj in E. now injection E.
Qed.

Section TypesMapFacts.

Lemma lookup_fold_has (f : string -> string) (items : types_map) :
  forall (m : types_map) (k : string),
    lookup items k <> None ->
    lookup (fold_left (fun m kv => dict_set m (f (fst kv)) (snd kv))
                      items m) (f k) <> None.
Proof.
  induction items as [|[a b] items IH]; intros m k H; cbn [lookup] in H;
    [now destruct H|].
  cbn [fold_left fst snd]. destruct (String.eqb a k) eqn:E.
  - apply String.eqb_eq in E. subst a. apply lookup_fold_keeps.
    rewrite lookup_set, String.eqb_refl. discriminate.
  - now apply IH.
Qed.

Lemma lookup_update_has (m items : types_map) (k : string) :
  lookup items k <> None -> lookup (dict_update m items) k <> None.
Proof.
  rewrite dict_update_fold. apply (lookup_fold_has (fun k => k)).
Qed.

Lemma lookup_update_keeps (m items : types_map) (k : string) :
  lookup m k <> None -> lookup (dict_update m items) k <> None.
Proof.
  rewrite dict_update_fold. apply (lookup_fold_keeps (fun k => k)).
Qed.

(** [__init__] removes no key of [builtin_types]. *)
Lemma init_types_map_keeps (b : types_map) (custom : option types_map)
      (tns k : string) :
  lookup b k <> None -> lookup (init_types_map b custom tns) k <> None.
Proof.
  intros H. destruct custom as [items|]; [|exact H].
  rewrite init_types_map_fold.
  now apply (lookup_fold_keeps (custom_key tns)).
Qed.

(** With both universal keys in the map no lookup of [map_type] is left
    without a handler. *)
Lemma map_type_keys (xsd_qname : string -> string) (h : heap)
      (m : types_map) (obj : pyobject) :
  lookup m (xsd_qname "anyType"%string) <> None ->
  lookup m (xsd_qname "anySimpleType"%string) <> None ->
  map_type xsd_qname h m obj <> Raise KeyError.
Proof.
  intros Ha Hs. unfold map_type.
  assert (G : forall t,
             try_except_KeyError
               (getitem m (name (h t)))
               (try_except_KeyError
                  match base_type_name h t with
                  | Ok n => getitem m n
                  | Raise e => Raise e
                  end
                  (if is_complex (h t)
                   then getitem m (Some (xsd_qname "anyType"%string))
                   else getitem m (Some (xsd_qname "anySimpleType"%string))))
             <> Raise KeyError).
  { intros t.
    assert (L : (if is_complex (h t)
                 then getitem m (Some (xsd_qname "anyType"%string))
                 else getitem m (Some (xsd_qname "anySimpleType"%string)))
                <> Raise KeyError).
    { destruct (is_complex (h t)); cbn [getitem].
      - destruct (lookup m (xsd_qname "anyType"%string)); [discriminate|].
        now destruct Ha.
      - destruct (lookup m (xsd_qname "anySimpleType"%string)); [discriminate|].
        now destruct Hs. }
    destruct (getitem m (name (h t))) as [v|[|]]; cbn [try_except_KeyError];
      try discriminate.
    destruct (base_type_name h t) as [n|[|]]; cbn [try_except_KeyError];
      try discriminate; [|exact L].
    destruct (getitem m n) as [v|[|]]; cbn [try_except_KeyError];
      try discriminate. exact L. }
  destruct obj; try apply G. discriminate.
Qed.

(** The merge of the bases keeps every key of every base. *)
Lemma inherited_keeps (bases : list (option types_map)) :
  forall (m : types_map) (k : string),
    lookup m k <> None
    \/ (exists d, In (Some d) bases /\ lookup d k <> None) ->
    lookup (fold_left (fun m base =>
                         match base with
                         | Some d =>
                             if dict_truthy d then dict_update m d else m
                         | None => m
                         end) bases m) k <> None.
Proof.
  induction bases as [|base bases IH]; intros m k H; cbn [fold_left].
  - destruct H as [H|[d [[] _]]]. exact H.
  - apply IH. destruct H as [H|[d [[->|Hd] Hk]]].
    + left. destruct base as [d|]; [|exact H].
      destruct (dict_truthy d); [|exact H]. now apply lookup_update_keeps.
    + left. destruct d as [|i d]; [now destruct Hk|].
      cbn [dict_truthy]. now apply lookup_update_has.
    + right. exists d. auto.
Qed.

End TypesMapFacts.

(** X14: [__init__] files each item of a custom [types_map] under its key,
    prefixed with the target namespace in braces when the schema has one,
    where it replaces or extends [builtin_types]; every other key maps as
    in [builtin_types].  With a target namespace a custom item therefore
    replaces a built-in one only if the built-in key starts with that
    namespace in braces. *)
Theorem init_types_map_lookup (builtin_types items : types_map)
        (target_namespace : string) :
  NoDup (map fst items) ->
  (forall k v, In (k, v) items ->
     lookup (init_types_map builtin_types (Some items) target_namespace)
            (custom_key target_namespace k) = Some v)
  /\ (forall k, (forall k', In k' (map fst items) ->
                            k <> custom_key target_namespace k') ->
        lookup (init_types_map builtin_types (Some items) target_namespace)
               k = lookup builtin_types k).
Proof.
  intros Hnd. rewrite init_types_map_fold. split.
  - intros k v Hin.
    apply (lookup_fold_item (custom_key target_namespace)); [|exact Hin].
    rewrite <- (map_map fst (custom_key target_namespace)).
    apply NoDup_map_injective; [|exact Hnd].
    intros a b. apply custom_key_injective.
  - intros k Hk. now apply (lookup_fold_other (custom_key target_namespace)).
Qed.

Lemma init_types_map_lookup_witness :
  (forall k v, In (k, v) [("length", "REAL(DP)")]%string ->
     lookup (init_types_map
               [(example_qname "string", "CHARACTER(len=256)")]%string
               (Some [("length", "REAL(DP)")]%string) "urn:x")
            (custom_key "urn:x" k) = Some v)
  /\ (forall k, (forall k', In k' (map fst [("length", "REAL(DP)")]%string) ->
                            k <> custom_key "urn:x" k') ->
        lookup (init_types_map
                  [(example_qname "string", "CHARACTER(len=256)")]%string
                  (Some [("length", "REAL(DP)")]%string) "urn:x") k
        = lookup [(example_qname "string", "CHARACTER(len=256)")]%string k).
Proof.
  refine (@init_types_map_lookup
            [(example_qname "string", "CHARACTER(len=256)")]%string
            [("length", "REAL(DP)")]%string "urn:x" _).
  repeat constructor. intros [].
Defined.

(** X15: for a generator class created with ['anyType'] and
    ['anySimpleType'] among the [builtin_types] of its body, or with
    their qualified names in the [builtin_types] of a base, [map_type]
    raises no KeyError, for every instance, custom [types_map], target
    namespace and object: the last lookups of the chain succeed. *)
Theorem map_type_no_key_error (xsd_qname : string -> string)
        (name : string) (bases : list (option types_map))
        (attrs_builtin_types : option types_map) (b : types_map)
        (h : heap) (custom : option types_map) (target_namespace : string)
        (obj : pyobject) :
  new_builtin_types xsd_qname name bases attrs_builtin_types = Some b ->
  (forall k, k = "anyType"%string \/ k = "anySimpleType"%string ->
     (exists d, attrs_builtin_types = Some d /\ lookup d k <> None)
     \/ (exists d, In (Some d) bases /\ lookup d (xsd_qname k) <> None)) ->
  map_type xsd_qname h (init_types_map b custom target_namespace) obj
  <> Raise KeyError.
Proof.
  intros Hb Hk.
  assert (K : forall k, k = "anyType"%string \/ k = "anySimpleType"%string ->
                lookup b (xsd_qname k) <> None).
  { intros k Hk'. unfold new_builtin_types in Hb.
    destruct (negb (dict_truthy _) && _); [discriminate|].
    injection Hb as <-.
    destruct (Hk k Hk') as [[d [-> Hd]]|[d [Hd Hl]]].
    - now apply (lookup_fold_has xsd_qname).
    - assert (I := @inherited_keeps bases [] (xsd_qname k)
                     (or_intror (ex_intro _ d (conj Hd Hl)))).
      destruct attrs_builtin_types as [d'|]; [|exact I].
      now apply (lookup_fold_keeps xsd_qname). }
  apply map_type_keys; apply init_types_map_keeps, K; auto.
Qed.

Lemma map_type_no_key_error_witness :
  new_builtin_types example_qname "FortranGenerator"
    [Some [(example_qname "anyType", EmptyString);
           (example_qname "anySimpleType", EmptyString)]]
    (Some FortranGenerator_builtin_types)
  = Some [(example_qname "anyType", EmptyString);
          (example_qname "anySimpleType", EmptyString);
          (example_qname "string", "CHARACTER(len=256)"%string);
          (example_qname "boolean", "LOGICAL"%string);
          (example_qname "double", "REAL(DP)"%string);
          (example_qname "integer", "INTEGER"%string);
          (example_qname "unsignedByte", "INTEGER"%string);
          (example_qname "nonNegativeInteger", "INTEGER"%string);
          (example_qname "positiveInteger", "INTEGER"%string)]
  /\ map_type example_qname named_heap
       (init_types_map
          [(example_qname "anyType", EmptyString);
           (example_qname "anySimpleType", EmptyString);
           (example_qname "string", "CHARACTER(len=256)"%string);
           (example_qname "boolean", "LOGICAL"%string);
           (example_qname "double", "REAL(DP)"%string);
           (example_qname "integer", "INTEGER"%string);
           (example_qname "unsignedByte", "INTEGER"%string);
           (example_qname "nonNegativeInteger", "INTEGER"%string);
           (example_qname "positiveInteger", "INTEGER"%string)]
          (Some [("length", "REAL(DP)")]%string) "urn:x")
       (XsdTypeObject 20)
     <> Raise KeyError.
Proof.
  split; [reflexivity|].
  refine (@map_type_no_key_error example_qname "FortranGenerator"
            [Some [(example_qname "anyType", EmptyString);
                   (example_qname "anySimpleType", EmptyString)]]
            (Some FortranGenerator_builtin_types) _ named_heap
            (Some [("length", "REAL(DP)")]%string) "urn:x"
            (XsdTypeObject 20) eq_refl _).
  intros k [->| ->]; left; exists FortranGenerator_builtin_types;
    (split; [reflexivity | discriminate]).
Defined.

(** X16: the [builtin_types] of a created class is empty only for a
    class whose name starts with ['Abstract']; it has every key of the
    [builtin_types] of every base; and each item of the class body is in
    it under its qualified name, replacing what is inherited there, when
    the qualified names of the body are distinct. *)
Theorem new_builtin_types_keys (xsd_qname : string -> string)
        (name : string) (bases : list (option types_map))
        (attrs_builtin_types : option types_map) (b : types_map) :
  new_builtin_types xsd_qname name bases attrs_builtin_types = Some b ->
  (b = [] -> startswith "Abstract" name = true)
  /\ (forall d k, In (Some d) bases -> lookup d k <> None ->
                  lookup b k <> None)
  /\ (forall d k v, attrs_builtin_types = Some d ->
                    NoDup (map (fun kv => xsd_qname (fst kv)) d) ->
                    In (k, v) d -> lookup b (xsd_qname k) = Some v).
Proof.
  intros Hb. unfold new_builtin_types in Hb.
  destruct (negb (dict_truthy _) && _) eqn:E; [discriminate|].
  injection Hb as <-. repeat split.
  - intros Hn. rewrite Hn in E. cbn [dict_truthy negb andb] in E.
    now apply negb_false_iff in E.
  - intros d k Hd Hl.
    assert (I := @inherited_keeps bases [] k
                   (or_intror (ex_intro _ d (conj Hd Hl)))).
    destruct attrs_builtin_types as [d'|]; [|exact I].
    now apply (lookup_fold_keeps xsd_qname).
  - intros d k v -> Hnd Hin. now apply (lookup_fold_item xsd_qname).
Qed.

Lemma new_builtin_types_keys_witness :
  ([(example_qname "anyType", "TYPE(any)"%string);
    (example_qname "anySimpleType", EmptyString)] = [] ->
   startswith "Abstract" "MyGenerator" = true)
  /\ (forall d k,
        In (Some d) [Some [(example_qname "anyType", EmptyString);
                           (example_qname "anySimpleType", EmptyString)]] ->
        lookup d k <> None ->
        lookup [(example_qname "anyType", "TYPE(any)"%string);
                (example_qname "anySimpleType", EmptyString)] k <> None)
  /\ (forall d k v,
        Some [("anyType", "TYPE(any)")]%string = Some d ->
        NoDup (map (fun kv => example_qname (fst kv)) d) ->
        In (k, v) d ->
        lookup [(example_qname "anyType", "TYPE(any)"%string);
                (example_qname "anySimpleType", EmptyString)]
               (example_qname k) = Some v).
Proof.
  exact (@new_builtin_types_keys example_qname "MyGenerator"
           [Some [(example_qname "anyType", EmptyString);
                  (example_qname "anySimpleType", EmptyString)]]
           (Some [("anyType", "TYPE(any)")]%string) _ eq_refl).
Defined.

(** ** The formal language of a generator class *)

(** The loop over the bases, started with a language already found. *)
Lemma bases_formal_language_cases (bases : list (option string)) :
  forall acc : option string,
    acc = None \/ language_truthy acc = true ->
    match bases_formal_language acc bases with
    | None =>
        exists l l', In (Some l) (acc :: bases)
                     /\ In (Some l') (acc :: bases)
                     /\ str_truthy l = true /\ str_truthy l' = true
                     /\ l <> l'
    | Some r =>
        (forall l, In (Some l) (acc :: bases) -> str_truthy l = true ->
                   r = Some l)
        /\ (r = None \/ (In r (acc :: bases) /\ language_truthy r = true))
    end.
Proof.
  induction bases as [|base bases IH]; intros acc Hacc;
    cbn [bases_formal_language].
  - split.
    + intros l [->|[]] Hl. reflexivity.
    + destruct Hacc as [->|Hacc]; [now left|]. right. split; [now left|auto].
  - assert (Skip :
      (forall l, base = Some l -> str_truthy l = false) ->
      match bases_formal_language acc bases with
      | None =>
          exists l l', In (Some l) (acc :: base :: bases)
                       /\ In (Some l') (acc :: base :: bases)
                       /\ str_truthy l = true /\ str_truthy l' = true
                       /\ l <> l'
      | Some r =>
          (forall l, In (Some l) (acc :: base :: bases) ->
                     str_truthy l = true -> r = Some l)
          /\ (r = None
              \/ (In r (acc :: base :: bases) /\ language_truthy r = true))
      end).
    { intros Hb. specialize (IH acc Hacc).
      destruct (bases_formal_language acc bases) as [r|].
      - destruct IH as [Hall Hr]. split.
        + intros l [Hl|[Hl|Hl]] Tl.
          * apply Hall; [now left | exact Tl].
          * rewrite (Hb l Hl) in Tl. discriminate.
          * apply Hall; [now right | exact Tl].
        + destruct Hr as [Hr|[[Hr|Hr] Tr]]; [now left | |];
            right; (split; [|exact Tr]); cbn [In]; auto.
      - destruct IH as [l [l' [H1 [H2 H3]]]]. exists l, l'.
        repeat split; try apply H3.
        + destruct H1 as [H1|H1]; cbn [In]; auto.
        + destruct H2 as [H2|H2]; cbn [In]; auto. }
    destruct base as [l0|]; [|apply Skip; discriminate].
    destruct (str_truthy l0) eqn:T0;
      [|apply Skip; intros l [= <-]; exact T0].
    destruct acc as [l1|].
    + destruct (String.eqb l1 l0) eqn:E; cbn [negb].
      * apply String.eqb_eq in E. subst l1.
        specialize (IH (Some l0) Hacc).
        destruct (bases_formal_language (Some l0) bases) as [r|].
        -- destruct IH as [Hall Hr]. split.
           ++ intros l [Hl|[Hl|Hl]] Tl; apply Hall; cbn [In]; auto.
           ++ destruct Hr as [Hr|[[Hr|Hr] Tr]]; [now left | |];
                right; (split; [|exact Tr]); cbn [In]; auto.
        -- destruct IH as [l [l' [H1 [H2 H3]]]]. exists l, l'.
           repeat split; try apply H3.
           ++ destruct H1 as [H1|H1]; cbn [In]; auto.
           ++ destruct H2 as [H2|H2]; cbn [In]; auto.
      * exists l1, l0. destruct Hacc as [Hacc|Hacc]; [discriminate|].
        repeat split; cbn [In]; auto.
        intros ->. now rewrite String.eqb_refl in E.
    + specialize (IH (Some l0) (or_intror T0)).
      destruct (bases_formal_language (Some l0) bases) as [r|].
      * destruct IH as [Hall Hr]. split.
        -- intros l [Hl|[Hl|Hl]] Tl; [discriminate | |];
             apply Hall; cbn [In]; auto.
        -- destruct Hr as [Hr|[[Hr|Hr] Tr]]; [now left | |];
             right; (split; [|exact Tr]); cbn [In]; auto.
      * destruct IH as [l [l' [H1 [H2 H3]]]]. exists l, l'.
        repeat split; try apply H3.
        -- destruct H1 as [H1|H1]; cbn [In]; auto.
        -- destruct H2 as [H2|H2]; cbn [In]; auto.
Qed.

(** X17: creating a generator class fails on [formal_language] in two
    cases: two bases have different non-empty languages, or the class
    body assigns [formal_language], to any value, while a base has a
    non-empty one.  Otherwise the class gets the value its body assigns,
    or else the one language of its bases, or [None] when no base has
    one. *)
Theorem new_formal_language_cases (bases : list (option string))
        (attrs_formal_language : option (option string)) :
  match new_formal_language bases attrs_formal_language with
  | None =>
      (exists l l', In (Some l) bases /\ In (Some l') bases
                    /\ str_truthy l = true /\ str_truthy l' = true
                    /\ l <> l')
      \/ (attrs_formal_language <> None
          /\ exists l, In (Some l) bases /\ str_truthy l = true)
  | Some r =>
      (forall l l', In (Some l) bases -> In (Some l') bases ->
                    str_truthy l = true -> str_truthy l' = true -> l = l')
      /\ match attrs_formal_language with
         | None =>
             (forall l, In (Some l) bases -> str_truthy l = true ->
                        r = Some l)
             /\ (r = None \/ (In r bases /\ language_truthy r = true))
         | Some v =>
             r = v
             /\ forall l, In (Some l) bases -> str_truthy l = false
         end
  end.
Proof.
  unfold new_formal_language.
  pose proof (@bases_formal_language_cases bases None (or_introl eq_refl))
    as H.
  destruct (bases_formal_language None bases) as [fl|].
  - destruct H as [Hall Hr].
    assert (U : forall l l', In (Some l) bases -> In (Some l') bases ->
                  str_truthy l = true -> str_truthy l' = true -> l = l').
    { intros l l' Hl Hl' Tl Tl'.
      pose proof (Hall l (or_intror Hl) Tl) as E.
      rewrite (Hall l' (or_intror Hl') Tl') in E. now injection E. }
    assert (R : fl = None \/ (In fl bases /\ language_truthy fl = true)).
    { destruct Hr as [Hr|[[Hr|Hr] Tr]]; auto. }
    destruct attrs_formal_language as [v|].
    + destruct (language_truthy fl) eqn:T.
      * right. split; [discriminate|].
        destruct R as [->|[Hin _]]; [discriminate|].
        destruct fl as [l|]; [|discriminate]. exists l. auto.
      * split; [exact U|]. split; [reflexivity|].
        intros l Hl. destruct (str_truthy l) eqn:Tl; [|reflexivity].
        rewrite (Hall l (or_intror Hl) Tl) in T. cbn in T. congruence.
    + split; [exact U|]. split; [|exact R].
      intros l Hl Tl. apply Hall; [now right | exact Tl].
  - left. destruct H as [l [l' [[H1|H1] [[H2|H2] H3]]]]; try discriminate.
    exists l, l'. auto.
Qed.

(** A subclass of a generator with a language cannot assign
    [formal_language] again, not even to the same value. *)
Example subclass_restates_language :
  new_formal_language [Some "Fortran"%string] (Some (Some "Fortran"%string))
  = None
  /\ new_formal_language [Some "Fortran"%string] None
     = Some (Some "Fortran"%string).
Proof. split; reflexivity. Qed.

(** ** Sorting a sorted sequence *)

Section Idempotence.

Variable h : heap.

Lemma ready_same (K K' : list ref) (x : ref) :
  (forall y, In y K <-> In y K') -> ready h K x = ready h K' x.
Proof.
  intros HK. unfold ready, deps_in.
  rewrite (filter_ext (fun e => memb e K) (fun e => memb e K'));
    [reflexivity|].
  intros y. destruct (memb y K') eqn:M.
  - apply memb_In. apply HK. now apply memb_In.
  - apply memb_not_In. apply memb_not_In in M. intros F. apply M.
    now apply HK.
Qed.

(** The loop run on what it returned, with the types in that order,
    returns it again. *)
Lemma layers_again (xs xs' : list ref) (a : bool) (fuel : nat) :
  forall K t : list ref,
    NoDup K -> incl K xs ->
    layers h xs fuel a K [] = Some (Return t) ->
    filter (fun x => memb x t) (dedup xs') = t ->
    layers h xs' fuel a t [] = Some (Return t).
Proof.
  induction fuel as [|fuel IH]; intros K t HK Hin E Hord.
  - destruct K; [|discriminate]. injection E as <-. reflexivity.
  - destruct K as [|k K0]; [injection E as <-; reflexivity|].
    set (K := k :: K0) in *.
    assert (NK : K <> []) by discriminate.
    destruct (layer h xs K) as [|l0 L0] eqn:EL.
    + rewrite (@layers_stuck h xs fuel a K [] NK EL) in E.
      destruct a; [|discriminate]. injection E as <-.
      rewrite EL, (@stuck_rest h xs K Hin EL). cbn [app].
      assert (EL' : layer h xs' K = []).
      { apply filter_none. intros x _.
        destruct (memb x K) eqn:M; [|reflexivity]. cbn [andb].
        apply memb_In in M.
        destruct (ready h K x) eqn:R; [|reflexivity].
        assert (F : In x (layer h xs K)) by (apply layer_In; auto).
        rewrite EL in F. destruct F. }
      rewrite (@layers_stuck h xs' fuel true K [] NK EL'), EL'.
      cbn [app]. now rewrite (@stuck_rest h xs K Hin EL).
    + assert (NE : layer h xs K <> []) by (rewrite EL; discriminate).
      remember (l0 :: L0) as L eqn:HL.
      rewrite (@layers_step h xs fuel a K [] NE), layers_shift in E.
      rewrite EL in E. cbn [app] in E.
      destruct (layers h xs fuel a (rest h K) []) as [[t'| | |]|] eqn:E';
        try discriminate.
      injection E as <-.
      assert (HKr : NoDup (rest h K)) by now apply rest_NoDup.
      assert (Hinr : incl (rest h K) xs).
      { intros x Hx. now apply Hin, (rest_incl h K). }
      pose proof (@layers_perm h xs a fuel (rest h K) [] t' HKr Hinr E')
        as Pt. cbn [app] in Pt.
      assert (InL : forall x, In x L <-> In x K /\ ready h K x = true).
      { intros x. rewrite <- EL. now apply layer_In. }
      assert (Int' : forall x, In x t' <-> In x K /\ ready h K x = false).
      { intros x. rewrite <- rest_In. split; intros Hx.
        - now apply (Permutation_in _ Pt).
        - now apply (Permutation_in _ (Permutation_sym Pt)). }
      assert (Same : forall y, In y (L ++ t') <-> In y K).
      { intros y. rewrite in_app_iff, InL, Int'.
        destruct (ready h K y); intuition congruence. }
      assert (Rdy : forall x, ready h (L ++ t') x = ready h K x).
      { intros x. now apply ready_same. }
      assert (FL : filter (ready h (L ++ t')) (L ++ t') = L).
      { rewrite filter_app, (@filter_all _ _ L), (@filter_none _ _ t').
        - apply app_nil_r.
        - intros x Hx. rewrite Rdy. now apply Int' in Hx.
        - intros x Hx. rewrite Rdy. now apply InL in Hx. }
      assert (EL2 : layer h xs' (L ++ t') = L).
      { unfold layer. rewrite <- filter_and, Hord. exact FL. }
      assert (ER2 : rest h (L ++ t') = t').
      { unfold rest. rewrite filter_app, (@filter_none _ _ L),
          (@filter_all _ _ t').
        - reflexivity.
        - intros x Hx. rewrite Rdy. apply Int' in Hx.
          destruct Hx as [_ ->]. reflexivity.
        - intros x Hx. rewrite Rdy. apply InL in Hx.
          destruct Hx as [_ ->]. reflexivity. }
      assert (NE2 : layer h xs' (L ++ t') <> []).
      { rewrite EL2, HL. discriminate. }
      rewrite (@layers_step h xs' fuel a (L ++ t') [] NE2), layers_shift.
      rewrite EL2, ER2. cbn [app].
      rewrite (IH (rest h K) t' HKr Hinr E'); [reflexivity|].
      assert (Sub : filter (fun x => memb x t') (dedup xs')
                    = filter (fun x => memb x t') (L ++ t')).
      { rewrite <- Hord at 1. rewrite filter_and.
        apply filter_ext. intros x.
        destruct (memb x t') eqn:M; [|now rewrite andb_false_r].
        apply memb_In in M.
        assert (M' : In x (L ++ t')) by (apply in_or_app; now right).
        apply memb_In in M'. now rewrite M'. }
      rewrite Sub, filter_app, (@filter_none _ _ L), (@filter_all _ _ t').
      * reflexivity.
      * intros x. apply memb_In.
      * intros x Hx. apply memb_not_In. intros F.
        apply InL in Hx. apply Int' in F.
        destruct Hx as [_ Hx], F as [_ F]. congruence.
Qed.

End Idempotence.

(** X18: sorting is idempotent on classified inputs: what [sorted_types]
    returns is returned unchanged when it is sorted again, with the same
    [accept_circularity]. *)
Theorem sorted_types_idempotent (h : heap) (c : collection) (a : bool)
        (out : list ref) :
  (forall x, In x (values c) -> classified h x) ->
  sorted_types h c a = Some (Return out) ->
  sorted_types h (Sequence out) a = Some (Return out).
Proof.
  intros Hc E.
  pose proof (@no_wildcards h c a _ E ltac:(discriminate)) as NW.
  set (xs := values c) in *.
  destruct (@sorted_types_run h c a NW) as [r [Hr Hs]]. fold xs in Hr, Hs.
  specialize (Hr _ (Nat.le_refl _)). rewrite Hs in E. clear Hs.
  destruct r as [o| | |]; try discriminate.
  unfold check_length in E.
  destruct (length xs =? length o) eqn:EL; [|discriminate].
  injection E as ->. apply Nat.eqb_eq in EL.
  rewrite layers_shift in Hr.
  destruct (layers h xs (length xs) a (working_set h xs) [])
    as [[t| | |]|] eqn:Et; try discriminate.
  injection Hr as Hout.
  pose proof (@layers_perm h xs a (length xs) (working_set h xs) [] t
                (working_set_NoDup h xs) (@working_set_incl h xs) Et) as Pt.
  cbn [app] in Pt.
  assert (Ht : forall x, In x t -> In x xs /\ structured h x = true).
  { intros x Hx. apply working_set_In. now apply (Permutation_in _ Pt). }
  assert (Nt : NoDup t).
  { apply (Permutation_NoDup (Permutation_sym Pt)), working_set_NoDup. }
  assert (Fs : filter (simple h) (placed h xs) = filter (simple h) xs).
  { unfold placed. rewrite filter_app, !filter_and.
    rewrite (@filter_none _ (fun x => simple_content h x && simple h x) xs).
    - rewrite app_nil_r. apply filter_ext. intros x. apply andb_diag.
    - intros x Hx. destruct (simple_content h x) eqn:S; [|reflexivity].
      destruct (classified_cases (Hc x Hx)) as [_ [H2 _]].
      now rewrite (H2 S). }
  assert (Fc : filter (simple_content h) (placed h xs)
               = filter (simple_content h) xs).
  { unfold placed. rewrite filter_app, !filter_and.
    rewrite (@filter_none _ (fun x => simple h x && simple_content h x) xs).
    - cbn [app]. apply filter_ext. intros x. apply andb_diag.
    - intros x Hx. destruct (simple h x) eqn:S; [|reflexivity].
      destruct (classified_cases (Hc x Hx)) as [H1 _].
      now rewrite (proj1 (H1 S)). }
  assert (Ft : filter (structured h) (placed h xs) = []).
  { apply filter_none. intros x Hx. unfold placed in Hx.
    apply in_app_or in Hx.
    destruct Hx as [Hx|Hx]; apply filter_In in Hx; destruct Hx as [Hx S].
    - destruct (classified_cases (Hc x Hx)) as [H1 _]. apply (H1 S).
    - destruct (structured h x) eqn:T; [|reflexivity].
      destruct (classified_cases (Hc x Hx)) as [H1 [H2 H3]].
      unfold simple_content, structured in S, T.
      destruct (is_complex (h x)), (has_simple_content (h x));
        discriminate. }
  assert (HP : placed h out = placed h xs).
  { rewrite <- Hout. unfold placed at 1.
    rewrite !filter_app, Fs, Fc.
    rewrite (@filter_none _ (simple h) t),
      (@filter_none _ (simple_content h) t).
    - now rewrite !app_nil_r.
    - intros x Hx. destruct (Ht x Hx) as [_ T].
      unfold simple_content, structured in *.
      destruct (is_complex (h x)), (has_simple_content (h x));
        try discriminate; reflexivity.
    - intros x Hx. destruct (Ht x Hx) as [Hxs T].
      destruct (classified_cases (Hc x Hxs)) as [_ [_ H3]]. exact (H3 T). }
  assert (HW : working_set h out = t).
  { rewrite <- Hout. unfold working_set.
    rewrite filter_app, Ft, (@filter_all _ _ t).
    - cbn [app]. now apply dedup_id.
    - intros x Hx. now apply Ht. }
  assert (Hord : filter (fun x => memb x t) (dedup out) = t).
  { rewrite filter_dedup, <- Hout, filter_app.
    rewrite (@filter_none _ _ (placed h xs)), (@filter_all _ _ t).
    - cbn [app]. now apply dedup_id.
    - intros x. apply memb_In.
    - intros x Hx. apply memb_not_In. intros F.
      destruct (Ht x F) as [_ T].
      assert (G : In x (filter (structured h) (placed h xs)))
        by (apply filter_In; auto).
      rewrite Ft in G. destruct G. }
  assert (NW' : wildcards h (values (Sequence out)) = false).
  { unfold wildcards in NW |- *. cbn [values]. rewrite HW.
    destruct (existsb (fun x => has_wildcard (h x)) t) eqn:Ex;
      [|reflexivity].
    apply existsb_exists in Ex. destruct Ex as [x [Hx Wx]].
    rewrite <- NW. symmetry. apply existsb_exists. exists x.
    split; [|exact Wx]. now apply (Permutation_in _ Pt). }
  destruct (@sorted_types_run h (Sequence out) a NW') as [r' [Hr' Hs']].
  cbn [values] in Hr', Hs'.
  specialize (Hr' (length xs)). rewrite EL in Hr'.
  specialize (Hr' (Nat.le_refl _)). rewrite <- EL in Hr'.
  rewrite HP, HW, layers_shift in Hr'.
  rewrite (@layers_again h xs out a (length xs) (working_set h xs) t
             (working_set_NoDup h xs) (@working_set_incl h xs) Et Hord)
    in Hr'.
  injection Hr' as <-. rewrite Hs', Hout. unfold check_length.
  now rewrite Nat.eqb_refl.
Qed.

Lemma sorted_types_idempotent_witness :
  sorted_types cycle_heap (Sequence [0; 1; 4; 2; 3]) true
  = Some (Return [3; 4; 0; 1; 2])
  /\ sorted_types cycle_heap (Sequence [3; 4; 0; 1; 2]) true
     = Some (Return [3; 4; 0; 1; 2]).
Proof.
  split; [reflexivity|].
  refine (@sorted_types_idempotent cycle_heap (Sequence [0; 1; 4; 2; 3])
            true [3; 4; 0; 1; 2] _ eq_refl).
  intros x H. cbn [values In] in H. in_cases H.
Defined.
